(** * Query translation for retrieval-augmented generation

    A shallow embedding of the retrieval orchestration code of the
    repository:

    - [models/fusion_rrf.py]: [FusionRetrieval] (reciprocal rank fusion and
      the fusion pipeline),
    - [models/decomposition_ltm.py]: [DecompositionRetrieval] (sequential
      answering of sub-questions and the final synthesis context),
    - [call_methods.py]: [RAGMethodCaller] (the dispatcher),
    - [configuration.py]: [Config] (the variables of the environment),
    - [document_processor.py]: [DocumentProcessor] (loading, splitting and
      indexing a page),
    - [main.py]: [main].

    Conventions of the embedding.

    - A Python [str] is a [string]; each character is read as the code
      point of the same number (U+0000 to U+00FF).  [str.strip],
      [str.lower] and [str.split] are written out on that range.
    - A Python exception is a value of [exn]; a call that may raise returns
      a [result].
    - A Python [float] score is a binary64 number ([Binary64.arith]): a
      primitive [float] with [+] and [<] of IEEE 754, and [1 / n] for an
      [int] [n] as the binary64 number nearest to the exact quotient.  The
      fusion loop is written over the operations it applies to scores
      ([ScoreArith]): the literal [0], [+], [1 / n] and [<], which is what
      [sorted] compares with; what depends on the order of scores is proved
      for binary64 numbers.  Exact rationals are a second instance, to
      compute sums with.
    - LangChain's [Document], [dumps], [loads], prompt templates, the chat
      model and the retriever are collaborators from outside the
      repository: they are parameters ([Document], [Collaborators]); so
      are the page loader, the splitter and the vector store
      ([DocumentProcessor.Services]).
    - [os.environ] is a [dict] of strings. *)

From Stdlib Require Import List String Ascii ZArith Bool Arith Lia.
From Stdlib Require Import Sorted Permutation DecimalString.
From Stdlib Require QArith.
From Stdlib Require Import Floats.
Import ListNotations.
Local Open Scope string_scope.
Local Open Scope list_scope.

(** ** Python values shared by the three files *)

Module Py.

(** Exceptions, by class.  [OtherError] stands for any other exception
    class of a collaborator (network failure, rate limit, ...). *)
Inductive exn : Type :=
| ValueError (msg : string)
| ZeroDivisionError (msg : string)
| KeyError (msg : string)
| TypeError (msg : string)
| EOFError (msg : string)
| OtherError (msg : string).

(** [str(e)] *)
Definition str_exn (e : exn) : string :=
  match e with
  | ValueError m | ZeroDivisionError m | KeyError m
  | TypeError m | EOFError m | OtherError m => m
  end.

(** [isinstance(e, ValueError)] for the classes above. *)
Definition is_ValueError (e : exn) : bool :=
  match e with ValueError _ => true | _ => false end.

Inductive result (A : Type) : Type :=
| Ok (a : A)
| Err (e : exn).
Arguments Ok {A} a.
Arguments Err {A} e.

(** The newline character and the one-character string ["\n"]. *)
Definition nl_char : ascii := ascii_of_nat 10.
Definition nl : string := String nl_char EmptyString.

(** [str.isspace] on one character: the code points below U+0100 that
    CPython's [_PyUnicode_IsWhitespace] accepts. *)
Definition isspace (c : ascii) : bool :=
  let n := nat_of_ascii c in
  (((9 <=? n) && (n <=? 13)) || ((28 <=? n) && (n <=? 32))
   || (n =? 133) || (n =? 160))%nat.

(** [s.lstrip()], [s.rstrip()] and [s.strip()] with no argument. *)
Fixpoint lstrip (s : string) : string :=
  match s with
  | EmptyString => EmptyString
  | String c s' => if isspace c then lstrip s' else s
  end.

Fixpoint rstrip (s : string) : string :=
  match s with
  | EmptyString => EmptyString
  | String c s' =>
      match rstrip s' with
      | EmptyString => if isspace c then EmptyString else String c EmptyString
      | r => String c r
      end
  end.

Definition strip (s : string) : string := rstrip (lstrip s).

(** *** Trimming in the words of the specification *)

(** The white space of Python below U+0100, one by one: tab, line feed,
    vertical tab, form feed, carriage return, the separators U+001C to
    U+001F, the space, NEL and the no-break space. *)
Definition whitespace : list ascii :=
  map ascii_of_nat [9; 10; 11; 12; 13; 28; 29; 30; 31; 32; 133; 160]%nat.

Definition all_space (s : string) : Prop :=
  forall c, In c (list_ascii_of_string s) -> In c whitespace.

Definition ends_in_text (s : string) : Prop :=
  s = ""%string
  \/ exists (s' : string) (c : ascii),
      s = (s' ++ String c "")%string /\ ~ In c whitespace.

(** [text] is [full] trimmed of trailing white space: what is cut off is
    white space, and what is left does not end in white space. *)
Definition trimmed_of (full text : string) : Prop :=
  exists tail : string,
    full = (text ++ tail)%string /\ all_space tail /\ ends_in_text text.

(** [c.lower()] on one character below U+0100: the capital letters A-Z and
    the capital letters of U+00C0..U+00DE (U+00D7, the multiplication sign,
    is not a letter) move 32 places up. *)
Definition lower_char (c : ascii) : ascii :=
  let n := nat_of_ascii c in
  if (((65 <=? n) && (n <=? 90))
      || ((192 <=? n) && (n <=? 222) && negb (n =? 215)))%nat
  then ascii_of_nat (n + 32) else c.

(** [s.lower()] *)
Fixpoint lower (s : string) : string :=
  match s with
  | EmptyString => EmptyString
  | String c s' => String (lower_char c) (lower s')
  end.

(** [s.split("\n")]: the pieces between newlines, at least one piece. *)
Fixpoint split_lines (s : string) : list string :=
  match s with
  | EmptyString => [EmptyString]
  | String c s' =>
      if Ascii.eqb c nl_char then EmptyString :: split_lines s'
      else match split_lines s' with
           | piece :: pieces => String c piece :: pieces
           | [] => [String c EmptyString]
           end
  end.

(** [sep.join(parts)] *)
Fixpoint join (sep : string) (parts : list string) : string :=
  match parts with
  | [] => EmptyString
  | [p] => p
  | p :: rest => p ++ sep ++ join sep rest
  end.

(** [str(i)] for a non-negative [int]. *)
Definition str_of_nat (i : nat) : string :=
  NilEmpty.string_of_uint (Nat.to_uint i).

End Py.
Import Py.

(** ** Collaborators from outside the repository *)

(** LangChain's [Document] with what the code uses of it: the attribute
    [page_content] and the serialisation pair [dumps] / [loads] of
    [langchain.load]. *)
Class Document (Doc : Type) : Type := {
  dumps : Doc -> string;
  loads : string -> Doc;
  page_content : Doc -> string
}.

(** The arithmetic the fusion loop and [sorted] apply to scores. *)
Class ScoreArith (score : Type) : Type := {
  zero : score;                        (* the literal [0] *)
  add : score -> score -> score;       (* [a + b] *)
  recip : Z -> score;                  (* [1 / n], [n] a non-zero [int] *)
  ltb : score -> score -> bool         (* [a < b] *)
}.

(** The order of scores.  [sound] holds of the scores that can arise
    (for binary64 numbers: all but NaN): the literal [0] and whatever a
    contribution [1 / n] is added to.  On them [<] is a strict weak order;
    [ltb a b = false] reads "[a] is not below [b]". *)
Class ScoreOrder (score : Type) `{ScoreArith score} (sound : score -> Prop)
  : Prop := {
  sound_zero : sound zero;
  sound_add : forall a n, sound a -> n <> 0%Z -> sound (add a (recip n));
  ltb_asym : forall a b, sound a -> sound b -> ltb a b = true -> ltb b a = false;
  geb_trans : forall a b c, sound a -> sound b -> sound c ->
      ltb a b = false -> ltb b c = false -> ltb a c = false
}.

(** Monotone arithmetic on the scores that arise when every contribution
    is [1 / n] for a positive [n] ([nonneg]): [+] is monotone in both
    arguments and adding [0] lowers nothing; [1 / n] is antitone. *)
Class ScoreMonotone (score : Type) `{ScoreArith score} (nonneg : score -> Prop)
  : Prop := {
  nonneg_zero : nonneg zero;
  nonneg_recip : forall n, (0 < n)%Z -> nonneg (recip n);
  nonneg_add : forall a b, nonneg a -> nonneg b -> nonneg (add a b);
  nonneg_asym : forall a b, nonneg a -> nonneg b ->
      ltb a b = true -> ltb b a = false;
  nonneg_trans : forall a b c, nonneg a -> nonneg b -> nonneg c ->
      ltb a b = false -> ltb b c = false -> ltb a c = false;
  zero_least : forall a, nonneg a -> ltb a zero = false;
  add_mono : forall a a' b b',
      nonneg a -> nonneg a' -> nonneg b -> nonneg b' ->
      ltb a' a = false -> ltb b' b = false -> ltb (add a' b') (add a b) = false;
  add_zero_r : forall a, nonneg a -> ltb (add a zero) a = false;
  recip_antitone : forall m n,
      (0 < m)%Z -> (m <= n)%Z -> ltb (recip m) (recip n) = false
}.

(** ** Builtins: insertion-ordered [dict] and [sorted] *)

Module Builtins.
Section Dict.
Context {V : Type}.

(** A [dict] with [str] keys: its items in insertion order. *)
Definition dict : Type := list (string * V).

(** [key in d] *)
Fixpoint dict_mem (key : string) (d : dict) : bool :=
  match d with
  | [] => false
  | (k, _) :: d' => if String.eqb key k then true else dict_mem key d'
  end.

(** [d[key]]: raises [KeyError] on a missing key. *)
Fixpoint dict_get (key : string) (d : dict) : result V :=
  match d with
  | [] => Err (KeyError key)
  | (k, v) :: d' => if String.eqb key k then Ok v else dict_get key d'
  end.

(** [d[key] = v]: a present key keeps its place, a new key goes last. *)
Fixpoint dict_set (key : string) (v : V) (d : dict) : dict :=
  match d with
  | [] => [(key, v)]
  | (k, w) :: d' =>
      if String.eqb key k then (k, v) :: d' else (k, w) :: dict_set key v d'
  end.
End Dict.
Arguments dict V : clear implicits.

Section Sorted.
Context {A K : Type} (lt : K -> K -> bool) (key : A -> K).

(** One insertion of the stable ascending sort: [x], the latest element,
    goes behind every element it is not below. *)
Fixpoint insort (x : A) (l : list A) : list A :=
  match l with
  | [] => [x]
  | y :: l' => if lt (key x) (key y) then x :: y :: l' else y :: insort x l'
  end.

(** [list.sort(key=key)]: stable, ascending, comparing keys with [<]. *)
Definition sort_asc (l : list A) : list A :=
  fold_left (fun acc x => insort x acc) l [].

(** [sorted(l, key=key, reverse=True)]: CPython reverses the list, sorts
    it ascending and stable, and reverses the outcome. *)
Definition sorted_reverse (l : list A) : list A :=
  rev (sort_asc (rev l)).

(** The ascending sort of a reversed list as a right fold: one insertion
    per element of the list, read back to front. *)
Definition isort (l : list A) : list A :=
  fold_right insort [] l.

(** [asc a b]: [a] may stand before [b] in an ascending list. *)
Definition asc (a b : A) : Prop := lt (key b) (key a) = false.
End Sorted.
End Builtins.
Import Builtins.

(** ** [FusionRetrieval.reciprocal_rank_fusion] (static method) *)

Section RankFusion.
Context {Doc : Type} `{Document Doc} {score : Type} `{ScoreArith score}.

(** The body of [for rank, doc in enumerate(docs)], from position [rank]
    on, on the dictionary [fused_scores]. *)
Fixpoint fuse_docs (k : Z) (rank : nat) (docs : list Doc)
         (fused_scores : dict score) : result (dict score) :=
  match docs with
  | [] => Ok fused_scores
  | doc :: rest =>
      let doc_str := dumps doc in
      let fused_scores :=
        if dict_mem doc_str fused_scores then fused_scores
        else dict_set doc_str zero fused_scores in
      match dict_get doc_str fused_scores with
      | Err e => Err e
      | Ok old =>
          if (Z.of_nat rank + k =? 0)%Z
          then Err (ZeroDivisionError "division by zero")
          else
            fuse_docs k (S rank) rest
              (dict_set doc_str (add old (recip (Z.of_nat rank + k)))
                        fused_scores)
      end
  end.

(** [for docs in results] *)
Fixpoint fuse_lists (k : Z) (results : list (list Doc))
         (fused_scores : dict score) : result (dict score) :=
  match results with
  | [] => Ok fused_scores
  | docs :: rest =>
      match fuse_docs k 0 docs fused_scores with
      | Err e => Err e
      | Ok fused_scores => fuse_lists k rest fused_scores
      end
  end.

(** The dictionary at the end of the two loops, from [fused_scores = {}]. *)
Definition fused_scores (results : list (list Doc)) (k : Z)
  : result (dict score) :=
  fuse_lists k results [].

Definition load_entry (item : string * score) : Doc * score :=
  (loads (fst item), snd item).

Definition reciprocal_rank_fusion (results : list (list Doc)) (k : Z)
  : result (list (Doc * score)) :=
  match results with
  | [] => Err (ValueError "Results list cannot be empty")
  | _ :: _ =>
      match fused_scores results k with
      | Ok fused =>
          Ok (map load_entry (sorted_reverse ltb snd fused))
      | Err e =>
          Err (ValueError
                 ("Failed to perform reciprocal rank fusion: " ++ str_exn e))
      end
  end.

(** The default [k=60]. *)
Definition default_k : Z := 60.

(** *** The score formula in the words of the specification *)

(** The contributions [1 / (rank + k)] of the occurrences of the document
    serialised as [key] in one ranked list, front to back; [rank] is the
    position of the head of [docs]. *)
Fixpoint list_contributions (key : string) (k : Z) (rank : nat)
         (docs : list Doc) : list score :=
  match docs with
  | [] => []
  | doc :: rest =>
      (if String.eqb (dumps doc) key then [recip (Z.of_nat rank + k)] else [])
        ++ list_contributions key k (S rank) rest
  end.

(** ... and in all lists, first list to last. *)
Definition contributions (key : string) (k : Z) (results : list (list Doc))
  : list score :=
  flat_map (list_contributions key k 0) results.

(** Their sum, accumulated from [0] in scanning order. *)
Definition score_sum (key : string) (k : Z) (results : list (list Doc))
  : score :=
  fold_left add (contributions key k results) zero.
End RankFusion.

(** ** Vocabulary of the statements about fusion *)

Section FusionVocabulary.
Context {score : Type} `{ScoreArith score}.

(** The score a dictionary holds for [key], [0] when it holds none. *)
Definition score_of (key : string) (d : dict score) : score :=
  match dict_get key d with
  | Ok s => s
  | Err _ => zero
  end.

(** The fused score of the document serialised as [key] after the two
    loops: its entry in the dictionary, [0] when it has none. *)
Definition fused_score {Doc : Type} `{Document Doc} (key : string)
           (results : list (list Doc)) (k : Z) : result score :=
  match fused_scores results k with
  | Ok fused => Ok (score_of key fused)
  | Err e => Err e
  end.

(** [key in seen] for a list of keys. *)
Definition seen_before (key : string) (seen : list string) : bool :=
  existsb (String.eqb key) seen.

(** The keys of [seen], then the keys of [l] that are new, each at its
    first occurrence. *)
Fixpoint first_seen (seen l : list string) : list string :=
  match l with
  | [] => seen
  | key :: l' =>
      first_seen (if seen_before key seen then seen else seen ++ [key]) l'
  end.
End FusionVocabulary.

(** The items of one ranked list taken alone: every document with the
    contribution of its rank, added to [0]; [rank] is the position of the
    head of [docs]. *)
Fixpoint ranked {Doc : Type} `{Document Doc} {score : Type} `{ScoreArith score}
         (k : Z) (rank : nat) (docs : list Doc) : list (string * score) :=
  match docs with
  | [] => []
  | doc :: rest =>
      (dumps doc, add zero (recip (Z.of_nat rank + k))) :: ranked k (S rank) rest
  end.

(** [before a b l]: some occurrence of [a] in [l] is followed, later, by an
    occurrence of [b]. *)
Fixpoint before {A : Type} (a b : A) (l : list A) : Prop :=
  match l with
  | [] => False
  | x :: l' => (x = a /\ In b l') \/ before a b l'
  end.

(** ** Two score arithmetics and a document type to compute with *)

(** Exact rational scores. *)
Module RationalScores.
Import QArith.
Definition arith : ScoreArith Q :=
  Build_ScoreArith Q
    0%Q                                   (* [0] *)
    Qplus                                 (* [a + b] *)
    (fun n => Qinv (inject_Z n))          (* [1 / n] *)
    (fun a b => negb (Qle_bool b a)).     (* [a < b] *)
End RationalScores.

(** Binary64 scores, the [float] of CPython. *)
Module Binary64.
Local Open Scope Z_scope.

(** An [int] as it is, with exponent 0. *)
Definition of_int (n : Z) : spec_float :=
  match n with
  | Z0 => S754_zero false
  | Zpos p => S754_finite false p 0
  | Zneg p => S754_finite true p 0
  end.

(** [1 / n] for an [int] [n]: CPython's true division of two [int]s
    returns the binary64 number nearest to the exact quotient, ties to
    even, whatever the size of [n]; [SFdiv] rounds the exact quotient of
    its operands in that way. *)
Definition true_divide (n : Z) : float :=
  SF2Prim (SFdiv prec emax (S754_finite false 1 0) (of_int n)).

Definition arith : ScoreArith float :=
  Build_ScoreArith float
    0%float                               (* [0], on its way to [float] *)
    PrimFloat.add                         (* [a + b] *)
    true_divide                           (* [1 / n] *)
    PrimFloat.ltb.                        (* [a < b] *)

(** *** Vocabulary of the proofs about binary64 numbers *)

Definition not_nan (f : spec_float) : bool :=
  match f with S754_nan => false | _ => true end.

(** Zero or finite. *)
Definition bounded_float (f : spec_float) : bool :=
  match f with S754_zero _ | S754_finite _ _ _ => true | _ => false end.

(** Not below zero, and no NaN. *)
Definition nonneg_float (f : spec_float) : bool :=
  match f with
  | S754_nan => false
  | S754_zero _ => true
  | S754_infinity s | S754_finite s _ _ => negb s
  end.

Definition with_sign (s : bool) (f : spec_float) : spec_float :=
  match f with
  | S754_nan => S754_nan
  | S754_zero _ => S754_zero s
  | S754_infinity _ => S754_infinity s
  | S754_finite _ m e => S754_finite s m e
  end.

(** The scores that can arise, and those that arise for [k > 0]. *)
Definition sound (x : float) : Prop := not_nan (Prim2SF x) = true.
Definition nonneg (x : float) : Prop := nonneg_float (Prim2SF x) = true.

(** A non-negative real [x] is kept as the integer key
    [2 * floor (x * 2^1075) + (1 if x * 2^1075 is no integer, else 0)]:
    the bits of [x] down to half of the smallest step of binary64, and a
    last bit that tells whether anything is left below.  [half_unit e] is
    the key of [2^(e-1)], half a unit of a mantissa with exponent [e]. *)
Definition half_unit (e : Z) : Z := 2 ^ (e + 1075).

(** The record of [shr] holds the key [K] at exponent [e]: mantissa,
    round bit and sticky bit. *)
Definition located (K e : Z) (mrs : shr_record) : Prop :=
  shr_m mrs = K / (2 * half_unit e)
  /\ shr_r mrs = Z.odd (K / half_unit e)
  /\ shr_s mrs = negb (K mod half_unit e =? 0).

(** The exponent of the binary64 number that a key is rounded to. *)
Definition target_exponent (K : Z) : Z := fexp prec emax (Zdigits2 K - 1076).

(** The mantissa nearest to the key at exponent [e], ties to even. *)
Definition nearest_even (K e : Z) : Z :=
  let m := K / (2 * half_unit e) in
  if Z.odd (K / half_unit e)
  then if (K mod half_unit e =? 0) && Z.even m then m else m + 1
  else m.

(** The binary64 number nearest to the real with key [K]. *)
Definition round_key (K : Z) : spec_float :=
  let e := target_exponent K in
  match nearest_even K e with
  | Z0 => S754_zero false
  | Zpos m =>
      if Zpos m =? 2 ^ 53
      then if e + 1 <=? emax - prec
           then S754_finite false (2 ^ 52)%positive (e + 1)
           else S754_infinity false
      else if e <=? emax - prec then S754_finite false m e
           else S754_infinity false
  | Zneg _ => S754_nan
  end.

(** The key of a finite non-negative float. *)
Definition key_of (f : spec_float) : Z :=
  match f with
  | S754_finite false m e => Zpos m * (2 * half_unit e)
  | _ => 0
  end.

(** The key of [1 / n] for a positive [n], and the exponent at which
    [SFdiv] takes the quotient. *)
Definition reciprocal_key (n : Z) : Z :=
  2 * (2 ^ 1075 / n) + (if 2 ^ 1075 mod n =? 0 then 0 else 1).

Definition quotient_exponent (n : Z) : Z := Z.max (-52 - Zdigits2 n) (-1074).

(** The place of a float that is no NaN in the order of [SFcompare]: its
    class, then its exponent, then its mantissa. *)
Definition place (f : spec_float) : Z * (Z * Z) :=
  match f with
  | S754_nan => (0, (0, 0))
  | S754_zero _ => (0, (0, 0))
  | S754_infinity true => (-2, (0, 0))
  | S754_infinity false => (2, (0, 0))
  | S754_finite true m e => (-1, (- e, - Zpos m))
  | S754_finite false m e => (1, (e, Zpos m))
  end.

Definition place_lt (a b : Z * (Z * Z)) : Prop :=
  fst a < fst b
  \/ (fst a = fst b
      /\ (fst (snd a) < fst (snd b)
          \/ (fst (snd a) = fst (snd b) /\ snd (snd a) < snd (snd b)))).
End Binary64.

(** Documents that are their own text and serialisation. *)
Module TextDocument.
Definition document : Document string := {|
  dumps := fun doc => doc;
  loads := fun key => key;
  page_content := fun doc => doc
|}.
End TextDocument.

(** ** Effects of a run: console and chat model *)

Module Effects.

(** What a run does that can be observed from outside, in order. *)
Inductive event : Type :=
| Input (prompt : string)       (* [input(prompt)] *)
| Output (text : string)         (* [print(text)] *)
| Generate (prompt : string).   (* one call of the chat model *)

(** The lines waiting on standard input and the events so far. *)
Record world : Type := {
  stdin : list string;
  trace : list event
}.

Definition log (e : event) (w : world) : world :=
  {| stdin := stdin w; trace := trace w ++ [e] |}.

(** A computation returns or raises, and leaves a world either way. *)
Definition M (A : Type) : Type := world -> result A * world.

Definition ret {A} (a : A) : M A := fun w => (Ok a, w).

Definition raise {A} (e : exn) : M A := fun w => (Err e, w).

Definition bind {A B} (m : M A) (f : A -> M B) : M B :=
  fun w =>
    match m w with
    | (Ok a, w') => f a w'
    | (Err e, w') => (Err e, w')
    end.

(** A pure call that may raise. *)
Definition lift {A} (r : result A) : M A := fun w => (r, w).

(** [try: body  except C as e: handler(e)], [catches e] telling whether
    [e] is an instance of [C]. *)
Definition try_except {A} (catches : exn -> bool) (body : M A)
           (handler : exn -> M A) : M A :=
  fun w =>
    match body w with
    | (Ok a, w') => (Ok a, w')
    | (Err e, w') => if catches e then handler e w' else (Err e, w')
    end.

(** [except Exception] and [except ValueError]. *)
Definition any_Exception (e : exn) : bool := true.
Definition only_ValueError (e : exn) : bool := is_ValueError e.

(** [input(prompt)] reads one line. *)
Definition input (prompt : string) : M string :=
  fun w =>
    match stdin w with
    | [] => (Err (EOFError "EOF when reading a line"), log (Input prompt) w)
    | line :: rest =>
        (Ok line, {| stdin := rest; trace := trace w ++ [Input prompt] |})
    end.

(** [print(text)] *)
Definition print (text : string) : M unit :=
  fun w => (Ok tt, log (Output text) w).

(** The prompts handed to the chat model, in order. *)
Fixpoint prompts (t : list event) : list string :=
  match t with
  | [] => []
  | Generate p :: t' => p :: prompts t'
  | _ :: t' => prompts t'
  end.




(** Every exception that [m] raises satisfies [allowed]. *)
Definition raises_only {A} (allowed : exn -> bool) (m : M A) : Prop :=
  forall w e w', m w = (Err e, w') -> allowed e = true.

Declare Scope py_scope.
Delimit Scope py_scope with py.
Notation "x <- c ;; k" := (bind c (fun x => k))
  (at level 61, c at next level, right associativity) : py_scope.
End Effects.
Import Effects.
Local Open Scope py_scope.

(** A value bound to a variable of a prompt template. *)
Inductive value (Doc : Type) : Type :=
| Str (s : string)
| Docs (docs : list Doc).
Arguments Str {Doc} s.
Arguments Docs {Doc} docs.

(** LangChain and the services behind it: rendering a prompt template on
    its variables, the chat model followed by [StrOutputParser] (its reply
    may depend on the events so far), and the retriever. *)
Class Collaborators (Doc : Type) : Type := {
  format_prompt : string -> list (string * value Doc) -> result string;
  chat : list event -> string -> result string;
  retriever : string -> result (list Doc);
  (* [ChatOpenAI(temperature=0)], with [model_name] where one is given *)
  chat_open_ai : option string -> result unit
}.

Section Chains.
Context {Doc : Type} `{Collaborators Doc}.

(** One call of the chat model. *)
Definition generate (prompt : string) : M string :=
  fun w => (chat (trace w) prompt, log (Generate prompt) w).

(** [(template | llm | StrOutputParser()).invoke(variables)] *)
Definition invoke_chain (template : string)
           (variables : list (string * value Doc)) : M string :=
  prompt <- lift (format_prompt template variables) ;;
  generate prompt.

(** [retriever.map()] on a list of queries, in order. *)
Fixpoint retriever_map (queries : list string) : result (list (list Doc)) :=
  match queries with
  | [] => Ok []
  | query :: rest =>
      match retriever query with
      | Err e => Err e
      | Ok docs =>
          match retriever_map rest with
          | Err e => Err e
          | Ok results => Ok (docs :: results)
          end
      end
  end.
End Chains.

(** [template] has a slot [{name}]. *)
Fixpoint contains (needle s : string) : bool :=
  String.prefix needle s
  || match s with
     | EmptyString => false
     | String _ s' => contains needle s'
     end.

Definition has_slot (template name : string) : bool :=
  contains ("{" ++ name ++ "}") template.

(** ** [FusionRetrieval] *)

Module FusionRetrieval.
Section Pipeline.
Context {Doc : Type} `{Document Doc} `{Collaborators Doc}.
Context {score : Type} `{ScoreArith score}.

(** [self.k] *)
Variable k : Z.

Definition prompt_rag_fusion : string :=
  "You are a helpful assistant that generates multiple search queries based on a single input query. "
  ++ nl ++ nl
  ++ "Generate multiple search queries related to: {question} "
  ++ nl ++ nl ++ "Output (4 queries):".

Definition rag_template : string :=
  "Answer the following question based on this context:" ++ nl ++ nl
  ++ "{context}" ++ nl ++ nl ++ "Question: {question}" ++ nl
  ++ "            ".

(** [self.generate_queries]: the chain ends in [x.split("\n")]. *)
Definition generate_queries (question : string) : M (list string) :=
  x <- invoke_chain prompt_rag_fusion [("question", Str question)] ;;
  ret (split_lines x).

Definition retrieve_documents (question : string)
  : M (list (Doc * score)) :=
  if String.eqb question "" then raise (ValueError "Question cannot be empty")
  else
    try_except any_Exception
      (queries <- generate_queries question ;;
       results <- lift (retriever_map queries) ;;
       docs <- lift (reciprocal_rank_fusion results k) ;;
       match docs with
       | [] => raise (ValueError "No documents retrieved for the given question.")
       | _ :: _ => ret docs
       end)
      (fun e => raise (ValueError ("Failed to retrieve documents: " ++ str_exn e))).

(** [FusionRetrieval(retriever)]: the check of the retriever, then
    [ChatOpenAI(temperature=0)]; the templates and the chain of
    [generate_queries] are built from constants. *)
Definition init (retriever : option (string -> result (list Doc)))
  : result unit :=
  match retriever with
  | None => Err (ValueError "Retriever cannot be None")
  | Some _ => chat_open_ai None
  end.

(** [coerce_to_runnable] of langchain_core on a [str], which is neither
    a [Runnable], nor a callable, nor a [dict]: it raises, in these
    words. *)
Definition coerce_to_runnable {A : Type} (thing : string) : result A :=
  Err (TypeError "Expected a Runnable, callable or dict.Instead got an unsupported type: <class 'str'>").

(** The final chain begins with the [dict] of the two strings [context]
    and [question]; [dict | rag_template] makes a [RunnableParallel] of
    it, which coerces its values to runnables, [context] first.  That
    raises, so the chain is not built and nothing is invoked. *)
Definition answer_question (question : string) (docs : list (Doc * score))
  : M string :=
  match docs with
  | [] => raise (ValueError "No documents retrieved to generate an answer")
  | _ :: _ =>
      try_except any_Exception
        (let context := join nl (map (fun entry => page_content (fst entry)) docs) in
         lift (coerce_to_runnable context))
        (fun e => raise (ValueError ("Failed to generate answer: " ++ str_exn e)))
  end.

(** [run(self)]: no parameter besides [self], no [return]. *)
Definition run : M unit :=
  question <- input "Please enter your question: " ;;
  try_except only_ValueError
    (docs <- retrieve_documents question ;;
     answer <- answer_question question docs ;;
     print ("Answer: " ++ answer))
    (fun e => print ("Error: " ++ str_exn e)).

(** The call [FusionRetrieval.run(self, *args)]: the signature takes no
    positional argument besides [self]. *)
Definition call_run (args : list string) : M unit :=
  match args with
  | [] => run
  | _ :: _ =>
      raise (TypeError
               ("FusionRetrieval.run() takes 1 positional argument but "
                ++ str_of_nat (S (List.length args)) ++ " were given"))
  end.
End Pipeline.
End FusionRetrieval.

(** ** [DecompositionRetrieval] *)

Module DecompositionRetrieval.

(** [for i, (question, answer) in enumerate(pairs, start=i)] on the
    accumulator [formatted_string]. *)
Fixpoint format_loop (i : nat) (pairs : list (string * string))
         (formatted_string : string) : string :=
  match pairs with
  | [] => formatted_string
  | (question, answer) :: rest =>
      format_loop (S i) rest
        (formatted_string
         ++ ("Question " ++ str_of_nat i ++ ": " ++ question ++ nl
             ++ "Answer " ++ str_of_nat i ++ ": " ++ answer ++ nl ++ nl))
  end.

(** [format_qa_pairs]: [zip] is [combine]; nothing in the [try] block
    raises on lists of [str]. *)
Definition format_qa_pairs (questions answers : list string) : result string :=
  Ok (strip (format_loop 1 (combine questions answers) "")).

(** [format_qa_pair] (static method) *)
Definition format_qa_pair (question answer : string) : string :=
  strip ("Question: " ++ question ++ nl ++ "Answer: " ++ answer ++ nl ++ nl).

(** *** The context in the words of the specification *)

(** The block ["Question i: q\nAnswer i: a\n\n"]. *)
Definition qa_block (i : nat) (question answer : string) : string :=
  "Question " ++ str_of_nat i ++ ": " ++ question ++ nl
  ++ "Answer " ++ str_of_nat i ++ ": " ++ answer ++ nl ++ nl.

(** The blocks of the pairs, numbered from [i], one after the other. *)
Fixpoint blocks (i : nat) (pairs : list (string * string)) : string :=
  match pairs with
  | [] => ""
  | (question, answer) :: rest =>
      qa_block i question answer ++ blocks (S i) rest
  end.

(** The context in the words of the specification, before trimming: for
    [i] from 1 to the number of questions, the block of the [i]-th
    question and the [i]-th answer. *)
Definition numbered_blocks (questions answers : list string) : string :=
  join ""
       (map (fun j => qa_block (S j) (nth j questions "") (nth j answers ""))
            (seq 0 (List.length questions))).

(** Three blocks up to and including the third question line. *)
Definition three_blocks_head (q1 q2 q3 a1 a2 : string) : string :=
  "Question 1: " ++ q1 ++ nl ++ "Answer 1: " ++ a1 ++ nl ++ nl
  ++ "Question 2: " ++ q2 ++ nl ++ "Answer 2: " ++ a2 ++ nl ++ nl
  ++ "Question 3: " ++ q3 ++ nl.

Section Pipeline.
Context {Doc : Type} `{Collaborators Doc}.

Definition prompt_decomposition : string :=
  "You are a helpful assistant that generates multiple sub-questions related to an input question. "
  ++ nl ++ nl
  ++ "The goal is to break down the input into a set of sub-problems / sub-questions that can be answers in isolation. "
  ++ nl ++ nl
  ++ "Generate multiple search queries related to: {question} "
  ++ nl ++ nl ++ "Output (3 queries):".

Definition decomposition_prompt : string :=
  "Here is the question you need to answer:" ++ nl ++ nl ++ nl
  ++ " --- " ++ nl ++ " {question} " ++ nl ++ " --- " ++ nl ++ nl ++ nl
  ++ "Here is any available background question + answer pairs:"
  ++ nl ++ nl ++ nl
  ++ " --- " ++ nl ++ " {q_a_pairs} " ++ nl ++ " --- " ++ nl ++ nl ++ nl
  ++ "Here is additional context relevant to the question: "
  ++ nl ++ nl ++ nl
  ++ " --- " ++ nl ++ " {context} " ++ nl ++ " --- " ++ nl ++ nl ++ nl
  ++ "Use the above context and any background question + answer pairs to answer the question: "
  ++ nl ++ " {question}" ++ nl ++ "            ".

Definition final_prompt : string :=
  "Here is a set of Q+A pairs:" ++ nl ++ nl ++ "{context}" ++ nl ++ nl
  ++ "Use these to synthesize an answer to the question: {question}" ++ nl
  ++ "                ".

(** [DecompositionRetrieval(retriever)]: the check of the retriever, then
    [ChatOpenAI(model_name="gpt-3.5-turbo", temperature=0)]. *)
Definition init (retriever : option (string -> result (list Doc)))
  : result unit :=
  match retriever with
  | None => Err (ValueError "Retriever cannot be None")
  | Some _ => chat_open_ai (Some "gpt-3.5-turbo")
  end.

(** [self.generate_queries_decomposition] *)
Definition generate_queries_decomposition (question : string)
  : M (list string) :=
  x <- invoke_chain prompt_decomposition [("question", Str question)] ;;
  ret (split_lines x).

(** The variables handed to [decomposition_prompt] for one sub-question. *)
Definition sub_question_variables (retrieved_docs : list Doc)
           (sub_question : string) : list (string * value Doc) :=
  [("context", Docs retrieved_docs); ("question", Str sub_question)].

(** [for sub_question in sub_questions], on the list [rag_results]. *)
Fixpoint answer_loop (sub_questions : list string) (rag_results : list string)
  : M (list string) :=
  match sub_questions with
  | [] => ret rag_results
  | sub_question :: rest =>
      retrieved_docs <- lift (retriever sub_question) ;;
      answer <- invoke_chain decomposition_prompt
                  (sub_question_variables retrieved_docs sub_question) ;;
      answer_loop rest (rag_results ++ [answer])
  end.

Definition retrieve_and_rag (question : string)
           (sub_question_generator_chain : string -> M (list string))
  : M (list string * list string) :=
  if String.eqb question "" then raise (ValueError "Question cannot be empty")
  else
    try_except any_Exception
      (sub_questions <- sub_question_generator_chain question ;;
       rag_results <- answer_loop sub_questions [] ;;
       ret (rag_results, sub_questions))
      (fun e =>
         raise (ValueError
                  ("Failed to retrieve and RAG sub-questions: " ++ str_exn e))).

(** [run(self)] *)
Definition run : M unit :=
  question <- input "Please enter your question: " ;;
  try_except only_ValueError
    (r <- retrieve_and_rag question generate_queries_decomposition ;;
     let answers := fst r in
     let sub_questions := snd r in
     context <- lift (format_qa_pairs sub_questions answers) ;;
     final_answer <- invoke_chain final_prompt
                       [("context", Str context); ("question", Str question)] ;;
     print ("Final Answer: " ++ final_answer))
    (fun e => print ("Error: " ++ str_exn e)).

(** The call [DecompositionRetrieval.run(self, *args)]. *)
Definition call_run (args : list string) : M unit :=
  match args with
  | [] => run
  | _ :: _ =>
      raise (TypeError
               ("DecompositionRetrieval.run() takes 1 positional argument but "
                ++ str_of_nat (S (List.length args)) ++ " were given"))
  end.

(** The prompts of the loop over [sub_questions] as far as retrieval and
    rendering succeed: a function of the sub-questions, the retriever
    and the template alone. *)
Fixpoint loop_prompts (sub_questions : list string) : list string :=
  match sub_questions with
  | [] => []
  | sub_question :: rest =>
      match retriever sub_question with
      | Err _ => []
      | Ok retrieved_docs =>
          match format_prompt decomposition_prompt
                  (sub_question_variables retrieved_docs sub_question) with
          | Err _ => []
          | Ok prompt => prompt :: loop_prompts rest
          end
      end
  end.
End Pipeline.
End DecompositionRetrieval.

(** ** [RAGMethodCaller] *)

Module RAGMethodCaller.
Section Dispatcher.
Context {Doc : Type} `{Document Doc} `{Collaborators Doc}.
Context {score : Type} `{ScoreArith score}.

(** [MultiQueryRetrieval(self.retriever).run()], of
    [models/multi_query.py], which this development does not cover. *)
Variable multi_query_run : M unit.

(** The constructors [FusionRetrieval(self.retriever)] and
    [DecompositionRetrieval(self.retriever)] are called inside the [try]
    blocks, with the retriever that [RAGMethodCaller.__init__] has
    checked and with the default [k]. *)
Definition call_method (method_name : string) : M unit :=
  if String.eqb (lower method_name) "multi_query" then
    try_except only_ValueError multi_query_run
      (fun e => print ("Error in MultiQueryRetrieval: " ++ str_exn e))
  else if String.eqb (lower method_name) "fusion" then
    try_except only_ValueError
      (_ <- lift (FusionRetrieval.init (Some retriever)) ;;
       FusionRetrieval.run default_k)
      (fun e => print ("Error in FusionRetrieval: " ++ str_exn e))
  else if String.eqb (lower method_name) "decomposition" then
    try_except only_ValueError
      (_ <- lift (DecompositionRetrieval.init (Some retriever)) ;;
       DecompositionRetrieval.run)
      (fun e => print ("Error in DecompositionRetrieval: " ++ str_exn e))
  else
    print "Invalid method name provided. Please choose from 'multi_query', 'fusion', or 'decomposition'.".

(** The call [RAGMethodCaller.call_method(self, *args)]: the signature takes
    [method_name] and nothing else besides [self]. *)
Definition call (args : list string) : M unit :=
  match args with
  | [] =>
      raise (TypeError
               "RAGMethodCaller.call_method() missing 1 required positional argument: 'method_name'")
  | [method_name] => call_method method_name
  | _ :: _ :: _ =>
      raise (TypeError
               ("RAGMethodCaller.call_method() takes 2 positional arguments but "
                ++ str_of_nat (S (List.length args)) ++ " were given"))
  end.
End Dispatcher.

(** [RAGMethodCaller.__init__]: [None] is the only retriever that is not
    true. *)
Definition init {R : Type} (retriever : option R) : result R :=
  match retriever with
  | None => Err (ValueError "Retriever cannot be None")
  | Some r => Ok r
  end.

(** [c] is the letter [n] in either case; [n] is a character of a
    strategy name: a small letter [a]-[z] or the underscore. *)
Definition same_letter (c n : ascii) : Prop :=
  c = n
  \/ (97 <= nat_of_ascii n <= 122 /\ nat_of_ascii c + 32 = nat_of_ascii n).

(** A character of a strategy name, and a name made of such. *)
Definition name_char (n : ascii) : bool :=
  (((97 <=? nat_of_ascii n) && (nat_of_ascii n <=? 122))
   || (nat_of_ascii n =? 95))%nat.

Fixpoint plain_name (name : string) : bool :=
  match name with
  | EmptyString => true
  | String n name' => name_char n && plain_name name'
  end.

(** [s] is [name] up to the case of its letters. *)
Fixpoint capitalization_of (name s : string) : Prop :=
  match name, s with
  | EmptyString, EmptyString => True
  | String n name', String c s' => same_letter c n /\ capitalization_of name' s'
  | _, _ => False
  end.
End RAGMethodCaller.

(** ** [Config] *)

Module Config.
(** [os.environ]: the variables of the process. *)
Definition environ : Type := dict string.

Record t : Type := {
  langchain_api_key : string;
  openai_api_key : string
}.

(** A value with a NUL character cannot go into the environment. *)
Fixpoint has_nul (s : string) : bool :=
  match s with
  | EmptyString => false
  | String c s' => (nat_of_ascii c =? 0)%nat || has_nul s'
  end.

(** [os.environ[name] = value] *)
Definition setenv (name value : string) (env : environ) : result environ :=
  if has_nul value then Err (ValueError "embedded null byte")
  else Ok (dict_set name value env).

(** [setup_environment]: four assignments, in this order. *)
Definition setup_environment (self : t) (env : environ) : result unit * environ :=
  match setenv "LANGCHAIN_TRACING_V2" "true" env with
  | Err e => (Err e, env)
  | Ok env1 =>
      match setenv "LANGCHAIN_ENDPOINT" "https://api.smith.langchain.com" env1 with
      | Err e => (Err e, env1)
      | Ok env2 =>
          match setenv "LANGCHAIN_API_KEY" (langchain_api_key self) env2 with
          | Err e => (Err e, env2)
          | Ok env3 =>
              match setenv "OPENAI_API_KEY" (openai_api_key self) env3 with
              | Err e => (Err e, env3)
              | Ok env4 => (Ok tt, env4)
              end
          end
      end
  end.

(** [Config(langchain_api_key, openai_api_key)] *)
Definition init (langchain_api_key openai_api_key : string) (env : environ)
  : result t * environ :=
  let self := {| langchain_api_key := langchain_api_key;
                 openai_api_key := openai_api_key |} in
  match setup_environment self env with
  | (Ok _, env') => (Ok self, env')
  | (Err e, env') => (Err e, env')
  end.

(** [bool(config)]: the class defines neither [__bool__] nor [__len__]. *)
Definition truth (self : t) : bool := true.
End Config.

(** ** [DocumentProcessor] *)

Module DocumentProcessor.
(** The libraries behind the processor: [WebBaseLoader(...).load()] on a
    url and the classes to parse, the token splitter on a chunk size and
    an overlap, [Chroma.from_documents] and [as_retriever]. *)
Class Services (Doc VS R : Type) : Type := {
  web_load : string -> list string -> result (list Doc);
  split_text : Z -> Z -> list Doc -> result (list Doc);
  chroma_from_documents : list Doc -> result VS;
  as_retriever : VS -> R
}.

Section Processor.
Context {Doc VS R : Type} `{Services Doc VS R}.

(** The attributes of a processor; [None] is [None]. *)
Record t : Type := {
  url : string;
  chunk_size : Z;
  chunk_overlap : Z;
  parse_classes : list string;
  documents : option (list Doc);
  splits : option (list Doc);
  vectorstore : option VS;
  retriever : option R
}.

(** [DocumentProcessor(url, chunk_size, chunk_overlap, parse_classes)] *)
Definition init (url : string) (chunk_size chunk_overlap : Z)
           (parse_classes : list string) : t :=
  {| url := url; chunk_size := chunk_size; chunk_overlap := chunk_overlap;
     parse_classes := parse_classes;
     documents := None; splits := None; vectorstore := None;
     retriever := None |}.

(** [DocumentProcessor(url)] with the defaults of the signature. *)
Definition new (url : string) : t :=
  init url 300 50 ["post-content"; "post-title"; "post-header"].

Definition load_documents (self : t) : result unit * t :=
  match web_load (url self) (parse_classes self) with
  | Err e => (Err e, self)
  | Ok docs =>
      (Ok tt,
       {| url := url self; chunk_size := chunk_size self;
          chunk_overlap := chunk_overlap self;
          parse_classes := parse_classes self;
          documents := Some docs; splits := splits self;
          vectorstore := vectorstore self; retriever := retriever self |})
  end.

(** [not self.documents] holds of [None] and of the empty list. *)
Definition split_documents (self : t) : result unit * t :=
  match documents self with
  | None | Some [] =>
      (Err (ValueError "Documents not loaded. Call load_documents() first."),
       self)
  | Some (doc :: docs) =>
      match split_text (chunk_size self) (chunk_overlap self) (doc :: docs) with
      | Err e => (Err e, self)
      | Ok chunks =>
          (Ok tt,
           {| url := url self; chunk_size := chunk_size self;
              chunk_overlap := chunk_overlap self;
              parse_classes := parse_classes self;
              documents := documents self; splits := Some chunks;
              vectorstore := vectorstore self; retriever := retriever self |})
      end
  end.

Definition index_documents (self : t) : result unit * t :=
  match splits self with
  | None | Some [] =>
      (Err (ValueError "Documents not split. Call split_documents() first."),
       self)
  | Some (chunk :: chunks) =>
      match chroma_from_documents (chunk :: chunks) with
      | Err e => (Err e, self)
      | Ok store =>
          (Ok tt,
           {| url := url self; chunk_size := chunk_size self;
              chunk_overlap := chunk_overlap self;
              parse_classes := parse_classes self;
              documents := documents self; splits := splits self;
              vectorstore := Some store;
              retriever := Some (as_retriever store) |})
      end
  end.

Definition process (self : t) : result unit * t :=
  match load_documents self with
  | (Err e, self) => (Err e, self)
  | (Ok _, self) =>
      match split_documents self with
      | (Err e, self) => (Err e, self)
      | (Ok _, self) => index_documents self
      end
  end.

(** [not self.retriever] holds of [None] only. *)
Definition get_retriever (self : t) : result R :=
  match retriever self with
  | None => Err (ValueError "Documents not indexed. Call process() first.")
  | Some r => Ok r
  end.

(** The methods that change a processor, and a processor after a
    sequence of calls, each caught if it raises. *)
Inductive method : Type :=
| LoadDocuments
| SplitDocuments
| IndexDocuments
| Process.

Definition perform (m : method) (self : t) : result unit * t :=
  match m with
  | LoadDocuments => load_documents self
  | SplitDocuments => split_documents self
  | IndexDocuments => index_documents self
  | Process => process self
  end.

Definition after (calls : list method) (self : t) : t :=
  fold_left (fun self m => snd (perform m self)) calls self.

(** Where the attributes of a processor come from: the documents from
    the loader, the chunks from the splitter on loaded documents, the
    store from the chunks, the retriever from the store. *)
Definition loaded (self : t) (docs : list Doc) : Prop :=
  web_load (url self) (parse_classes self) = Ok docs.

Definition chunked (self : t) (chunks : list Doc) : Prop :=
  exists docs,
    loaded self docs /\ docs <> []
    /\ split_text (chunk_size self) (chunk_overlap self) docs = Ok chunks.

Definition indexed (self : t) (store : VS) : Prop :=
  exists chunks,
    chunked self chunks /\ chunks <> []
    /\ chroma_from_documents chunks = Ok store.

Definition provenance (self : t) : Prop :=
  (forall docs, documents self = Some docs -> loaded self docs)
  /\ (forall chunks, splits self = Some chunks -> chunked self chunks)
  /\ (forall store, vectorstore self = Some store -> indexed self store)
  /\ retriever self = option_map as_retriever (vectorstore self).

(** Two processors with the same settings. *)
Definition same_settings (self self' : t) : Prop :=
  url self' = url self /\ chunk_size self' = chunk_size self
  /\ chunk_overlap self' = chunk_overlap self
  /\ parse_classes self' = parse_classes self.
End Processor.
End DocumentProcessor.

(** ** [main] *)

Module Main.
Section Program.
Context {Doc VS : Type} `{Document Doc} {score : Type} `{ScoreArith score}.
Context `{DocumentProcessor.Services Doc VS (string -> result (list Doc))}.

(** The template renderer, the chat model of the pipelines and its
    constructor, and the multi-query pipeline on a retriever. *)
Variable format : string -> list (string * value Doc) -> result string.
Variable chat_model : list event -> string -> result string.
Variable new_chat_model : option string -> result unit.
Variable multi_query_run : (string -> result (list Doc)) -> M unit.

Definition collaborators (r : string -> result (list Doc)) : Collaborators Doc :=
  {| format_prompt := format; chat := chat_model; retriever := r;
     chat_open_ai := new_chat_model |}.

(** [main()] on the variables of the process and the console. *)
Definition main (env : Config.environ) (w : world)
  : result unit * (Config.environ * world) :=
  match Config.init "your_langchain_api_key_here" "your_openai_api_key_here" env with
  | (Err e, env) => (Err e, (env, w))
  | (Ok config, env) =>
      if negb (Config.truth config)
      then (Err (ValueError "Please set the API_KEY environment variable."),
            (env, w))
      else
        let url := "https://lilianweng.github.io/posts/2023-06-23-agent/" in
        match DocumentProcessor.process (DocumentProcessor.new url) with
        | (Err e, _) => (Err e, (env, w))
        | (Ok _, document_processor) =>
            match DocumentProcessor.get_retriever document_processor with
            | Err e => (Err e, (env, w))
            | Ok retriever =>
                match RAGMethodCaller.init (Some retriever) with
                | Err e => (Err e, (env, w))
                | Ok r =>
                    let method_name := "multi_query" in
                    match input "Please enter your query: " w with
                    | (Err e, w) => (Err e, (env, w))
                    | (Ok query, w) =>
                        let out :=
                          RAGMethodCaller.call
                            (H0 := collaborators r) (multi_query_run r)
                            [method_name; query] w in
                        (fst out, (env, snd out))
                    end
                end
            end
        end
  end.
End Program.
End Main.

(** ** Stand-ins for the collaborators, to compute with *)

Module Stubs.
(** A prompt is rendered as the values of its variables, one per line. *)
Definition render_value (v : value string) : string :=
  match v with
  | Str s => s
  | Docs docs => join nl docs
  end.

Definition render (template : string) (variables : list (string * value string))
  : result string :=
  Ok (join nl (map (fun binding => render_value (snd binding)) variables)).

(** The chat model replies with two lines; the retriever finds the query
    itself as the only document. *)
Definition found : Collaborators string := {|
  format_prompt := render;
  chat := fun _ _ => Ok ("first" ++ nl ++ "second")%string;
  retriever := fun query => Ok [query];
  chat_open_ai := fun _ => Ok tt
|}.

(** The same with a retriever that finds nothing. *)
Definition nothing_found : Collaborators string := {|
  format_prompt := render;
  chat := fun _ _ => Ok ("first" ++ nl ++ "second")%string;
  retriever := fun _ => Ok [];
  chat_open_ai := fun _ => Ok tt
|}.

(** The same with a retriever that cannot be reached. *)
Definition unreachable : Collaborators string := {|
  format_prompt := render;
  chat := fun _ _ => Ok ("first" ++ nl ++ "second")%string;
  retriever := fun _ => Err (OtherError "connection refused");
  chat_open_ai := fun _ => Ok tt
|}.

(** The same as [found] with a chat model that gives up at its fourth
    call. *)
Definition exhausted : Collaborators string := {|
  format_prompt := render;
  chat := fun t _ =>
            if (3 <=? List.length (prompts t))%nat
            then Err (OtherError "rate limit reached")
            else Ok ("first" ++ nl ++ "second")%string;
  retriever := fun query => Ok [query];
  chat_open_ai := fun _ => Ok tt
|}.


(** A loader that finds the url as the only document, a splitter that
    keeps the documents whole, a store that is the list of its chunks and
    a retriever that returns them all. *)
Definition services
  : DocumentProcessor.Services string (list string)
                               (string -> result (list string)) := {|
  DocumentProcessor.web_load := fun url _ => Ok [url];
  DocumentProcessor.split_text := fun _ _ docs => Ok docs;
  DocumentProcessor.chroma_from_documents := fun chunks => Ok chunks;
  DocumentProcessor.as_retriever := fun store _ => Ok store
|}.

(** A console with the given lines typed in. *)
Definition typed (lines : list string) : world :=
  {| stdin := lines; trace := [] |}.
End Stubs.

(** * Properties *)

(** ** Facts about [dict] *)

Section DictFacts.
Context {V : Type}.
Implicit Types (d : dict V) (key : string).

Lemma dict_mem_In key d : dict_mem key d = true <-> In key (map fst d).
Proof.
  induction d as [|[k v] d IH]; simpl.
  - split; [discriminate | tauto].
  - destruct (String.eqb_spec key k) as [->|Hne].
    + tauto.
    + rewrite IH. split; [tauto | intros [E|E]; [congruence | exact E]].
Qed.

Lemma dict_get_set_same key v d : dict_get key (dict_set key v d) = Ok v.
Proof.
  induction d as [|[k w] d IH]; simpl.
  - now rewrite String.eqb_refl.
  - destruct (String.eqb_spec key k) as [->|Hne]; simpl.
    + now rewrite String.eqb_refl.
    + destruct (String.eqb_spec key k); [contradiction | exact IH].
Qed.

Lemma dict_get_set_other key key' v d :
  key' <> key -> dict_get key' (dict_set key v d) = dict_get key' d.
Proof.
  intros Hne. induction d as [|[k w] d IH]; simpl.
  - destruct (String.eqb_spec key' key); [contradiction | reflexivity].
  - destruct (String.eqb_spec key k) as [->|Hk]; simpl.
    + destruct (String.eqb_spec key' k); [contradiction | reflexivity].
    + now rewrite IH.
Qed.

Lemma dict_get_mem key d :
  dict_mem key d = true -> exists v, dict_get key d = Ok v.
Proof.
  induction d as [|[k w] d IH]; simpl; [discriminate|].
  destruct (String.eqb key k); eauto.
Qed.

Lemma dict_In_get key v d :
  NoDup (map fst d) -> In (key, v) d -> dict_get key d = Ok v.
Proof.
  induction d as [|[k w] d IH]; simpl; [tauto|].
  intros Hnd [E|Hin]; inversion Hnd as [|? ? Hnotin Hnd']; subst.
  - injection E as -> ->. now rewrite String.eqb_refl.
  - destruct (String.eqb_spec key k) as [->|Hne]; [|now apply IH].
    exfalso. apply Hnotin. change k with (fst (k, v)). now apply in_map.
Qed.

Lemma dict_set_keys key v d :
  map fst (dict_set key v d)
  = if dict_mem key d then map fst d else map fst d ++ [key].
Proof.
  induction d as [|[k w] d IH]; simpl; [reflexivity|].
  destruct (String.eqb_spec key k) as [->|Hne]; simpl; [reflexivity|].
  rewrite IH. now destruct (dict_mem key d).
Qed.
End DictFacts.

(** ** Order of occurrence in a list *)

Section Before.
Context {A : Type}.
Implicit Types (a b x : A) (l : list A).

Lemma before_split a b l :
  before a b l <-> exists l1 l2 l3, l = l1 ++ a :: l2 ++ b :: l3.
Proof.
  induction l as [|x l IH]; simpl.
  - split; [tauto|]. intros (l1 & l2 & l3 & E). now destruct l1.
  - rewrite IH. split.
    + intros [[-> Hin]|(l1 & l2 & l3 & ->)].
      * apply in_split in Hin. destruct Hin as (l2 & l3 & ->).
        now exists [], l2, l3.
      * now exists (x :: l1), l2, l3.
    + intros (l1 & l2 & l3 & E). destruct l1 as [|y l1]; simpl in E.
      * injection E as -> ->. left. split; [reflexivity|].
        apply in_or_app. right. now left.
      * injection E as -> ->. right. now exists l1, l2, l3.
Qed.

Lemma before_In a b l : before a b l -> In a l /\ In b l.
Proof.
  induction l as [|x l IH]; simpl; [tauto|].
  intros [[-> Hin]|Hb]; [tauto|]. apply IH in Hb. tauto.
Qed.

Lemma before_app a b l1 l2 :
  before a b (l1 ++ l2)
  <-> before a b l1 \/ before a b l2 \/ (In a l1 /\ In b l2).
Proof.
  induction l1 as [|x l1 IH]; simpl.
  - tauto.
  - rewrite IH, in_app_iff. split.
    + intros [[-> [Hin|Hin]]|[Hb|[Hb|[Ha Hb]]]]; tauto.
    + intros [[[-> Hin]|Hb]|[Hb|[[->|Ha] Hb]]]; tauto.
Qed.

Lemma before_rev a b l : before a b (rev l) <-> before b a l.
Proof.
  induction l as [|x l IH]; simpl; [tauto|].
  rewrite before_app, IH, <- in_rev. simpl. split.
  - intros [Hb|[[[_ []]|[]]|[Ha [->|[]]]]]; tauto.
  - intros [[-> Hin]|Hb]; tauto.
Qed.

Lemma before_NoDup_neq a b l : NoDup l -> before a b l -> a <> b.
Proof.
  induction l as [|x l IH]; simpl; [tauto|].
  intros Hnd [[-> Hin]|Hb]; inversion Hnd; subst.
  - intros ->. contradiction.
  - now apply IH.
Qed.

Lemma before_NoDup_asym a b l : NoDup l -> before a b l -> ~ before b a l.
Proof.
  induction l as [|x l IH]; simpl; [tauto|].
  intros Hnd Hab [[-> Hin]|Hba]; inversion Hnd as [|? ? Hx Hnd']; subst.
  - destruct Hab as [[-> Hin']|Hab]; [contradiction|].
    apply before_In in Hab. tauto.
  - destruct Hab as [[-> Hin']|Hab].
    + apply before_In in Hba. tauto.
    + now apply (IH Hnd' Hab).
Qed.

Lemma before_total a b l : In a l -> In b l -> a <> b ->
                           before a b l \/ before b a l.
Proof.
  induction l as [|x l IH]; simpl; [tauto|].
  intros [->|Ha] [->|Hb] Hne; tauto.
Qed.

Lemma before_Permutation_In a b l l' :
  Permutation l l' -> before a b l -> In a l' /\ In b l'.
Proof.
  intros Hp Hb. apply before_In in Hb.
  split; eapply Permutation_in; try exact Hp; tauto.
Qed.

Lemma StronglySorted_before (R : A -> A -> Prop) l :
  StronglySorted R l <-> forall a b, before a b l -> R a b.
Proof.
  induction l as [|x l IH]; simpl.
  - split; [tauto | constructor].
  - split.
    + intros Hs a b. inversion Hs as [|? ? Hs' Hall]; subst.
      intros [[-> Hin]|Hb].
      * rewrite Forall_forall in Hall. now apply Hall.
      * now apply IH.
    + intros Hall. constructor.
      * apply IH. intros a b Hb. apply Hall. now right.
      * apply Forall_forall. intros b Hin. apply Hall. now left.
Qed.
End Before.

Lemma before_map {A B : Type} (f : A -> B) (a b : A) (l : list A) :
  before a b l -> before (f a) (f b) (map f l).
Proof.
  induction l as [|x l IH]; simpl; [tauto|].
  intros [[-> Hin]|Hb]; [left | right; now apply IH].
  split; [reflexivity | now apply in_map].
Qed.

Lemma before_map_inv {A B : Type} (f : A -> B) (u v : B) (l : list A) :
  before u v (map f l) ->
  exists a b, u = f a /\ v = f b /\ before a b l.
Proof.
  induction l as [|x l IH]; simpl; [tauto|].
  intros [[<- Hin]|Hb].
  - apply in_map_iff in Hin. destruct Hin as (b & <- & Hin).
    exists x, b. tauto.
  - destruct (IH Hb) as (a & b & -> & -> & Hab). exists a, b. tauto.
Qed.

(** ** Order of first occurrence *)

Section FirstSeen.
Implicit Types (seen l : list string) (a b key : string).

Lemma seen_before_In a seen : seen_before a seen = true <-> In a seen.
Proof.
  unfold seen_before. rewrite existsb_exists. split.
  - intros (x & Hin & E). apply String.eqb_eq in E. now subst.
  - intros Hin. exists a. split; [exact Hin | apply String.eqb_refl].
Qed.

(** Two keys in this order in [first_seen seen l] are in this order in
    [seen], or the second is new, or both are new and the first occurs in
    [l] ahead of every occurrence of the second. *)
Lemma first_seen_before a b l : forall seen,
    before a b (first_seen seen l) ->
    before a b seen
    \/ (In a seen /\ ~ In b seen /\ In b l)
    \/ (~ In a seen /\ ~ In b seen
        /\ exists pre post,
            l = pre ++ a :: post
            /\ ~ In a pre /\ ~ In b pre /\ In b post).
Proof.
  induction l as [|x l IH]; intros seen; simpl; [tauto|].
  intros Hb. apply IH in Hb. clear IH.
  destruct (seen_before x seen) eqn:Ex.
  - apply seen_before_In in Ex.
    destruct Hb as [Hb|[(Ha & Hnb & Hin)|(Hna & Hnb & pre & post & -> & Hpa & Hpb & Hpost)]].
    + now left.
    + right. left. tauto.
    + right. right. repeat split; try assumption.
      exists (x :: pre), post. simpl. repeat split; try assumption.
      * intros [->|Hin]; tauto.
      * intros [->|Hin]; tauto.
  - assert (Hx : ~ In x seen).
    { intros Hin. apply seen_before_In in Hin. congruence. }
    destruct Hb as [Hb|[(Ha & Hnb & Hin)|(Hna & Hnb & pre & post & -> & Hpa & Hpb & Hpost)]].
    + apply before_app in Hb. simpl in Hb.
      destruct Hb as [Hb|[[[_ []]|[]]|[Ha [<-|[]]]]]; [now left|].
      right. left. repeat split; tauto.
    + rewrite in_app_iff in Ha, Hnb. simpl in Ha, Hnb.
      destruct Ha as [Ha|[<-|[]]].
      * right. left. tauto.
      * right. right. repeat split; try tauto.
        exists [], l. simpl. tauto.
    + rewrite in_app_iff in Hna, Hnb. simpl in Hna, Hnb.
      right. right. repeat split; try tauto.
      exists (x :: pre), post. simpl. repeat split; try assumption.
      * intros [->|Hin]; tauto.
      * intros [->|Hin]; tauto.
Qed.

Lemma first_seen_app (seen l1 l2 : list string) :
  first_seen seen (l1 ++ l2) = first_seen (first_seen seen l1) l2.
Proof.
  revert seen. induction l1 as [|x l1 IH]; intros seen; simpl;
    [reflexivity | apply IH].
Qed.

Lemma first_seen_NoDup (l seen : list string) :
  NoDup seen -> NoDup (first_seen seen l).
Proof.
  revert seen. induction l as [|x l IH]; intros seen Hnd; simpl; [exact Hnd|].
  apply IH. destruct (seen_before x seen) eqn:E; [exact Hnd|].
  apply NoDup_rev in Hnd. rewrite <- (rev_involutive (seen ++ [x])).
  apply NoDup_rev. rewrite rev_app_distr. simpl. constructor; [|exact Hnd].
  rewrite <- in_rev. intros Hin. apply seen_before_In in Hin. congruence.
Qed.

Lemma first_seen_In (l seen : list string) key :
  In key (first_seen seen l) <-> In key seen \/ In key l.
Proof.
  revert seen. induction l as [|x l IH]; intros seen; simpl; [tauto|].
  rewrite IH. destruct (seen_before x seen) eqn:E.
  - apply seen_before_In in E. split; [tauto|].
    intros [Hs|[->|Hl]]; tauto.
  - rewrite in_app_iff. simpl. split; [tauto|].
    intros [Hs|[->|Hl]]; tauto.
Qed.
End FirstSeen.

(** ** The fusion loops *)

Section FusionLoops.
Context {Doc : Type} `{Document Doc} {score : Type} `{ScoreArith score}.
Implicit Types (d fused : dict score) (key : string) (docs : list Doc).

Lemma seen_before_keys key d : seen_before key (map fst d) = dict_mem key d.
Proof.
  unfold seen_before.
  induction d as [|[k v] d IH]; simpl; [reflexivity|].
  rewrite IH. now destruct (String.eqb key k).
Qed.

Lemma score_of_set_same key s d : score_of key (dict_set key s d) = s.
Proof. unfold score_of. now rewrite dict_get_set_same. Qed.

Lemma score_of_set_other key key' s d :
  key' <> key -> score_of key' (dict_set key s d) = score_of key' d.
Proof. intros Hne. unfold score_of. now rewrite dict_get_set_other. Qed.

Lemma score_of_absent key d : dict_mem key d = false -> score_of key d = zero.
Proof.
  unfold score_of. induction d as [|[k v] d IH]; simpl; [reflexivity|].
  destruct (String.eqb key k); [discriminate | exact IH].
Qed.

(** One pass over a ranked list that ends normally: the keys grow by the
    new documents in the order of their first occurrence, and every
    score grows by the contributions of the list. *)
Lemma fuse_docs_inv (k : Z) docs : forall (rank : nat) fused fused',
    fuse_docs k rank docs fused = Ok fused' ->
    map fst fused' = first_seen (map fst fused) (map dumps docs)
    /\ forall key,
        score_of key fused'
        = fold_left add (list_contributions key k rank docs)
                    (score_of key fused).
Proof.
  induction docs as [|doc rest IH]; intros rank fused fused'; simpl.
  - intros [= <-]. split; reflexivity.
  - set (fused1 := if dict_mem (dumps doc) fused then fused
                   else dict_set (dumps doc) zero fused).
    assert (Hmem1 : dict_mem (dumps doc) fused1 = true).
    { subst fused1. destruct (dict_mem (dumps doc) fused) eqn:E; [exact E|].
      apply dict_mem_In. rewrite dict_set_keys, E.
      apply in_or_app. right. now left. }
    assert (Hkeys1 : map fst fused1
                     = if seen_before (dumps doc) (map fst fused)
                       then map fst fused else map fst fused ++ [dumps doc]).
    { subst fused1. rewrite seen_before_keys.
      destruct (dict_mem (dumps doc) fused) eqn:E; [reflexivity|].
      now rewrite dict_set_keys, E. }
    assert (Hscore1 : forall key, score_of key fused1 = score_of key fused).
    { intros key. subst fused1.
      destruct (dict_mem (dumps doc) fused) eqn:E; [reflexivity|].
      destruct (String.eqb_spec key (dumps doc)) as [->|Hne].
      - now rewrite score_of_set_same, score_of_absent.
      - now apply score_of_set_other. }
    destruct (dict_get_mem _ _ Hmem1) as [old Hold]. rewrite Hold.
    destruct (Z.eqb_spec (Z.of_nat rank + k) 0) as [E0|_]; [discriminate|].
    intros Hrun. apply IH in Hrun. destruct Hrun as [Hkeys Hscore]. split.
    + rewrite Hkeys, dict_set_keys, Hmem1, Hkeys1. reflexivity.
    + intros key. rewrite Hscore, fold_left_app. f_equal.
      destruct (String.eqb_spec (dumps doc) key) as [<-|Hne]; simpl.
      * rewrite score_of_set_same. f_equal.
        rewrite <- Hscore1. unfold score_of. now rewrite Hold.
      * rewrite score_of_set_other by congruence. apply Hscore1.
Qed.

(** With [k > 0] no denominator is zero and the pass ends normally. *)
Lemma fuse_docs_total (k : Z) docs : forall (rank : nat) fused,
    (0 < k)%Z -> exists fused', fuse_docs k rank docs fused = Ok fused'.
Proof.
  induction docs as [|doc rest IH]; intros rank fused Hk; simpl.
  - now exists fused.
  - set (fused1 := if dict_mem (dumps doc) fused then fused
                   else dict_set (dumps doc) zero fused).
    assert (Hmem1 : dict_mem (dumps doc) fused1 = true).
    { subst fused1. destruct (dict_mem (dumps doc) fused) eqn:E; [exact E|].
      apply dict_mem_In. rewrite dict_set_keys, E.
      apply in_or_app. right. now left. }
    destruct (dict_get_mem _ _ Hmem1) as [old Hold]. rewrite Hold.
    destruct (Z.eqb_spec (Z.of_nat rank + k) 0) as [E0|_]; [lia|].
    now apply IH.
Qed.

Lemma fuse_lists_inv (k : Z) (results : list (list Doc)) :
  forall fused fused',
    fuse_lists k results fused = Ok fused' ->
    map fst fused'
    = first_seen (map fst fused) (map dumps (List.concat results))
    /\ forall key,
        score_of key fused'
        = fold_left add (contributions key k results) (score_of key fused).
Proof.
  induction results as [|docs rest IH]; intros fused fused'; simpl.
  - intros [= <-]. split; reflexivity.
  - destruct (fuse_docs k 0 docs fused) as [fused1|e] eqn:Hrun1; [|discriminate].
    apply fuse_docs_inv in Hrun1. destruct Hrun1 as [Hkeys1 Hs1].
    intros Hrun. apply IH in Hrun. destruct Hrun as [Hkeys Hs]. split.
    + now rewrite Hkeys, Hkeys1, map_app, first_seen_app.
    + intros key. unfold contributions in *. simpl.
      now rewrite Hs, Hs1, fold_left_app.
Qed.

Lemma fuse_lists_total (k : Z) (results : list (list Doc)) : forall fused,
    (0 < k)%Z -> exists fused', fuse_lists k results fused = Ok fused'.
Proof.
  induction results as [|docs rest IH]; intros fused Hk; simpl.
  - now exists fused.
  - destruct (fuse_docs_total k docs 0 fused Hk) as [fused1 ->]. now apply IH.
Qed.

(** What holds of [0] and is kept when a contribution is added holds of
    every score in the dictionary. *)
Section ScoreDomain.
Variables (dom : score -> Prop) (k : Z).
Hypothesis dom_zero : dom zero.
Hypothesis dom_step :
  forall s (rank : nat),
    dom s -> (Z.of_nat rank + k <> 0)%Z ->
    dom (add s (recip (Z.of_nat rank + k))).

Lemma dict_set_dom key s d :
  dom s -> Forall (fun item => dom (snd item)) d ->
  Forall (fun item => dom (snd item)) (dict_set key s d).
Proof.
  intros Hs. induction d as [|[k' w] d IH]; simpl; intros Hd.
  - now constructor.
  - inversion Hd; subst.
    destruct (String.eqb key k'); constructor; auto.
Qed.

Lemma dict_get_dom key s d :
  Forall (fun item => dom (snd item)) d -> dict_get key d = Ok s -> dom s.
Proof.
  induction d as [|[k' w] d IH]; simpl; intros Hd; [discriminate|].
  inversion Hd; subst.
  destruct (String.eqb key k'); [intros [= <-]; assumption | now apply IH].
Qed.

Lemma fuse_docs_dom docs : forall (rank : nat) fused fused',
    Forall (fun item => dom (snd item)) fused ->
    fuse_docs k rank docs fused = Ok fused' ->
    Forall (fun item => dom (snd item)) fused'.
Proof.
  induction docs as [|doc rest IH]; intros rank fused fused' Hd; simpl.
  - now intros [= <-].
  - set (fused1 := if dict_mem (dumps doc) fused then fused
                   else dict_set (dumps doc) zero fused).
    assert (Hd1 : Forall (fun item => dom (snd item)) fused1).
    { subst fused1. destruct (dict_mem (dumps doc) fused); [exact Hd|].
      now apply dict_set_dom. }
    destruct (dict_get (dumps doc) fused1) as [old|e] eqn:Hold; [|discriminate].
    destruct (Z.eqb_spec (Z.of_nat rank + k) 0) as [E0|N0]; [discriminate|].
    apply IH. apply dict_set_dom; [|exact Hd1].
    apply dom_step; [|exact N0]. exact (dict_get_dom _ _ _ Hd1 Hold).
Qed.

Lemma fuse_lists_dom (results : list (list Doc)) : forall fused fused',
    Forall (fun item => dom (snd item)) fused ->
    fuse_lists k results fused = Ok fused' ->
    Forall (fun item => dom (snd item)) fused'.
Proof.
  induction results as [|docs rest IH]; intros fused fused' Hd; simpl.
  - now intros [= <-].
  - destruct (fuse_docs k 0 docs fused) as [fused1|e] eqn:Hrun1; [|discriminate].
    apply IH. exact (fuse_docs_dom _ _ _ _ Hd Hrun1).
Qed.

Lemma fused_scores_dom (results : list (list Doc)) fused :
  fused_scores results k = Ok fused ->
  Forall (fun item => dom (snd item)) fused.
Proof. apply fuse_lists_dom. constructor. Qed.
End ScoreDomain.
End FusionLoops.

(** ** [sorted(..., reverse=True)] *)

Section SortFacts.
Context {A K : Type} (lt : K -> K -> bool) (key : A -> K).
Implicit Types (a b x : A) (l acc : list A).

Lemma sort_asc_rev l : sort_asc lt key (rev l) = isort lt key l.
Proof.
  unfold sort_asc, isort.
  now rewrite <- fold_left_rev_right, rev_involutive.
Qed.

Lemma insort_Permutation x acc : Permutation (insort lt key x acc) (x :: acc).
Proof.
  induction acc as [|y acc IH]; simpl; [reflexivity|].
  destruct (lt (key x) (key y)); [reflexivity|].
  rewrite IH. apply perm_swap.
Qed.

Lemma isort_Permutation l : Permutation (isort lt key l) l.
Proof.
  induction l as [|x l IH]; simpl; [reflexivity|].
  now rewrite insort_Permutation, IH.
Qed.

Lemma sorted_reverse_Permutation l : Permutation (sorted_reverse lt key l) l.
Proof.
  unfold sorted_reverse. rewrite sort_asc_rev, <- Permutation_rev.
  apply isort_Permutation.
Qed.

Lemma before_insort_old a b x acc :
  before a b acc -> before a b (insort lt key x acc).
Proof.
  induction acc as [|y acc IH]; simpl; [tauto|].
  destruct (lt (key x) (key y)); simpl; [tauto|].
  intros [[-> Hin]|Hb]; [left | right; now apply IH].
  split; [reflexivity|].
  apply (Permutation_in _ (Permutation_sym (insort_Permutation x acc))).
  now right.
Qed.

(** The order need only be one on the keys in [dom]. *)
Section Ordered.
Variable dom : K -> Prop.
Hypothesis lt_asym :
  forall u v, dom u -> dom v -> lt u v = true -> lt v u = false.
Hypothesis ge_trans :
  forall u v w, dom u -> dom v -> dom w ->
                lt u v = false -> lt v w = false -> lt u w = false.

Lemma insort_dom x acc :
  dom (key x) -> Forall (fun a => dom (key a)) acc ->
  Forall (fun a => dom (key a)) (insort lt key x acc).
Proof.
  intros Hx Hacc. apply Forall_forall. intros z Hz.
  apply (Permutation_in _ (insort_Permutation x acc)) in Hz.
  destruct Hz as [<-|Hz]; [exact Hx|].
  rewrite Forall_forall in Hacc. now apply Hacc.
Qed.

Lemma isort_dom l :
  Forall (fun a => dom (key a)) l ->
  Forall (fun a => dom (key a)) (isort lt key l).
Proof.
  intros Hl. apply Forall_forall. intros z Hz.
  apply (Permutation_in _ (isort_Permutation l)) in Hz.
  rewrite Forall_forall in Hl. now apply Hl.
Qed.

Lemma insort_sorted x acc :
  dom (key x) -> Forall (fun a => dom (key a)) acc ->
  StronglySorted (asc lt key) acc -> StronglySorted (asc lt key) (insort lt key x acc).
Proof.
  intros Hx. induction acc as [|y acc IH]; simpl; intros Hd Hs.
  - repeat constructor.
  - inversion Hs as [|? ? Hs' Hall]; subst.
    inversion Hd as [|? ? Hy Hd']; subst.
    destruct (lt (key x) (key y)) eqn:Exy.
    + constructor; [exact Hs|]. constructor.
      * now apply lt_asym.
      * rewrite Forall_forall in *. intros z Hz. unfold asc.
        destruct (lt (key z) (key x)) eqn:Ezx; [|reflexivity].
        exfalso. pose proof (Hall z Hz) as Hzy. unfold asc in Hzy.
        assert (lt (key z) (key x) = false); [|congruence].
        apply ge_trans with (v := key y);
          [now apply Hd' | exact Hy | exact Hx | exact Hzy | now apply lt_asym].
    + constructor; [now apply IH|].
      apply Forall_forall. intros z Hz.
      apply (Permutation_in _ (insort_Permutation x acc)) in Hz.
      destruct Hz as [<-|Hz]; [exact Exy|].
      rewrite Forall_forall in Hall. now apply Hall.
Qed.

Lemma isort_sorted l :
  Forall (fun a => dom (key a)) l -> StronglySorted (asc lt key) (isort lt key l).
Proof.
  induction l as [|x l IH]; simpl; intros Hd; [constructor|].
  inversion Hd; subst.
  apply insort_sorted; [assumption | now apply isort_dom | now apply IH].
Qed.

Lemma before_insort_new b x acc :
  dom (key x) -> Forall (fun a => dom (key a)) acc ->
  StronglySorted (asc lt key) acc -> In b acc -> lt (key x) (key b) = false ->
  before b x (insort lt key x acc).
Proof.
  intros Hx. induction acc as [|y acc IH]; simpl; [tauto|].
  intros Hd Hs Hin Hxb. inversion Hs as [|? ? Hs' Hall]; subst.
  inversion Hd as [|? ? Hy Hd']; subst.
  destruct (lt (key x) (key y)) eqn:Exy; simpl.
  - exfalso. destruct Hin as [->|Hin]; [congruence|].
    rewrite Forall_forall in Hall, Hd'.
    pose proof (Hall b Hin) as Hby. unfold asc in Hby.
    assert (lt (key x) (key y) = false); [|congruence].
    apply ge_trans with (v := key b); auto.
  - destruct Hin as [->|Hin]; [left | right; now apply IH].
    split; [reflexivity|].
    apply (Permutation_in _ (Permutation_sym (insort_Permutation x acc))).
    now left.
Qed.

Lemma isort_stable a b l :
  Forall (fun a => dom (key a)) l ->
  before a b l -> lt (key a) (key b) = false -> before b a (isort lt key l).
Proof.
  induction l as [|x l IH]; simpl; [tauto|].
  intros Hd [[-> Hin]|Hb] Hab; inversion Hd; subst.
  - apply before_insort_new;
      [assumption | now apply isort_dom | now apply isort_sorted | | exact Hab].
    now apply (Permutation_in _ (Permutation_sym (isort_Permutation l))).
  - apply before_insort_old. now apply IH.
Qed.

(** The outcome is descending: no element is below a later one. *)
Lemma sorted_reverse_descending l :
  Forall (fun a => dom (key a)) l ->
  StronglySorted (fun a b => lt (key a) (key b) = false)
                 (sorted_reverse lt key l).
Proof.
  intros Hd. unfold sorted_reverse. rewrite sort_asc_rev.
  apply StronglySorted_before. intros a b Hb.
  apply (proj1 (before_rev _ _ _)) in Hb.
  exact (proj1 (StronglySorted_before (asc lt key) _) (isort_sorted l Hd) b a Hb).
Qed.

(** The sort is stable: an element stays before a later one that it is
    not below. *)
Lemma sorted_reverse_stable a b l :
  Forall (fun a => dom (key a)) l ->
  before a b l -> lt (key a) (key b) = false ->
  before a b (sorted_reverse lt key l).
Proof.
  intros Hd Hb Hab. unfold sorted_reverse. rewrite sort_asc_rev.
  apply before_rev. now apply isort_stable.
Qed.

(** Read backwards on a list without repetition: two elements that tie
    stand in the order they had before sorting. *)
Lemma sorted_reverse_ties a b l :
  Forall (fun a => dom (key a)) l ->
  NoDup l -> before a b (sorted_reverse lt key l) ->
  lt (key b) (key a) = false -> before a b l.
Proof.
  intros Hd Hnd Hb Hba.
  assert (Hnd' : NoDup (sorted_reverse lt key l)).
  { eapply Permutation_NoDup; [|exact Hnd].
    apply Permutation_sym, sorted_reverse_Permutation. }
  destruct (before_Permutation_In _ _ _ _ (sorted_reverse_Permutation l) Hb)
    as [Ha Hb'].
  destruct (before_total a b l Ha Hb' (before_NoDup_neq _ _ _ Hnd' Hb))
    as [H|H]; [exact H|].
  exfalso. apply (before_NoDup_asym _ _ _ Hnd' Hb).
  now apply sorted_reverse_stable.
Qed.
End Ordered.
End SortFacts.

(** ** Reciprocal rank fusion *)

Section FusionTheorems.
Context {Doc : Type} `{Document Doc} {score : Type} `{ScoreArith score}.

Lemma fused_scores_keys (results : list (list Doc)) (k : Z) fused :
  fused_scores results k = Ok fused ->
  map fst fused = first_seen [] (map dumps (List.concat results)).
Proof. intros Hrun. now apply fuse_lists_inv in Hrun. Qed.

Lemma fused_scores_NoDup (results : list (list Doc)) (k : Z) fused :
  fused_scores results k = Ok fused -> NoDup (map fst fused).
Proof.
  intros Hrun. rewrite (fused_scores_keys _ _ _ Hrun).
  apply first_seen_NoDup. constructor.
Qed.

Lemma fused_scores_sum (results : list (list Doc)) (k : Z) fused key s :
  fused_scores results k = Ok fused ->
  In (key, s) fused -> s = score_sum key k results.
Proof.
  intros Hrun Hin. pose proof (fused_scores_NoDup _ _ _ Hrun) as Hnd.
  apply fuse_lists_inv in Hrun. destruct Hrun as [_ Hs].
  specialize (Hs key). unfold score_of in Hs.
  rewrite (dict_In_get _ _ _ Hnd Hin) in Hs. exact Hs.
Qed.

(** The general part of the score formula. *)
Lemma rrf_items (results : list (list Doc)) (k : Z) :
  results <> [] -> (0 < k)%Z ->
  exists items,
    reciprocal_rank_fusion results k = Ok (map load_entry items)
    /\ NoDup (map fst items)
    /\ (forall key,
           In key (map fst items)
           <-> exists doc, In doc (List.concat results) /\ dumps doc = key)
    /\ (forall key s, In (key, s) items -> s = score_sum key k results).
Proof.
  intros Hne Hk.
  destruct (fuse_lists_total k results [] Hk) as [fused Hrun].
  fold (fused_scores results k) in Hrun.
  pose proof (sorted_reverse_Permutation ltb snd fused) as Hperm.
  exists (sorted_reverse ltb snd fused). split; [|split; [|split]].
  - unfold reciprocal_rank_fusion. rewrite Hrun.
    destruct results; [contradiction | reflexivity].
  - eapply Permutation_NoDup.
    + apply Permutation_map, Permutation_sym, Hperm.
    + exact (fused_scores_NoDup _ _ _ Hrun).
  - intros key. rewrite (Permutation_in' (eq_refl key) (Permutation_map fst Hperm)).
    rewrite (fused_scores_keys _ _ _ Hrun), first_seen_In, in_map_iff.
    simpl. split.
    + intros [[]|(doc & E & Hin)]. now exists doc.
    + intros (doc & Hin & E). right. now exists doc.
  - intros key s Hin. apply (fused_scores_sum _ _ _ _ _ Hrun).
    now apply (Permutation_in _ Hperm).
Qed.

Lemma fuse_lists_all_empty (k : Z) (results : list (list Doc)) fused :
  Forall (fun docs => docs = []) results ->
  fuse_lists k results fused = Ok fused.
Proof.
  induction 1 as [|docs rest -> _ IH]; simpl; [reflexivity | exact IH].
Qed.

(** A non-empty collection of empty lists gives the empty result. *)
Lemma rrf_all_empty (results : list (list Doc)) (k : Z) :
  results <> [] -> Forall (fun docs => docs = []) results ->
  reciprocal_rank_fusion results k = Ok [].
Proof.
  intros Hne Hall. unfold reciprocal_rank_fusion, fused_scores.
  rewrite (fuse_lists_all_empty k results [] Hall).
  destruct results; [contradiction | reflexivity].
Qed.
End FusionTheorems.

(** C1.  For a non-empty collection of ranked lists and [k > 0],
    [reciprocal_rank_fusion] returns normally; its entries are the loaded
    items of a list that holds every serialised document of the input
    exactly once, each paired with the sum of [1 / (rank + k)] over the
    occurrences of that document in all lists ([rank] counted from 0 in
    each list).  On binary64 scores, the lists [[A, B], [B, A]] and [k = 1]
    give A and B the score 1.5 each. *)
Theorem rrf_scores :
  (forall (Doc : Type) (D : Document Doc) (score : Type) (S : ScoreArith score)
          (results : list (list Doc)) (k : Z),
      results <> [] -> (0 < k)%Z ->
      exists items,
        reciprocal_rank_fusion results k = Ok (map load_entry items)
        /\ NoDup (map fst items)
        /\ (forall key,
               In key (map fst items)
               <-> exists doc, In doc (List.concat results) /\ dumps doc = key)
        /\ (forall key s, In (key, s) items -> s = score_sum key k results))
  /\ @reciprocal_rank_fusion _ TextDocument.document _ Binary64.arith
       [["A"; "B"]; ["B"; "A"]] 1
     = Ok [("A", 1.5%float); ("B", 1.5%float)].
Proof.
  split.
  - intros Doc D score S results k. apply rrf_items.
  - vm_compute. reflexivity.
Qed.

(** The lists [[A, B], [B, A]] with [k = 1] and exact rational scores:
    both sums are 3/2. *)
Lemma rrf_scores_witness :
  exists items,
    @reciprocal_rank_fusion _ TextDocument.document _ RationalScores.arith
      [["A"; "B"]; ["B"; "A"]] 1
    = Ok (map (@load_entry _ TextDocument.document _) items)
    /\ forall key s,
      In (key, s) items ->
      s = @score_sum _ TextDocument.document _ RationalScores.arith
            key 1 [["A"; "B"]; ["B"; "A"]].
Proof.
  destruct (proj1 rrf_scores string TextDocument.document
                  QArith_base.Q RationalScores.arith
                  [["A"; "B"]; ["B"; "A"]] 1%Z)
    as (items & Hrun & _ & _ & Hsum).
  - discriminate.
  - reflexivity.
  - exists items. split; [exact Hrun | exact Hsum].
Defined.

(** C3.  The empty collection of lists is refused with a [ValueError]; a
    non-empty collection of empty lists, such as [[[], []]], gives the
    empty result and no error. *)
Theorem rrf_empty_inputs :
  forall (Doc : Type) (D : Document Doc) (score : Type) (S : ScoreArith score)
         (k : Z),
    reciprocal_rank_fusion (@nil (list Doc)) k
    = Err (ValueError "Results list cannot be empty")
    /\ reciprocal_rank_fusion [@nil Doc; @nil Doc] k = Ok []
    /\ forall results : list (list Doc),
        results <> [] -> Forall (fun docs => docs = []) results ->
        reciprocal_rank_fusion results k = Ok [].
Proof.
  intros Doc D score S k. split; [reflexivity|]. split; [reflexivity|].
  intros results. apply rrf_all_empty.
Qed.

(** Three empty lists and the default [k]. *)
Lemma rrf_empty_inputs_witness :
  @reciprocal_rank_fusion _ TextDocument.document _ RationalScores.arith
    [[]; []; []] default_k = Ok [].
Proof.
  apply (proj2 (proj2 (rrf_empty_inputs string TextDocument.document
                         QArith_base.Q RationalScores.arith default_k))).
  - discriminate.
  - repeat constructor.
Defined.

(** ** Binary64 scores

    The floats of the fusion loop are sums of reciprocals of integers.
    [SpecFloat] gives their rounding on mantissas and exponents; the
    lemmas below restate it on integer keys, where rounding is monotone,
    and derive the order laws of the scores from that. *)

Section Digits.
Import Binary64.
Local Open Scope Z_scope.
Lemma digits2_pos_bounds (p : positive) :
  2 ^ (Zpos (digits2_pos p) - 1) <= Zpos p < 2 ^ Zpos (digits2_pos p).
Proof.
  induction p as [p IH|p IH|]; cbn [digits2_pos].
  - rewrite Pos2Z.inj_succ. replace (Z.succ (Zpos (digits2_pos p)) - 1)
      with (Z.succ (Zpos (digits2_pos p) - 1)) by lia.
    rewrite !Z.pow_succ_r by lia. lia.
  - rewrite Pos2Z.inj_succ. replace (Z.succ (Zpos (digits2_pos p)) - 1)
      with (Z.succ (Zpos (digits2_pos p) - 1)) by lia.
    rewrite !Z.pow_succ_r by lia. lia.
  - cbn. lia.
Qed.

Lemma Zdigits2_bounds (m : Z) :
  0 < m -> 2 ^ (Zdigits2 m - 1) <= m < 2 ^ Zdigits2 m.
Proof.
  destruct m as [|p|p]; try lia. intros _. apply digits2_pos_bounds.
Qed.

Lemma Zdigits2_nonneg (m : Z) : 0 <= m -> 0 <= Zdigits2 m.
Proof. destruct m; simpl; lia. Qed.

Lemma Zdigits2_pos (m : Z) : 0 < m -> 0 < Zdigits2 m.
Proof. destruct m; simpl; lia. Qed.

Lemma Zdigits2_unique (m d : Z) :
  2 ^ (d - 1) <= m < 2 ^ d -> 0 < m -> Zdigits2 m = d.
Proof.
  intros [Hlo Hhi] Hm. pose proof (Zdigits2_bounds m Hm) as [Hlo' Hhi'].
  pose proof (Zdigits2_pos m Hm) as Hd.
  assert (0 < d).
  { destruct (Z_lt_le_dec 0 d); [assumption|].
    rewrite Z.pow_neg_r in Hlo by lia.
    destruct (Z.eq_dec d 0) as [->|]; [simpl in Hhi; lia|].
    rewrite Z.pow_neg_r in Hhi by lia. lia. }
  destruct (Z.lt_trichotomy (Zdigits2 m) d) as [Hlt|[Heq|Hgt]]; [|exact Heq|].
  - assert (2 ^ Zdigits2 m <= 2 ^ (d - 1)) by (apply Z.pow_le_mono_r; lia). lia.
  - assert (2 ^ d <= 2 ^ (Zdigits2 m - 1)) by (apply Z.pow_le_mono_r; lia). lia.
Qed.

Lemma Zdigits2_le (m d : Z) : 0 <= d -> 0 <= m < 2 ^ d -> Zdigits2 m <= d.
Proof.
  intros Hd [Hm Hhi]. destruct (Z.eq_dec m 0) as [->|Hne]; [simpl; lia|].
  pose proof (Zdigits2_bounds m ltac:(lia)) as [Hlo _].
  destruct (Z_lt_le_dec d (Zdigits2 m)) as [Hlt|]; [|assumption].
  assert (2 ^ d <= 2 ^ (Zdigits2 m - 1)) by (apply Z.pow_le_mono_r; lia). lia.
Qed.

Lemma Zdigits2_ge (m d : Z) : 2 ^ (d - 1) <= m -> 0 < m -> d <= Zdigits2 m.
Proof.
  intros Hlo Hm. pose proof (Zdigits2_bounds m Hm) as [_ Hhi].
  destruct (Z_lt_le_dec (Zdigits2 m) d) as [Hlt|]; [|assumption].
  assert (2 ^ Zdigits2 m <= 2 ^ (d - 1)) by (apply Z.pow_le_mono_r; lia). lia.
Qed.

Lemma Zdigits2_mono (m n : Z) : 0 <= m <= n -> Zdigits2 m <= Zdigits2 n.
Proof.
  intros [Hm Hmn]. destruct (Z.eq_dec m 0) as [->|Hne].
  - simpl. now apply Zdigits2_nonneg.
  - apply Zdigits2_ge; [|lia].
    pose proof (Zdigits2_bounds m ltac:(lia)). lia.
Qed.

(** The digits of a product with a power of two, and of a quotient. *)
Lemma Zdigits2_mul_pow2 (m j : Z) :
  0 < m -> 0 <= j -> Zdigits2 (m * 2 ^ j) = Zdigits2 m + j.
Proof.
  intros Hm Hj. pose proof (Zdigits2_bounds m Hm) as [Hlo Hhi].
  pose proof (Zdigits2_pos m Hm).
  assert (0 < 2 ^ j) by (apply Z.pow_pos_nonneg; lia).
  apply Zdigits2_unique; [|nia].
  replace (Zdigits2 m + j - 1) with ((Zdigits2 m - 1) + j) by lia.
  rewrite !Z.pow_add_r by lia. nia.
Qed.

Lemma Zdigits2_div_pow2 (m j : Z) :
  0 <= m -> 0 <= j -> Zdigits2 (m / 2 ^ j) = Z.max (Zdigits2 m - j) 0.
Proof.
  intros Hm Hj.
  assert (Hp : 0 < 2 ^ j) by (apply Z.pow_pos_nonneg; lia).
  destruct (Z.eq_dec m 0) as [->|Hne].
  { rewrite Z.div_0_l by lia. simpl. lia. }
  pose proof (Zdigits2_bounds m ltac:(lia)) as [Hlo Hhi].
  pose proof (Zdigits2_pos m ltac:(lia)) as Hd.
  destruct (Z_lt_le_dec j (Zdigits2 m)) as [Hlt|Hge].
  - rewrite Z.max_l by lia.
    assert (E1 : 2 ^ (Zdigits2 m - 1) = 2 ^ (Zdigits2 m - j - 1) * 2 ^ j).
    { rewrite <- Z.pow_add_r by lia. f_equal. lia. }
    assert (E2 : 2 ^ Zdigits2 m = 2 ^ (Zdigits2 m - j) * 2 ^ j).
    { rewrite <- Z.pow_add_r by lia. f_equal. lia. }
    assert (Hq : 2 ^ (Zdigits2 m - j - 1) <= m / 2 ^ j).
    { apply Z.div_le_lower_bound; [lia|]. rewrite Z.mul_comm. lia. }
    assert (Hq' : m / 2 ^ j < 2 ^ (Zdigits2 m - j)).
    { apply Z.div_lt_upper_bound; [lia|]. rewrite Z.mul_comm. lia. }
    assert (0 < 2 ^ (Zdigits2 m - j - 1)) by (apply Z.pow_pos_nonneg; lia).
    apply Zdigits2_unique; lia.
  - rewrite Z.max_r by lia.
    assert (2 ^ Zdigits2 m <= 2 ^ j) by (apply Z.pow_le_mono_r; lia).
    rewrite Z.div_small by lia. reflexivity.
Qed.
End Digits.

Section Shifting.
Import Binary64.
Local Open Scope Z_scope.
Lemma half_unit_pos (e : Z) : -1075 <= e -> 0 < half_unit e.
Proof. intros He. apply Z.pow_pos_nonneg; lia. Qed.

Lemma half_unit_succ (e : Z) : -1075 <= e -> half_unit (e + 1) = 2 * half_unit e.
Proof.
  intros He. unfold half_unit.
  replace (e + 1 + 1075) with (Z.succ (e + 1075)) by lia.
  apply Z.pow_succ_r. lia.
Qed.

Lemma half_unit_add (e n : Z) :
  -1075 <= e -> 0 <= n -> half_unit (e + n) = 2 ^ n * half_unit e.
Proof.
  intros He Hn. unfold half_unit.
  replace (e + n + 1075) with (n + (e + 1075)) by lia.
  apply Z.pow_add_r; lia.
Qed.

Lemma two_half_unit (e : Z) : -1075 <= e -> 2 * half_unit e = 2 ^ (e + 1076).
Proof.
  intros He. unfold half_unit. replace (e + 1076) with (Z.succ (e + 1075)) by lia.
  now rewrite Z.pow_succ_r by lia.
Qed.

Lemma fexp_eq (x : Z) : fexp prec emax x = Z.max (x - 53) (-1074).
Proof. reflexivity. Qed.

Lemma shr_1_fields (m : Z) (r s : bool) :
  0 <= m ->
  shr_1 (Build_shr_record m r s) = Build_shr_record (m / 2) (Z.odd m) (r || s).
Proof.
  intros Hm. rewrite <- Z.div2_div.
  destruct m as [|[p|p|]|p]; try reflexivity. lia.
Qed.

Lemma located_nonneg (K e : Z) (mrs : shr_record) :
  0 <= K -> -1075 <= e -> located K e mrs -> 0 <= shr_m mrs.
Proof.
  intros HK He (-> & _). apply Z.div_pos; [exact HK|].
  pose proof (half_unit_pos e He). lia.
Qed.

Lemma shr_1_located (K e : Z) (mrs : shr_record) :
  0 <= K -> -1075 <= e ->
  located K e mrs -> located K (e + 1) (shr_1 mrs).
Proof.
  intros HK He Hloc. pose proof (located_nonneg K e mrs HK He Hloc) as Hm.
  destruct mrs as [m r s]. cbn [shr_m] in Hm. rewrite shr_1_fields by exact Hm.
  unfold located in *. cbn [shr_m shr_r shr_s] in *.
  destruct Hloc as (Em & Er & Es).
  pose proof (half_unit_pos e He) as HH.
  rewrite half_unit_succ by exact He.
  assert (Ediv : K / (2 * half_unit e) = K / half_unit e / 2).
  { rewrite Z.div_div by lia. f_equal. lia. }
  repeat split; cbn [shr_m shr_r shr_s].
  - rewrite Em. rewrite Z.div_div by lia. f_equal. lia.
  - now rewrite Em.
  - rewrite Er, Es.
    replace (2 * half_unit e) with (half_unit e * 2) by lia.
    rewrite Z.rem_mul_r by lia. rewrite Zmod_odd.
    pose proof (Z.mod_pos_bound K (half_unit e) HH) as Hc.
    destruct (Z.odd (K / half_unit e)); destruct (K mod half_unit e =? 0) eqn:Ec;
      simpl; symmetry.
    + apply negb_true_iff, Z.eqb_neq. apply Z.eqb_eq in Ec. lia.
    + apply negb_true_iff, Z.eqb_neq. lia.
    + apply negb_false_iff, Z.eqb_eq. apply Z.eqb_eq in Ec. lia.
    + apply negb_true_iff, Z.eqb_neq. apply Z.eqb_neq in Ec. lia.
Qed.

Lemma iter_pos_located (K : Z) (p : positive) :
  0 <= K -> forall (e : Z) (mrs : shr_record),
    -1075 <= e -> located K e mrs ->
    located K (e + Zpos p) (iter_pos shr_1 p mrs).
Proof.
  intros HK. induction p as [p IH|p IH|]; intros e mrs He Hloc; cbn [iter_pos].
  - replace (e + Zpos p~1) with (e + 1 + Zpos p + Zpos p) by lia.
    apply IH; [lia|]. apply IH; [lia|]. now apply shr_1_located.
  - replace (e + Zpos p~0) with (e + Zpos p + Zpos p) by lia.
    apply IH; [lia|]. now apply IH.
  - now apply shr_1_located.
Qed.

Lemma shr_located (K e n : Z) (mrs : shr_record) :
  0 <= K -> -1075 <= e -> 0 <= n -> located K e mrs ->
  snd (shr mrs e n) = e + n /\ located K (e + n) (fst (shr mrs e n)).
Proof.
  intros HK He Hn Hloc. destruct n as [|p|p]; cbn [shr fst snd]; try lia.
  - rewrite Z.add_0_r. now split.
  - split; [reflexivity|]. now apply iter_pos_located.
Qed.

Lemma round_located (K e : Z) (mrs : shr_record) :
  located K e mrs ->
  round_nearest_even (shr_m mrs) (loc_of_shr_record mrs) = nearest_even K e.
Proof.
  destruct mrs as [m r s]. intros (Em & Er & Es). cbn [shr_m shr_r shr_s] in *.
  unfold nearest_even. rewrite <- Em, <- Er.
  destruct r; destruct s; cbn [loc_of_shr_record round_nearest_even];
    symmetry in Es.
  - apply negb_true_iff in Es. now rewrite Es.
  - apply negb_false_iff in Es. rewrite Es. simpl.
    now destruct (Z.even m).
  - reflexivity.
  - reflexivity.
Qed.

Lemma nearest_even_bounds (K e : Z) :
  K / (2 * half_unit e) <= nearest_even K e <= K / (2 * half_unit e) + 1.
Proof.
  unfold nearest_even.
  destruct (Z.odd _); [destruct (_ && _)|]; lia.
Qed.

(** The key fits the target exponent: at most 53 digits are left. *)
Lemma target_exponent_fits (K : Z) :
  0 <= K -> K / (2 * half_unit (target_exponent K)) < 2 ^ 53.
Proof.
  intros HK. unfold target_exponent. rewrite fexp_eq.
  set (E := Z.max (Zdigits2 K - 1076 - 53) (-1074)).
  assert (HE : -1074 <= E) by lia.
  pose proof (half_unit_pos E ltac:(lia)) as HH.
  apply Z.div_lt_upper_bound; [lia|].
  destruct (Z.eq_dec K 0) as [->|Hne]; [lia|].
  pose proof (Zdigits2_bounds K ltac:(lia)) as [_ Hhi].
  assert (2 ^ Zdigits2 K <= 2 ^ (E + 1076 + 53)) by (apply Z.pow_le_mono_r; lia).
  rewrite two_half_unit by lia. rewrite <- Z.pow_add_r by lia. lia.
Qed.

Lemma target_exponent_of (K m e : Z) :
  0 <= K -> -1074 <= e ->
  m = K / (2 * half_unit e) ->
  e <= fexp prec emax (Zdigits2 m + e) ->
  fexp prec emax (Zdigits2 m + e) = target_exponent K.
Proof.
  intros HK He Em HP. unfold target_exponent.
  rewrite two_half_unit in Em by lia.
  pose proof (Zdigits2_div_pow2 K (e + 1076) HK ltac:(lia)) as Ed.
  rewrite <- Em in Ed. rewrite !fexp_eq in *.
  destruct (Z.eq_dec m 0) as [E0|Hne].
  - rewrite E0 in Ed, HP |- *. change (Zdigits2 0) with 0 in *. lia.
  - assert (0 <= m).
    { rewrite Em. apply Z.div_pos; [lia|]. apply Z.pow_pos_nonneg; lia. }
    pose proof (Zdigits2_pos m ltac:(lia)). lia.
Qed.
End Shifting.

Section RoundAux.
Import Binary64.
Local Open Scope Z_scope.
Lemma shr_nonpos (mrs : shr_record) (e n : Z) : n <= 0 -> shr mrs e n = (mrs, e).
Proof. destruct n; simpl; [reflexivity | lia | reflexivity]. Qed.

Lemma target_exponent_ge (K : Z) : -1074 <= target_exponent K.
Proof. unfold target_exponent. rewrite fexp_eq. lia. Qed.

Lemma shr_record_of_loc_m (m : Z) (l : location) :
  shr_m (shr_record_of_loc m l) = m.
Proof. now destruct l as [|[]]. Qed.

Lemma nearest_even_range (K : Z) :
  0 <= K -> 0 <= nearest_even K (target_exponent K) <= 2 ^ 53.
Proof.
  intros HK. pose proof (nearest_even_bounds K (target_exponent K)).
  pose proof (target_exponent_fits K HK).
  pose proof (target_exponent_ge K).
  pose proof (half_unit_pos (target_exponent K) ltac:(lia)).
  assert (0 <= K / (2 * half_unit (target_exponent K)))
    by (apply Z.div_pos; lia).
  lia.
Qed.

Theorem binary_round_aux_key (K m e : Z) (l : location) :
  0 <= K -> -1074 <= e ->
  located K e (shr_record_of_loc m l) ->
  e <= fexp prec emax (Zdigits2 m + e) ->
  binary_round_aux prec emax false m e l = round_key K.
Proof.
  intros HK He Hloc HP.
  assert (Em : m = K / (2 * half_unit e)).
  { destruct Hloc as (Hm & _). now rewrite shr_record_of_loc_m in Hm. }
  pose proof (target_exponent_of K m e HK He Em HP) as ET.
  unfold binary_round_aux, shr_fexp.
  destruct (shr_located K e (fexp prec emax (Zdigits2 m + e) - e)
                        (shr_record_of_loc m l) HK ltac:(lia) ltac:(lia) Hloc)
    as [E1 L1].
  destruct (shr (shr_record_of_loc m l) e (fexp prec emax (Zdigits2 m + e) - e))
    as [mrs' e'].
  cbn [fst snd] in E1, L1. subst e'.
  replace (e + (fexp prec emax (Zdigits2 m + e) - e))
    with (target_exponent K) in * by lia.
  rewrite (round_located _ _ _ L1).
  pose proof (nearest_even_range K HK) as Hrange.
  pose proof (target_exponent_ge K) as HE.
  unfold round_key.
  set (E := target_exponent K) in *.
  set (m2 := nearest_even K E) in *.
  destruct (Z.eq_dec m2 (2 ^ 53)) as [E53|N53].
  - rewrite E53. change (2 ^ 53) with 9007199254740992.
    change (Zdigits2 9007199254740992) with 54. rewrite fexp_eq.
    replace (Z.max (54 + E - 53) (-1074) - E) with 1 by lia.
    reflexivity.
  - destruct m2 as [|p|p]; [| |lia].
    + change (Zdigits2 0) with 0. rewrite shr_nonpos by (rewrite fexp_eq; lia).
      reflexivity.
    + assert (Hd : Zdigits2 (Zpos p) <= 53).
      { apply Zdigits2_le; lia. }
      rewrite shr_nonpos by (rewrite fexp_eq; lia).
      cbn [shr_record_of_loc shr_m].
      destruct (Z.eqb_spec (Zpos p) (2 ^ 53)); [contradiction | reflexivity].
Qed.
End RoundAux.

Section RoundingMonotone.
Import Binary64.
Local Open Scope Z_scope.
Lemma target_exponent_mono (K1 K2 : Z) :
  0 <= K1 <= K2 -> target_exponent K1 <= target_exponent K2.
Proof.
  intros HK. unfold target_exponent. rewrite !fexp_eq.
  pose proof (Zdigits2_mono K1 K2 HK). lia.
Qed.

Lemma target_exponent_normal (K : Z) :
  0 <= K -> -1074 < target_exponent K ->
  2 ^ 52 <= K / (2 * half_unit (target_exponent K)).
Proof.
  intros HK. unfold target_exponent. rewrite fexp_eq. intros HE.
  set (E := Z.max (Zdigits2 K - 1076 - 53) (-1074)) in *.
  assert (Ed : Zdigits2 K = E + 1129) by lia.
  rewrite two_half_unit by lia.
  assert (Hpos : 0 < K).
  { destruct (Z.eq_dec K 0) as [->|]; [simpl in Ed; lia | lia]. }
  pose proof (Zdigits2_bounds K Hpos) as [Hlo _].
  apply Z.div_le_lower_bound; [apply Z.pow_pos_nonneg; lia|].
  rewrite <- Z.pow_add_r by lia.
  replace (E + 1076 + 52) with (Zdigits2 K - 1) by lia. exact Hlo.
Qed.

Lemma nearest_even_mono (K1 K2 e : Z) :
  0 <= K1 <= K2 -> -1075 <= e -> nearest_even K1 e <= nearest_even K2 e.
Proof.
  intros [HK1 HK] He. pose proof (half_unit_pos e He) as HH.
  unfold nearest_even.
  assert (Ediv : forall K, K / (2 * half_unit e) = K / half_unit e / 2).
  { intros K. rewrite Z.div_div by lia. f_equal. lia. }
  rewrite !Ediv.
  pose proof (Z.div_le_mono K1 K2 (half_unit e) HH HK) as Ha.
  pose proof (Z.div_mod K1 (half_unit e) ltac:(lia)) as D1.
  pose proof (Z.div_mod K2 (half_unit e) ltac:(lia)) as D2.
  pose proof (Z.mod_pos_bound K1 (half_unit e) HH) as B1.
  pose proof (Z.mod_pos_bound K2 (half_unit e) HH) as B2.
  set (a1 := K1 / half_unit e) in *. set (a2 := K2 / half_unit e) in *.
  set (c1 := K1 mod half_unit e) in *. set (c2 := K2 mod half_unit e) in *.
  pose proof (Z.div_mod a1 2 ltac:(lia)) as Q1.
  pose proof (Z.div_mod a2 2 ltac:(lia)) as Q2.
  rewrite Zmod_odd in Q1, Q2.
  destruct (Z.eq_dec a1 a2) as [Ea|Na].
  - rewrite <- Ea in *. assert (c1 <= c2) by lia.
    destruct (Z.odd a1); [|lia].
    destruct (Z.eqb_spec c1 0), (Z.eqb_spec c2 0), (Z.even (a1 / 2)); simpl; lia.
  - assert (a1 < a2) by lia.
    destruct (Z.odd a1), (Z.odd a2);
      repeat match goal with
             | |- context [if ?b then _ else _] => destruct b
             end; lia.
Qed.

Lemma SFleb_finite (m1 m2 : positive) (e1 e2 : Z) :
  SFleb (S754_finite false m1 e1) (S754_finite false m2 e2) = true
  <-> e1 < e2 \/ (e1 = e2 /\ Zpos m1 <= Zpos m2).
Proof.
  unfold SFleb, SFcompare.
  change (Pos.compare_cont Eq m1 m2) with (Pos.compare m1 m2).
  destruct (Z.compare_spec e1 e2); [|split; [lia | reflexivity]|split; [discriminate | lia]].
  destruct (Pos.compare_spec m1 m2); split; try reflexivity; try discriminate; lia.
Qed.

Theorem round_key_mono (K1 K2 : Z) :
  0 <= K1 <= K2 -> SFleb (round_key K1) (round_key K2) = true.
Proof.
  intros [HK1 HK].
  pose proof (target_exponent_mono K1 K2 ltac:(lia)) as HE.
  pose proof (target_exponent_ge K1) as HE1.
  pose proof (nearest_even_range K1 HK1) as R1.
  pose proof (nearest_even_range K2 ltac:(lia)) as R2.
  pose proof (nearest_even_bounds K2 (target_exponent K2)) as B2.
  assert (Hcase : target_exponent K1 = target_exponent K2
                  /\ nearest_even K1 (target_exponent K1)
                     <= nearest_even K2 (target_exponent K2)
                  \/ target_exponent K1 < target_exponent K2
                     /\ 2 ^ 52 <= nearest_even K2 (target_exponent K2)).
  { destruct (Z.eq_dec (target_exponent K1) (target_exponent K2)) as [E|N].
    - left. split; [exact E|]. rewrite E. apply nearest_even_mono; lia.
    - right. split; [lia|].
      pose proof (target_exponent_normal K2 ltac:(lia) ltac:(lia)). lia. }
  unfold round_key.
  set (E1 := target_exponent K1) in *. set (E2 := target_exponent K2) in *.
  set (n1 := nearest_even K1 E1) in *. set (n2 := nearest_even K2 E2) in *.
  change (emax - prec) with 971.
  change (2 ^ 53) with 9007199254740992 in *.
  change (2 ^ 52) with 4503599627370496 in *.
  destruct n1 as [|p1|p1]; [| |lia]; (destruct n2 as [|p2|p2]; [| |lia]).
  - reflexivity.
  - repeat match goal with
           | |- context [if ?b then _ else _] => destruct b
           end; reflexivity.
  - exfalso. lia.
  - destruct (Z.eqb_spec (Zpos p1) 9007199254740992) as [P1|P1];
      destruct (Z.eqb_spec (Zpos p2) 9007199254740992) as [P2|P2];
      repeat match goal with
             | |- context [if (?a <=? ?b) then _ else _] =>
                 destruct (Z.leb_spec a b)
             end;
      try reflexivity; try (exfalso; lia);
      apply SFleb_finite;
      change (Zpos (2 ^ 52)) with 4503599627370496; lia.
Qed.
End RoundingMonotone.

Section FloatAddition.
Import Binary64.
Local Open Scope Z_scope.
Lemma pos_iter_xO (m d : positive) :
  Zpos (Pos.iter xO m d) = Zpos m * 2 ^ Zpos d.
Proof.
  induction d as [|d IH] using Pos.peano_ind.
  - cbn [Pos.iter]. rewrite Pos2Z.inj_xO. change (2 ^ 1) with 2. ring.
  - rewrite Pos.iter_succ, Pos2Z.inj_xO, IH, Pos2Z.inj_succ.
    rewrite Z.pow_succ_r by lia. ring.
Qed.

Lemma shl_align_value (m : positive) (e e' : Z) :
  snd (shl_align m e e') = Z.min e e'
  /\ Zpos (fst (shl_align m e e')) = Zpos m * 2 ^ (e - Z.min e e').
Proof.
  unfold shl_align. destruct (e' - e) as [|d|d] eqn:Ed; cbn [fst snd].
  - split; [lia|]. replace (e - Z.min e e') with 0 by lia. simpl. lia.
  - split; [lia|]. replace (e - Z.min e e') with 0 by lia. simpl. lia.
  - split; [lia|]. rewrite pos_iter_xO. f_equal. f_equal. lia.
Qed.

Lemma bounded_canonical (m : positive) (e : Z) :
  bounded prec emax m e = true ->
  fexp prec emax (Zpos (digits2_pos m) + e) = e /\ e <= 971.
Proof.
  unfold bounded, canonical_mantissa. intros Hb.
  apply andb_true_iff in Hb. destruct Hb as [Hc He].
  apply Z.eqb_eq in Hc. apply Z.leb_le in He. split; [exact Hc | exact He].
Qed.

Lemma located_exact (m e : Z) :
  -1075 <= e -> 0 <= m ->
  located (m * (2 * half_unit e)) e (shr_record_of_loc m loc_Exact).
Proof.
  intros He Hm. pose proof (half_unit_pos e He) as HH.
  unfold located. cbn [shr_record_of_loc shr_m shr_r shr_s]. repeat split.
  - rewrite Z.div_mul by lia. reflexivity.
  - replace (m * (2 * half_unit e)) with (2 * m * half_unit e) by ring.
    rewrite Z.div_mul by lia. now rewrite Z.odd_mul, Z.odd_2.
  - replace (m * (2 * half_unit e)) with (2 * m * half_unit e) by ring.
    now rewrite Z.mod_mul by lia.
Qed.

Lemma with_sign_round_aux (s : bool) (m e : Z) (l : location) :
  binary_round_aux prec emax s m e l
  = with_sign s (binary_round_aux prec emax false m e l).
Proof.
  unfold binary_round_aux.
  destruct (shr_fexp prec emax m e l) as [mrs' e'].
  destruct (shr_fexp prec emax _ e' loc_Exact) as [mrs'' e''].
  destruct (shr_m mrs''); [reflexivity | | reflexivity].
  now destruct (e'' <=? emax - prec).
Qed.

(** Rounding an exact mantissa and exponent. *)
Lemma binary_round_key (m : positive) (e : Z) :
  -1074 <= e ->
  binary_round prec emax false m e = round_key (Zpos m * (2 * half_unit e)).
Proof.
  intros He. unfold binary_round.
  pose proof (shl_align_value m e (fexp prec emax (Zpos (digits2_pos m) + e)))
    as [Hsnd Hfst].
  destruct (shl_align m e (fexp prec emax (Zpos (digits2_pos m) + e)))
    as [mz ez].
  cbn [fst snd] in Hsnd, Hfst.
  pose proof (fexp_eq (Zpos (digits2_pos m) + e)) as Hf.
  assert (Hez : -1074 <= ez) by lia.
  assert (HK : Zpos m * (2 * half_unit e) = Zpos mz * (2 * half_unit ez)).
  { rewrite Hfst.
    replace e with (ez + (e - ez)) at 1 by lia.
    rewrite half_unit_add by lia. subst ez. ring. }
  pose proof (half_unit_pos ez ltac:(lia)) as HH.
  rewrite HK. apply binary_round_aux_key.
  - nia.
  - exact Hez.
  - apply located_exact; lia.
  - change (Zdigits2 (Zpos mz)) with (Zpos (digits2_pos mz)).
    assert (Ed : Zpos (digits2_pos mz) + ez = Zpos (digits2_pos m) + e).
    { change (Zpos (digits2_pos mz)) with (Zdigits2 (Zpos mz)).
      change (Zpos (digits2_pos m)) with (Zdigits2 (Zpos m)).
      rewrite Hfst, Zdigits2_mul_pow2 by lia. lia. }
    rewrite Ed. lia.
Qed.

Lemma round_key_canonical (m : positive) (e : Z) :
  bounded prec emax m e = true ->
  round_key (Zpos m * (2 * half_unit e)) = S754_finite false m e.
Proof.
  intros Hb. destruct (bounded_canonical m e Hb) as [Hc He].
  assert (He' : -1074 <= e) by (rewrite fexp_eq in Hc; lia).
  rewrite <- binary_round_key by exact He'.
  unfold binary_round, shl_align. rewrite Hc, Z.sub_diag.
  unfold binary_round_aux, shr_fexp.
  change (Zdigits2 (Zpos m)) with (Zpos (digits2_pos m)).
  rewrite Hc, Z.sub_diag. cbn [shr shr_record_of_loc shr_m loc_of_shr_record
                               round_nearest_even].
  change (Zdigits2 (Zpos m)) with (Zpos (digits2_pos m)).
  rewrite Hc, Z.sub_diag. cbn [shr shr_m].
  change (emax - prec) with 971.
  now destruct (Z.leb_spec e 971); [|lia].
Qed.

Lemma round_key_nonneg (K : Z) : 0 <= K -> nonneg_float (round_key K) = true.
Proof.
  intros HK. pose proof (nearest_even_range K HK) as R.
  unfold round_key. destruct (nearest_even K (target_exponent K)); [reflexivity| |lia].
  repeat match goal with
         | |- context [if ?b then _ else _] => destruct b
         end; reflexivity.
Qed.

Lemma key_of_nonneg (f : spec_float) : 0 <= key_of f.
Proof.
  destruct f as [s|s| |[|] m e]; cbn [key_of]; try lia.
  assert (0 <= half_unit e) by (unfold half_unit; apply Z.pow_nonneg; lia).
  nia.
Qed.

(** The sum of two finite floats. *)
Lemma SFadd_finite (sx sy : bool) (mx my : positive) (ex ey : Z) :
  bounded prec emax mx ex = true -> bounded prec emax my ey = true ->
  let K := cond_Zopp sx (key_of (S754_finite false mx ex))
           + cond_Zopp sy (key_of (S754_finite false my ey)) in
  SFadd prec emax (S754_finite sx mx ex) (S754_finite sy my ey)
  = match K with
    | Z0 => S754_zero false
    | Zpos _ => round_key K
    | Zneg _ => with_sign true (round_key (- K))
    end.
Proof.
  intros Hx Hy K.
  destruct (bounded_canonical mx ex Hx) as [Hcx _].
  destruct (bounded_canonical my ey Hy) as [Hcy _].
  rewrite fexp_eq in Hcx, Hcy.
  unfold SFadd.
  pose proof (shl_align_value mx ex (Z.min ex ey)) as [_ Hfx].
  pose proof (shl_align_value my ey (Z.min ex ey)) as [_ Hfy].
  set (ez := Z.min ex ey) in *.
  replace (Z.min ex ez) with ez in Hfx by lia.
  replace (Z.min ey ez) with ez in Hfy by lia.
  set (M := cond_Zopp sx (Zpos (fst (shl_align mx ex ez)))
            + cond_Zopp sy (Zpos (fst (shl_align my ey ez)))).
  assert (HW : 0 < 2 * half_unit ez) by (pose proof (half_unit_pos ez ltac:(lia)); lia).
  assert (HK : K = M * (2 * half_unit ez)).
  { unfold K, M, key_of. rewrite Hfx, Hfy.
    replace ex with (ez + (ex - ez)) at 1 by lia.
    replace ey with (ez + (ey - ez)) at 1 by lia.
    rewrite !half_unit_add by lia.
    destruct sx, sy; cbn [cond_Zopp]; ring. }
  unfold binary_normalize.
  destruct M as [|p|p] eqn:EM.
  - rewrite HK. reflexivity.
  - rewrite binary_round_key by lia. rewrite <- HK.
    destruct K; try lia. reflexivity.
  - unfold binary_round.
    destruct (shl_align p ez _) as [mz ez'] eqn:Es.
    rewrite with_sign_round_aux.
    pose proof (binary_round_key p ez ltac:(lia)) as Hr.
    unfold binary_round in Hr. rewrite Es in Hr. rewrite Hr.
    replace (Zpos p * (2 * half_unit ez)) with (- K) by (rewrite HK; lia).
    destruct K; try lia. reflexivity.
Qed.
End FloatAddition.

Section FloatOrder.
Import Binary64.
Local Open Scope Z_scope.
Lemma SFltb_place (x y : spec_float) :
  not_nan x = true -> not_nan y = true ->
  (SFltb x y = true <-> place_lt (place x) (place y)).
Proof.
  unfold SFltb, place_lt.
  destruct x as [sx|[|]| |[|] mx ex]; destruct y as [sy|[|]| |[|] my ey];
    try discriminate; intros _ _; cbn [SFcompare place fst snd];
    try (destruct sx); try (destruct sy);
    try (split; [discriminate | lia]); try (split; [lia | reflexivity]).
  - change (Pos.compare_cont Eq mx my) with (Pos.compare mx my).
    destruct (Z.compare_spec ex ey); [|split; [discriminate | lia]|split; [lia | reflexivity]].
    destruct (Pos.compare_spec mx my); cbn [CompOpp];
      split; try reflexivity; try discriminate; lia.
  - change (Pos.compare_cont Eq mx my) with (Pos.compare mx my).
    destruct (Z.compare_spec ex ey); [|split; [lia | reflexivity]|split; [discriminate | lia]].
    destruct (Pos.compare_spec mx my);
      split; try reflexivity; try discriminate; lia.
Qed.

Lemma SFleb_place (x y : spec_float) :
  not_nan x = true -> not_nan y = true ->
  (SFleb x y = true <-> ~ place_lt (place y) (place x)).
Proof.
  unfold SFleb, place_lt.
  destruct x as [sx|[|]| |[|] mx ex]; destruct y as [sy|[|]| |[|] my ey];
    try discriminate; intros _ _; cbn [SFcompare place fst snd];
    try (destruct sx); try (destruct sy);
    try (split; [discriminate | lia]); try (split; [lia | reflexivity]).
  - change (Pos.compare_cont Eq mx my) with (Pos.compare mx my).
    destruct (Z.compare_spec ex ey); [|split; [discriminate | lia]|split; [lia | reflexivity]].
    destruct (Pos.compare_spec mx my); cbn [CompOpp];
      split; try reflexivity; try discriminate; lia.
  - change (Pos.compare_cont Eq mx my) with (Pos.compare mx my).
    destruct (Z.compare_spec ex ey); [|split; [lia | reflexivity]|split; [discriminate | lia]].
    destruct (Pos.compare_spec mx my);
      split; try reflexivity; try discriminate; lia.
Qed.

Lemma SFltb_false_leb (x y : spec_float) :
  not_nan x = true -> not_nan y = true ->
  (SFltb x y = false <-> SFleb y x = true).
Proof.
  intros Hx Hy. rewrite (SFleb_place y x Hy Hx).
  rewrite <- (SFltb_place x y Hx Hy). now destruct (SFltb x y).
Qed.

Lemma SFltb_asym (x y : spec_float) :
  not_nan x = true -> not_nan y = true ->
  SFltb x y = true -> SFltb y x = false.
Proof.
  intros Hx Hy H. apply (SFltb_place x y Hx Hy) in H.
  destruct (SFltb y x) eqn:E; [|reflexivity].
  apply (SFltb_place y x Hy Hx) in E. unfold place_lt in *. lia.
Qed.

Lemma SFleb_trans (x y z : spec_float) :
  not_nan x = true -> not_nan y = true -> not_nan z = true ->
  SFleb x y = true -> SFleb y z = true -> SFleb x z = true.
Proof.
  intros Hx Hy Hz Hxy Hyz.
  apply (SFleb_place x y Hx Hy) in Hxy. apply (SFleb_place y z Hy Hz) in Hyz.
  apply (SFleb_place x z Hx Hz). unfold place_lt in *. lia.
Qed.

Lemma SFleb_refl (x : spec_float) : not_nan x = true -> SFleb x x = true.
Proof. intros Hx. apply (SFleb_place x x Hx Hx). unfold place_lt. lia. Qed.

Lemma nonneg_not_nan (f : spec_float) : nonneg_float f = true -> not_nan f = true.
Proof. now destruct f. Qed.

Lemma SFleb_zero_nonneg (f : spec_float) (s : bool) :
  nonneg_float f = true -> SFleb (S754_zero s) f = true.
Proof. destruct f as [?|[|]| |[|] ? ?]; try discriminate; reflexivity. Qed.

Lemma SFleb_infinity (f : spec_float) :
  not_nan f = true -> SFleb f (S754_infinity false) = true.
Proof. destruct f as [?|[|]| |[|] ? ?]; try discriminate; reflexivity. Qed.
End FloatOrder.

Section AdditionOrder.
Import Binary64.
Local Open Scope Z_scope.
Lemma key_of_finite_pos (m : positive) (e : Z) :
  bounded prec emax m e = true -> 0 < key_of (S754_finite false m e).
Proof.
  intros Hb. destruct (bounded_canonical m e Hb) as [Hc _].
  rewrite fexp_eq in Hc. pose proof (half_unit_pos e ltac:(lia)).
  cbn [key_of]. nia.
Qed.

Lemma key_mono (x y : spec_float) :
  valid_binary x = true -> valid_binary y = true ->
  nonneg_float x = true -> nonneg_float y = true ->
  bounded_float x = true -> bounded_float y = true ->
  SFleb x y = true -> key_of x <= key_of y.
Proof.
  destruct x as [sx|sx| |[|] mx ex]; try discriminate;
    destruct y as [sy|sy| |[|] my ey]; try discriminate;
    intros Vx Vy _ _ _ _ Hle; cbn [SpecFloat.valid_binary] in Vx, Vy.
  - pose proof (key_of_finite_pos my ey Vy). change (key_of (S754_zero sx)) with 0.
    lia.
  - apply SFleb_finite in Hle.
    destruct (bounded_canonical mx ex Vx) as [Hcx _].
    destruct (bounded_canonical my ey Vy) as [Hcy _].
    rewrite fexp_eq in Hcx, Hcy. cbn [key_of].
    rewrite !two_half_unit by lia.
    pose proof (digits2_pos_bounds mx) as [_ Hx].
    pose proof (digits2_pos_bounds my) as [Hy _].
    destruct Hle as [Hlt|[-> Hm]].
    + assert (Ed : Zpos (digits2_pos my) = 53) by lia. rewrite Ed in Hy.
      assert (H1 : Zpos mx * 2 ^ (ex + 1076) < 2 ^ 53 * 2 ^ (ex + 1076)).
      { apply Z.mul_lt_mono_pos_r; [apply Z.pow_pos_nonneg; lia|].
        assert (2 ^ Zpos (digits2_pos mx) <= 2 ^ 53)
          by (apply Z.pow_le_mono_r; lia). lia. }
      assert (H2 : 2 ^ (53 - 1) * 2 ^ (ey + 1076) <= Zpos my * 2 ^ (ey + 1076)).
      { apply Z.mul_le_mono_nonneg_r; [apply Z.pow_nonneg; lia | exact Hy]. }
      rewrite <- !Z.pow_add_r in H1, H2 by lia.
      assert (2 ^ (53 + (ex + 1076)) <= 2 ^ (53 - 1 + (ey + 1076)))
        by (apply Z.pow_le_mono_r; lia).
      lia.
    + apply Z.mul_le_mono_nonneg_r; [apply Z.pow_nonneg; lia | exact Hm].
Qed.

Lemma SFadd_key (x y : spec_float) :
  valid_binary x = true -> valid_binary y = true ->
  nonneg_float x = true -> nonneg_float y = true ->
  bounded_float x = true -> bounded_float y = true ->
  SFadd prec emax x y = round_key (key_of x + key_of y)
  \/ (key_of x + key_of y = 0 /\ exists s, SFadd prec emax x y = S754_zero s).
Proof.
  destruct x as [sx|sx| |[|] mx ex]; try discriminate;
    destruct y as [sy|sy| |[|] my ey]; try discriminate;
    intros Vx Vy _ _ _ _; cbn [SpecFloat.valid_binary] in Vx, Vy.
  - right. split; [reflexivity|]. destruct sx, sy; simpl; eauto.
  - left. cbn [SFadd]. change (key_of (S754_zero sx)) with 0.
    rewrite Z.add_0_l. cbn [key_of]. now rewrite round_key_canonical.
  - left. cbn [SFadd]. change (key_of (S754_zero sy)) with 0.
    rewrite Z.add_0_r. cbn [key_of]. now rewrite round_key_canonical.
  - left. rewrite (SFadd_finite false false mx my ex ey Vx Vy).
    cbn [cond_Zopp].
    pose proof (key_of_finite_pos mx ex Vx). pose proof (key_of_finite_pos my ey Vy).
    destruct (key_of (S754_finite false mx ex) + key_of (S754_finite false my ey))
      eqn:EK; try lia. reflexivity.
Qed.

Lemma SFadd_nonneg (x y : spec_float) :
  valid_binary x = true -> valid_binary y = true ->
  nonneg_float x = true -> nonneg_float y = true ->
  nonneg_float (SFadd prec emax x y) = true.
Proof.
  intros Vx Vy Nx Ny.
  destruct (bounded_float x) eqn:Fx; [destruct (bounded_float y) eqn:Fy|].
  - destruct (SFadd_key x y Vx Vy Nx Ny Fx Fy) as [->|(_ & s & ->)];
      [|reflexivity].
    apply round_key_nonneg.
    pose proof (key_of_nonneg x). pose proof (key_of_nonneg y). lia.
  - destruct x as [sx|sx| |sx mx ex]; try discriminate;
      destruct y as [sy|[|]| |sy my ey]; try discriminate; reflexivity.
  - destruct x as [sx|[|]| |sx mx ex]; try discriminate;
      destruct y as [sy|[|]| |[|] my ey]; try discriminate; reflexivity.
Qed.

Lemma SFleb_finite_right (x y : spec_float) :
  nonneg_float x = true -> bounded_float y = true ->
  SFleb x y = true -> bounded_float x = true.
Proof.
  destruct x as [sx|[|]| |sx mx ex]; try discriminate; try reflexivity.
  destruct y as [sy|sy| |[|] my ey]; discriminate.
Qed.

Lemma round_key_0 : round_key 0 = S754_zero false.
Proof. reflexivity. Qed.

Theorem SFadd_mono (a a' b b' : spec_float) :
  valid_binary a = true -> valid_binary a' = true -> valid_binary b = true -> valid_binary b' = true ->
  nonneg_float a = true -> nonneg_float a' = true ->
  nonneg_float b = true -> nonneg_float b' = true ->
  SFleb a a' = true -> SFleb b b' = true ->
  SFleb (SFadd prec emax a b) (SFadd prec emax a' b') = true.
Proof.
  intros Va Va' Vb Vb' Na Na' Nb Nb' Ha Hb.
  pose proof (SFadd_nonneg a b Va Vb Na Nb) as Nab.
  destruct (bounded_float a') eqn:Fa'; [destruct (bounded_float b') eqn:Fb'|].
  - pose proof (SFleb_finite_right a a' Na Fa' Ha) as Fa.
    pose proof (SFleb_finite_right b b' Nb Fb' Hb) as Fb.
    pose proof (key_mono a a' Va Va' Na Na' Fa Fa' Ha).
    pose proof (key_mono b b' Vb Vb' Nb Nb' Fb Fb' Hb).
    pose proof (key_of_nonneg a). pose proof (key_of_nonneg b).
    pose proof (round_key_mono (key_of a + key_of b) (key_of a' + key_of b')
                               ltac:(lia)) as Hmono.
    destruct (SFadd_key a b Va Vb Na Nb Fa Fb) as [->|(E0 & s & ->)];
      destruct (SFadd_key a' b' Va' Vb' Na' Nb' Fa' Fb') as [->|(E0' & s' & ->)].
    + exact Hmono.
    + rewrite E0' in Hmono. rewrite round_key_0 in Hmono.
      destruct (round_key (key_of a + key_of b)) as [?|[|]| |[|] ? ?];
        try discriminate; reflexivity.
    + apply SFleb_zero_nonneg. apply round_key_nonneg. lia.
    + reflexivity.
  - assert (E : SFadd prec emax a' b' = S754_infinity false).
    { destruct a' as [?|[|]| |[|] ? ?]; try discriminate;
        destruct b' as [?|[|]| |[|] ? ?]; try discriminate; reflexivity. }
    rewrite E. apply SFleb_infinity. now apply nonneg_not_nan.
  - assert (E : SFadd prec emax a' b' = S754_infinity false).
    { destruct a' as [?|[|]| |[|] ? ?]; try discriminate;
        destruct b' as [?|[|]| |[|] ? ?]; try discriminate; reflexivity. }
    rewrite E. apply SFleb_infinity. now apply nonneg_not_nan.
Qed.

Lemma SFadd_zero_r (a : spec_float) :
  nonneg_float a = true ->
  SFleb a (SFadd prec emax a (S754_zero false)) = true.
Proof.
  destruct a as [[|]|[|]| |[|] m e]; try discriminate; intros _;
    cbn [SFadd]; try reflexivity.
  apply SFleb_refl. reflexivity.
Qed.

(** Adding a finite float never gives a NaN. *)
Lemma SFadd_not_nan (a b : spec_float) :
  valid_binary a = true -> valid_binary b = true ->
  not_nan a = true -> bounded_float b = true ->
  not_nan (SFadd prec emax a b) = true.
Proof.
  intros Va Vb Na Fb.
  destruct a as [sa|sa| |sa ma ea]; try discriminate;
    destruct b as [sb|sb| |sb mb eb]; try discriminate;
    cbn [SpecFloat.valid_binary] in Va, Vb.
  - destruct sa, sb; reflexivity.
  - reflexivity.
  - reflexivity.
  - reflexivity.
  - reflexivity.
  - rewrite (SFadd_finite sa sb ma mb ea eb Va Vb).
    set (K := cond_Zopp sa _ + cond_Zopp sb _).
    destruct K as [|p|p] eqn:EK; [reflexivity| |].
    + apply nonneg_not_nan, round_key_nonneg. lia.
    + pose proof (round_key_nonneg (- Zneg p) ltac:(lia)) as Hn.
      destruct (round_key (- Zneg p)); try discriminate; reflexivity.
Qed.
End AdditionOrder.

Section FloatDivision.
Import Binary64.
Local Open Scope Z_scope.
(** The part of the key below the quotient [q]: [t] full half-steps and
    a rest. *)
Lemma remainder_key (h n r t u : Z) :
  0 < n -> 0 <= r < n -> 1 <= h ->
  2 * h * r = t * n + u -> 0 <= u < n ->
  let st := if u =? 0 then 0 else 1 in
  0 <= 2 * t + st < 4 * h
  /\ (r = 0 -> 2 * t + st = 0)
  /\ (0 < r -> 2 * r < n -> 0 < 2 * t + st < 2 * h)
  /\ (2 * r = n -> 2 * t + st = 2 * h)
  /\ (n < 2 * r -> 2 * h < 2 * t + st).
Proof.
  intros Hn Hr Hh HY Hu st.
  assert (Hst : 0 <= st <= 1 /\ (u = 0 -> st = 0) /\ (u <> 0 -> st = 1)).
  { unfold st. destruct (Z.eqb_spec u 0); lia. }
  clearbody st.
  assert (Ht0 : 0 <= t).
  { destruct (Z_lt_le_dec t 0); [|assumption]. exfalso. nia. }
  assert (Ht1 : t < 2 * h).
  { destruct (Z_lt_le_dec t (2 * h)); [assumption|]. exfalso. nia. }
  split; [lia|]. split; [|split; [|split]].
  - intros ->. assert (t = 0) by nia. assert (u = 0) by nia. lia.
  - intros Hr0 Hlt. split.
    + destruct (Z.eq_dec t 0) as [->|]; [|lia]. assert (u <> 0) by nia. lia.
    + assert (t < h) by nia. lia.
  - intros E. assert (t = h) by nia. assert (u = 0) by nia. lia.
  - intros Hgt. assert (h <= t) by nia.
    destruct (Z.eq_dec t h) as [->|]; [|lia]. assert (u <> 0) by nia. lia.
Qed.
End FloatDivision.

Section Reciprocal.
Import Binary64.
Local Open Scope Z_scope.

Lemma SFdiv_core_one (p : positive) :
  SFdiv_core_binary prec emax 1 0 (Zpos p) 0
  = (2 ^ (- quotient_exponent (Zpos p)) / Zpos p,
     quotient_exponent (Zpos p),
     new_location (Zpos p) (2 ^ (- quotient_exponent (Zpos p)) mod Zpos p)).
Proof.
  unfold SFdiv_core_binary, quotient_exponent.
  change (Zdigits2 1) with 1. rewrite fexp_eq.
  pose proof (Zdigits2_pos (Zpos p) ltac:(lia)) as Hd.
  set (d := Zdigits2 (Zpos p)) in *.
  replace (Z.min (Z.max (1 + 0 - (d + 0) - 53) (-1074)) (0 - 0))
    with (Z.max (-52 - d) (-1074)) by lia.
  set (e' := Z.max (-52 - d) (-1074)).
  replace (0 - 0 - e') with (- e') by lia.
  destruct (- e') as [|s|s] eqn:Es; try lia.
  rewrite Z.shiftl_1_l. unfold Z.div, Z.modulo.
  now destruct (Z.div_eucl (2 ^ Zpos s) (Zpos p)).
Qed.

Lemma new_location_cases (n r : Z) :
  0 < n -> 0 <= r < n ->
  (r = 0 /\ new_location n r = loc_Exact)
  \/ (0 < r /\ 2 * r < n /\ new_location n r = loc_Inexact Lt)
  \/ (2 * r = n /\ new_location n r = loc_Inexact Eq)
  \/ (n < 2 * r /\ new_location n r = loc_Inexact Gt).
Proof.
  intros Hn Hr. unfold new_location.
  destruct (Z.even n) eqn:Ev;
    unfold new_location_even, new_location_odd;
    (destruct (Z.eqb_spec r 0) as [->|Hr0]; [now left | right]).
  - destruct (Z.compare_spec (2 * r) n); [right; left | left | right; right];
      repeat split; lia.
  - assert (Hodd : Z.odd n = true) by (now rewrite <- Z.negb_even, Ev).
    apply Z.odd_spec in Hodd. destruct Hodd as [j Hj].
    destruct (Z.compare_spec (2 * r + 1) n); [left | left | right; right];
      repeat split; lia.
Qed.

Lemma located_reciprocal (p : positive) :
  located (reciprocal_key (Zpos p)) (quotient_exponent (Zpos p))
          (shr_record_of_loc
             (2 ^ (- quotient_exponent (Zpos p)) / Zpos p)
             (new_location (Zpos p)
                           (2 ^ (- quotient_exponent (Zpos p)) mod Zpos p))).
Proof.
  set (n := Zpos p). set (e' := quotient_exponent n).
  assert (He : -1074 <= e' <= -53).
  { unfold e', quotient_exponent.
    pose proof (Zdigits2_pos n ltac:(lia)). lia. }
  set (s := - e').
  set (h := 2 ^ (1074 - s)).
  assert (Hh : 1 <= h) by (unfold h; pose proof (Z.pow_pos_nonneg 2 (1074 - s)); lia).
  assert (EH : half_unit e' = 2 * h).
  { unfold half_unit, h. replace (e' + 1075) with (Z.succ (1074 - s)) by lia.
    rewrite Z.pow_succ_r by lia. reflexivity. }
  assert (Hn : 0 < n) by (unfold n; lia).
  pose proof (Z.div_mod (2 ^ s) n ltac:(lia)) as Dq.
  pose proof (Z.mod_pos_bound (2 ^ s) n Hn) as Br.
  set (q := 2 ^ s / n) in *. set (r := 2 ^ s mod n) in *.
  assert (Hq : 0 <= q) by (apply Z.div_pos; [apply Z.pow_nonneg|]; lia).
  pose proof (Z.div_mod (2 * h * r) n ltac:(lia)) as Dt.
  pose proof (Z.mod_pos_bound (2 * h * r) n Hn) as Bu.
  set (t := 2 * h * r / n) in *. set (u := 2 * h * r mod n) in *.
  assert (E1075 : 2 ^ 1075 = (2 * h * q) * n + 2 * h * r).
  { replace 1075 with (Z.succ (1074 - s) + s) by lia.
    rewrite Z.pow_add_r, Z.pow_succ_r by lia. fold h. rewrite Dq at 1. ring. }
  assert (ET : 2 ^ 1075 / n = 2 * h * q + t).
  { rewrite E1075. rewrite Z.div_add_l by lia. reflexivity. }
  assert (EU : 2 ^ 1075 mod n = u).
  { rewrite E1075. rewrite Z.add_comm, Z.mod_add by lia. reflexivity. }
  assert (EK : reciprocal_key n
               = q * (2 * (2 * h)) + (2 * t + (if u =? 0 then 0 else 1))).
  { unfold reciprocal_key. rewrite ET, EU. ring. }
  destruct (remainder_key h n r t u Hn Br Hh ltac:(lia) Bu)
    as (Hrange & H0 & Hlt & Heq & Hgt).
  set (c := 2 * t + (if u =? 0 then 0 else 1)) in *.
  unfold located. rewrite EH, EK.
  assert (Em : (q * (2 * (2 * h)) + c) / (2 * (2 * h)) = q).
  { rewrite Z.add_comm, Z.div_add by lia. rewrite Z.div_small by lia. lia. }
  rewrite shr_record_of_loc_m, Em. split; [reflexivity|].
  replace (q * (2 * (2 * h)) + c) with (c + (2 * q) * (2 * h)) by ring.
  rewrite Z.div_add, Z.mod_add by lia.
  destruct (new_location_cases n r Hn Br)
    as [(Hr0 & ->)|[(Hr0 & Hr2 & ->)|[(Hr2 & ->)|(Hr2 & ->)]]];
    cbn [shr_record_of_loc shr_r shr_s].
  - rewrite (H0 Hr0). rewrite Z.div_0_l, Z.mod_0_l by lia.
    rewrite Z.add_0_l, Z.odd_mul. now split.
  - specialize (Hlt Hr0 Hr2).
    rewrite Z.div_small, Z.mod_small by lia.
    rewrite Z.add_0_l, Z.odd_mul. split; [reflexivity|].
    symmetry. apply negb_true_iff, Z.eqb_neq. lia.
  - rewrite (Heq Hr2). rewrite Z.div_same, Z.mod_same by lia.
    rewrite Z.odd_add_mul_2. now split.
  - specialize (Hgt Hr2).
    assert (Ec : c = (c - 2 * h) + 1 * (2 * h)) by ring.
    rewrite Ec. rewrite Z.div_add, Z.mod_add by lia.
    rewrite Z.div_small, Z.mod_small by lia.
    rewrite Z.odd_add_mul_2. split; [reflexivity|].
    symmetry. apply negb_true_iff, Z.eqb_neq. lia.
Qed.

Lemma quotient_digits (p : positive) :
  -1074 < quotient_exponent (Zpos p) ->
  53 <= Zdigits2 (2 ^ (- quotient_exponent (Zpos p)) / Zpos p).
Proof.
  unfold quotient_exponent. set (n := Zpos p).
  pose proof (Zdigits2_pos n ltac:(lia)) as Hd.
  pose proof (Zdigits2_bounds n ltac:(lia)) as [_ Hhi].
  set (d := Zdigits2 n) in *. intros He.
  replace (- Z.max (-52 - d) (-1074)) with (52 + d) by lia.
  assert (Hq : 2 ^ 52 <= 2 ^ (52 + d) / n).
  { apply Z.div_le_lower_bound; [lia|].
    rewrite Z.pow_add_r by lia.
    assert (0 < 2 ^ 52) by reflexivity. nia. }
  apply Zdigits2_ge; [exact Hq|]. assert (0 < 2 ^ 52) by reflexivity. lia.
Qed.

Theorem SFdiv_reciprocal (s : bool) (p : positive) :
  SFdiv prec emax (S754_finite false 1 0) (S754_finite s p 0)
  = with_sign s (round_key (reciprocal_key (Zpos p))).
Proof.
  unfold SFdiv. rewrite SFdiv_core_one. cbn [xorb].
  rewrite with_sign_round_aux. f_equal.
  pose proof (Zdigits2_pos (Zpos p) ltac:(lia)) as Hd.
  assert (He : -1074 <= quotient_exponent (Zpos p))
    by (unfold quotient_exponent; lia).
  apply binary_round_aux_key.
  - unfold reciprocal_key.
    assert (0 <= 2 ^ 1075 / Zpos p)
      by (apply Z.div_pos; [apply Z.pow_nonneg|]; lia).
    destruct (_ =? 0); lia.
  - exact He.
  - apply located_reciprocal.
  - rewrite fexp_eq.
    destruct (Z.eq_dec (quotient_exponent (Zpos p)) (-1074)) as [E|N]; [lia|].
    pose proof (quotient_digits p ltac:(lia)).
    unfold quotient_exponent in *. lia.
Qed.
End Reciprocal.

Section ReciprocalOrder.
Import Binary64.
Local Open Scope Z_scope.
Lemma reciprocal_key_nonneg (n : Z) : 0 < n -> 0 <= reciprocal_key n.
Proof.
  intros Hn. unfold reciprocal_key.
  assert (0 <= 2 ^ 1075 / n) by (apply Z.div_pos; [apply Z.pow_nonneg|]; lia).
  destruct (_ =? 0); lia.
Qed.

Lemma reciprocal_key_antitone (m n : Z) :
  0 < m -> m <= n -> reciprocal_key n <= reciprocal_key m.
Proof.
  intros Hm Hmn. unfold reciprocal_key.
  assert (HP : 0 <= 2 ^ 1075) by (apply Z.pow_nonneg; lia).
  pose proof (Z.div_le_compat_l (2 ^ 1075) m n HP ltac:(lia)) as Hq.
  pose proof (Z.div_mod (2 ^ 1075) m ltac:(lia)) as Dm.
  pose proof (Z.div_mod (2 ^ 1075) n ltac:(lia)) as Dn.
  pose proof (Z.mod_pos_bound (2 ^ 1075) m ltac:(lia)) as Bm.
  pose proof (Z.mod_pos_bound (2 ^ 1075) n ltac:(lia)) as Bn.
  assert (0 <= 2 ^ 1075 / n) by (apply Z.div_pos; lia).
  set (P := 2 ^ 1075) in *.
  set (tm := P / m) in *. set (tn := P / n) in *.
  set (um := P mod m) in *. set (un := P mod n) in *.
  destruct (Z.eqb_spec un 0), (Z.eqb_spec um 0); try lia.
  destruct (Z.eq_dec tn tm) as [E|]; [|lia].
  exfalso. rewrite E in *. nia.
Qed.

Lemma round_key_valid (K : Z) : 0 <= K -> valid_binary (round_key K) = true.
Proof.
  intros HK. pose proof (nearest_even_range K HK) as R.
  pose proof (nearest_even_bounds K (target_exponent K)) as B.
  pose proof (target_exponent_ge K) as HE.
  unfold round_key.
  destruct (Z.eq_dec (target_exponent K) (-1074)) as [E74|N74].
  - set (E := target_exponent K) in *. set (n := nearest_even K E) in *.
    destruct n as [|p|p] eqn:En; [reflexivity| |lia].
    change (emax - prec) with 971.
    destruct (Z.eqb_spec (Zpos p) (2 ^ 53)) as [E53|N53].
    + destruct (Z.leb_spec (E + 1) 971); [|reflexivity].
      cbn [SpecFloat.valid_binary]. unfold bounded, canonical_mantissa.
      rewrite fexp_eq. change (Zpos (digits2_pos (2 ^ 52))) with 53.
      apply andb_true_iff. split; [apply Z.eqb_eq | apply Z.leb_le];
        change (emax - prec) with 971; lia.
    + destruct (Z.leb_spec E 971); [|reflexivity].
      cbn [SpecFloat.valid_binary]. unfold bounded, canonical_mantissa.
      rewrite fexp_eq.
      assert (Hd : Zdigits2 (Zpos p) <= 53) by (apply Zdigits2_le; lia).
      change (Zdigits2 (Zpos p)) with (Zpos (digits2_pos p)) in Hd.
      apply andb_true_iff. split; [apply Z.eqb_eq | apply Z.leb_le];
        change (emax - prec) with 971; lia.
  - pose proof (target_exponent_normal K HK ltac:(lia)) as Hn.
    set (E := target_exponent K) in *. set (n := nearest_even K E) in *.
    destruct n as [|p|p] eqn:En; [reflexivity| |lia].
    change (emax - prec) with 971.
    destruct (Z.eqb_spec (Zpos p) (2 ^ 53)) as [E53|N53].
    + destruct (Z.leb_spec (E + 1) 971); [|reflexivity].
      cbn [SpecFloat.valid_binary]. unfold bounded, canonical_mantissa.
      rewrite fexp_eq. change (Zpos (digits2_pos (2 ^ 52))) with 53.
      apply andb_true_iff. split; [apply Z.eqb_eq | apply Z.leb_le];
        change (emax - prec) with 971; lia.
    + destruct (Z.leb_spec E 971); [|reflexivity].
      cbn [SpecFloat.valid_binary]. unfold bounded, canonical_mantissa.
      rewrite fexp_eq.
      assert (Hd : Zdigits2 (Zpos p) <= 53) by (apply Zdigits2_le; lia).
      assert (Hd' : 53 <= Zdigits2 (Zpos p)) by (apply Zdigits2_ge; lia).
      change (Zdigits2 (Zpos p)) with (Zpos (digits2_pos p)) in Hd, Hd'.
      apply andb_true_iff. split; [apply Z.eqb_eq | apply Z.leb_le];
        change (emax - prec) with 971; lia.
Qed.

Lemma with_sign_valid (s : bool) (f : spec_float) :
  valid_binary f = true -> valid_binary (with_sign s f) = true.
Proof. now destruct f. Qed.

Lemma round_key_one : round_key (reciprocal_key 1) = S754_finite false (2 ^ 52) (-52).
Proof. vm_compute. reflexivity. Qed.

(** [1 / n] is a finite float between [0] and [1]. *)
Lemma round_reciprocal_finite (n : Z) :
  0 < n -> bounded_float (round_key (reciprocal_key n)) = true.
Proof.
  intros Hn.
  pose proof (reciprocal_key_nonneg n Hn) as H0.
  pose proof (reciprocal_key_antitone 1 n ltac:(lia) ltac:(lia)) as H1.
  pose proof (round_key_mono _ _ (conj H0 H1)) as Hle.
  rewrite round_key_one in Hle.
  exact (SFleb_finite_right _ (S754_finite false (2 ^ 52) (-52))
                            (round_key_nonneg _ H0) eq_refl Hle).
Qed.
End ReciprocalOrder.

Section Binary64Laws.
Import Binary64.
Local Open Scope Z_scope.

Lemma Prim2SF_true_divide (n : Z) :
  n <> 0 ->
  Prim2SF (true_divide n)
  = with_sign (n <? 0) (round_key (reciprocal_key (Z.abs n))).
Proof.
  intros Hn. unfold true_divide.
  assert (E : SFdiv prec emax (S754_finite false 1 0) (of_int n)
              = with_sign (n <? 0) (round_key (reciprocal_key (Z.abs n)))).
  { destruct n as [|p|p]; [contradiction| |]; cbn [of_int];
      apply SFdiv_reciprocal. }
  rewrite E. apply Prim2SF_SF2Prim, with_sign_valid, round_key_valid.
  apply reciprocal_key_nonneg. lia.
Qed.

Lemma true_divide_finite (n : Z) :
  n <> 0 -> bounded_float (Prim2SF (true_divide n)) = true.
Proof.
  intros Hn. rewrite Prim2SF_true_divide by exact Hn.
  pose proof (round_reciprocal_finite (Z.abs n) ltac:(lia)) as Hf.
  now destruct (round_key (reciprocal_key (Z.abs n))).
Qed.

Lemma true_divide_nonneg (n : Z) : 0 < n -> nonneg (true_divide n).
Proof.
  intros Hn. unfold nonneg. rewrite Prim2SF_true_divide by lia.
  replace (n <? 0) with false by (symmetry; apply Z.ltb_ge; lia).
  pose proof (round_key_nonneg (reciprocal_key (Z.abs n))
                               (reciprocal_key_nonneg (Z.abs n) ltac:(lia))) as Hr.
  now destruct (round_key (reciprocal_key (Z.abs n))) as [?|[|]| |[|] ? ?].
Qed.

(** [1 / n] on some integers, small and large, written as
    [float.hex] of CPython writes them. *)
Lemma true_divide_examples :
  true_divide 3 = 0x1.5555555555555p-2%float
  /\ true_divide 61 = 0x1.0c9714fbcda3bp-6%float
  /\ true_divide (2 ^ 53 + 1) = 0x1.fffffffffffffp-54%float
  /\ true_divide (2 ^ 64) = 0x1p-64%float
  /\ true_divide (-7) = (-0x1.2492492492492p-3)%float
  /\ true_divide (2 ^ 1074) = 0x1p-1074%float
  /\ true_divide (2 ^ 1075) = 0%float
  /\ true_divide (10 ^ 30) = 0x1.4484bfeebc2a0p-100%float.
Proof. repeat split; vm_compute; reflexivity. Qed.

Lemma nonneg_sound (x : float) : nonneg x -> sound x.
Proof. apply nonneg_not_nan. Qed.

Lemma ltb_false_leb (x y : float) :
  sound x -> sound y -> ((x <? y)%float = false <-> (y <=? x)%float = true).
Proof.
  intros Hx Hy. rewrite ltb_spec, leb_spec. now apply SFltb_false_leb.
Qed.

Lemma SFcompare_Eq_sym (x y : spec_float) :
  SFcompare x y = Some Eq -> SFcompare y x = Some Eq.
Proof.
  destruct x as [[|]|[|]| |[|] m e], y as [[|]|[|]| |[|] m' e'];
    cbn [SFcompare]; try discriminate; try reflexivity;
    change (Pos.compare_cont Eq m' m) with (m' ?= m)%positive;
    change (Pos.compare_cont Eq m m') with (m ?= m')%positive;
    rewrite (Z.compare_antisym e e'), (Pos.compare_antisym m m');
    destruct (e ?= e'); cbn [CompOpp]; try discriminate;
    destruct (m ?= m')%positive; cbn [CompOpp]; try discriminate; reflexivity.
Qed.

(** Equal floats: neither is below the other. *)
Lemma eqb_not_ltb (x y : float) :
  (x =? y)%float = true -> (y <? x)%float = false.
Proof.
  rewrite eqb_spec, ltb_spec. unfold SFeqb, SFltb.
  destruct (SFcompare (Prim2SF x) (Prim2SF y)) as [[| |]|] eqn:E;
    try discriminate.
  intros _. now rewrite (SFcompare_Eq_sym _ _ E).
Qed.

Lemma binary64_order : ScoreOrder float (H := arith) sound.
Proof.
  constructor.
  - reflexivity.
  - intros a n Ha Hn. unfold sound. cbn [add recip arith].
    rewrite add_spec. apply SFadd_not_nan.
    + apply Prim2SF_valid.
    + apply Prim2SF_valid.
    + exact Ha.
    + now apply true_divide_finite.
  - intros a b Ha Hb. cbn [ltb arith]. rewrite !ltb_spec.
    now apply SFltb_asym.
  - intros a b c Ha Hb Hc. cbn [ltb arith].
    rewrite !ltb_false_leb by assumption. rewrite !leb_spec.
    intros Hab Hbc. exact (SFleb_trans _ _ _ Hc Hb Ha Hbc Hab).
Qed.

Lemma binary64_monotone : ScoreMonotone float (H := arith) nonneg.
Proof.
  constructor.
  - reflexivity.
  - apply true_divide_nonneg.
  - intros a b Ha Hb. unfold nonneg. cbn [add arith]. rewrite add_spec.
    apply SFadd_nonneg; try apply Prim2SF_valid; assumption.
  - intros a b Ha Hb. cbn [ltb arith]. rewrite !ltb_spec.
    apply SFltb_asym; now apply nonneg_not_nan.
  - intros a b c Ha Hb Hc. cbn [ltb arith].
    rewrite !ltb_false_leb by (apply nonneg_sound; assumption).
    rewrite !leb_spec.
    intros Hab Hbc.
    apply (SFleb_trans _ (Prim2SF b)); try (now apply nonneg_not_nan); assumption.
  - intros a Ha. cbn [ltb zero arith].
    rewrite ltb_false_leb by (try apply nonneg_sound; try assumption; reflexivity).
    rewrite leb_spec. change (Prim2SF 0) with (S754_zero false).
    now apply SFleb_zero_nonneg.
  - intros a a' b b' Ha Ha' Hb Hb'. cbn [ltb add arith].
    assert (Hs : forall x y, nonneg x -> nonneg y -> sound (x + y)%float).
    { intros x y Hx Hy. apply nonneg_sound. unfold nonneg. rewrite add_spec.
      apply SFadd_nonneg; try apply Prim2SF_valid; assumption. }
    rewrite !ltb_false_leb
      by first [apply Hs; assumption | apply nonneg_sound; assumption].
    rewrite !leb_spec, !add_spec.
    apply SFadd_mono; try apply Prim2SF_valid; assumption.
  - intros a Ha. cbn [ltb add zero arith].
    assert (Hs : sound (a + 0)%float).
    { apply nonneg_sound. unfold nonneg. rewrite add_spec.
      apply SFadd_nonneg; try apply Prim2SF_valid; [assumption | reflexivity]. }
    rewrite ltb_false_leb by first [exact Hs | apply nonneg_sound; assumption].
    rewrite leb_spec, add_spec. change (Prim2SF 0) with (S754_zero false).
    now apply SFadd_zero_r.
  - intros m n Hm Hmn. cbn [ltb recip arith].
    rewrite ltb_false_leb by (apply nonneg_sound, true_divide_nonneg; lia).
    rewrite leb_spec, !Prim2SF_true_divide by lia.
    replace (n <? 0) with false by (symmetry; apply Z.ltb_ge; lia).
    replace (m <? 0) with false by (symmetry; apply Z.ltb_ge; lia).
    rewrite !Z.abs_eq by lia.
    pose proof (round_key_mono (reciprocal_key n) (reciprocal_key m)
                  (conj (reciprocal_key_nonneg n ltac:(lia))
                        (reciprocal_key_antitone m n Hm Hmn))) as Hle.
    pose proof (round_key_nonneg _ (reciprocal_key_nonneg n ltac:(lia))) as Nn.
    pose proof (round_key_nonneg _ (reciprocal_key_nonneg m ltac:(lia))) as Nm.
    destruct (round_key (reciprocal_key n)) as [?|[|]| |[|] ? ?];
      destruct (round_key (reciprocal_key m)) as [?|[|]| |[|] ? ?];
      try discriminate; exact Hle.
Qed.
End Binary64Laws.


(** ** Order of the fused result *)

Section FusionOrder.
Context {Doc : Type} `{Document Doc} {score : Type} `{ScoreArith score}.
Context {sound : score -> Prop} {order : ScoreOrder score sound}.

Lemma fused_scores_sound (results : list (list Doc)) (k : Z) fused :
  fused_scores results k = Ok fused ->
  Forall (fun item => sound (snd item)) fused.
Proof.
  apply fused_scores_dom; [apply sound_zero|].
  intros s rank Hs Hn. now apply sound_add.
Qed.

Lemma rrf_order_items (results : list (list Doc)) (k : Z) out :
  reciprocal_rank_fusion results k = Ok out ->
  exists items,
    out = map load_entry items
    /\ Forall (fun item => sound (snd item)) items
    /\ StronglySorted (fun e1 e2 => ltb (snd e1) (snd e2) = false) out
    /\ (forall l1 i1 l2 i2 l3,
           items = l1 ++ i1 :: l2 ++ i2 :: l3 ->
           ltb (snd i2) (snd i1) = false ->
           exists pre post,
             map dumps (List.concat results) = pre ++ fst i1 :: post
             /\ ~ In (fst i1) pre /\ ~ In (fst i2) pre /\ In (fst i2) post).
Proof.
  unfold reciprocal_rank_fusion. destruct results as [|docs rest]; [discriminate|].
  destruct (fused_scores (docs :: rest) k) as [fused|e] eqn:Hrun; [|discriminate].
  pose proof (fused_scores_sound _ _ _ Hrun) as Hsound.
  intros [= <-]. exists (sorted_reverse ltb snd fused).
  split; [reflexivity|]. split; [|split].
  - apply Forall_forall. intros item Hin.
    apply (Permutation_in _ (sorted_reverse_Permutation ltb snd fused)) in Hin.
    rewrite Forall_forall in Hsound. now apply Hsound.
  - apply StronglySorted_before. intros e1 e2 Hb.
    apply before_map_inv in Hb. destruct Hb as (i1 & i2 & -> & -> & Hb).
    simpl.
    exact (proj1 (StronglySorted_before _ _)
                 (sorted_reverse_descending ltb snd sound ltb_asym geb_trans
                                            fused Hsound)
                 i1 i2 Hb).
  - intros l1 i1 l2 i2 l3 Hsplit Htie.
    assert (Hb : before i1 i2 (sorted_reverse ltb snd fused)).
    { apply before_split. now exists l1, l2, l3. }
    pose proof (fused_scores_NoDup _ _ _ Hrun) as Hnd.
    apply (sorted_reverse_ties ltb snd sound ltb_asym geb_trans) in Hb;
      [|exact Hsound | exact (NoDup_map_inv fst _ Hnd) | exact Htie].
    apply (before_map fst) in Hb.
    rewrite (fused_scores_keys _ _ _ Hrun) in Hb.
    apply first_seen_before in Hb. simpl in Hb.
    destruct Hb as [[]|[([] & _)|(_ & _ & pre & post & E & Hpre)]].
    now exists pre, post.
Qed.
End FusionOrder.

(** C2.  With binary64 scores, whenever [reciprocal_rank_fusion] returns,
    its entries are in descending order of score: every entry is at least
    as high as every later one.  Of two entries with equal scores, the
    earlier one is the document met first when the lists are scanned first
    to last and front to back.  The result is a function of the lists and
    [k]: a second call returns the same sequence. *)
Theorem rrf_order :
  forall (Doc : Type) (D : Document Doc) (results : list (list Doc)) (k : Z)
         (out : list (Doc * float)),
    @reciprocal_rank_fusion Doc D float Binary64.arith results k = Ok out ->
    exists items,
      out = map load_entry items
      /\ StronglySorted (fun e1 e2 => PrimFloat.leb (snd e2) (snd e1) = true) out
      /\ (forall l1 i1 l2 i2 l3,
             items = l1 ++ i1 :: l2 ++ i2 :: l3 ->
             PrimFloat.eqb (snd i1) (snd i2) = true ->
             exists pre post,
               map dumps (List.concat results) = pre ++ fst i1 :: post
               /\ ~ In (fst i1) pre /\ ~ In (fst i2) pre /\ In (fst i2) post)
      /\ (forall out',
             @reciprocal_rank_fusion Doc D float Binary64.arith results k = Ok out' ->
             out' = out).
Proof.
  intros Doc D results k out Hrun.
  destruct (rrf_order_items (order := binary64_order) results k out Hrun)
    as (items & E & Hsound & Hsorted & Hties).
  exists items. split; [exact E|]. split; [|split].
  - apply StronglySorted_before. intros e1 e2 Hb.
    pose proof (proj1 (StronglySorted_before _ _) Hsorted e1 e2 Hb) as Hlt.
    destruct (before_In _ _ _ Hb) as [H1 H2].
    rewrite E in H1, H2. apply in_map_iff in H1, H2.
    destruct H1 as (i1 & <- & H1), H2 as (i2 & <- & H2).
    rewrite Forall_forall in Hsound.
    apply (ltb_false_leb (snd i1) (snd i2)); [now apply Hsound.. | exact Hlt].
  - intros l1 i1 l2 i2 l3 Hsplit Htie.
    apply (Hties l1 i1 l2 i2 l3 Hsplit). now apply eqb_not_ltb.
  - intros out' Hrun'. congruence.
Qed.

(** The lists [[A, B], [B, A]] with [k = 1]: A and B tie at 1.5 and A,
    seen first, comes first. *)
Lemma rrf_order_witness :
  exists items,
    [("A", 1.5%float); ("B", 1.5%float)]
    = map (@load_entry _ TextDocument.document _) items
    /\ forall l1 i1 l2 i2 l3,
      items = l1 ++ i1 :: l2 ++ i2 :: l3 ->
      PrimFloat.eqb (snd i1) (snd i2) = true ->
      exists pre post,
        ["A"; "B"; "B"; "A"] = pre ++ fst i1 :: post
        /\ ~ In (fst i1) pre /\ ~ In (fst i2) pre /\ In (fst i2) post.
Proof.
  destruct (@rrf_order string TextDocument.document
                       [["A"; "B"]; ["B"; "A"]] 1%Z
                       [("A", 1.5%float); ("B", 1.5%float)])
    as (items & E & _ & Hties & _).
  - vm_compute. reflexivity.
  - exists items. split; [exact E | exact Hties].
Defined.

(** ** Monotonicity of the fused score *)

Section FusionMonotone.
Context {Doc : Type} `{Document Doc} {score : Type} `{ScoreArith score}.
Context {nonneg : score -> Prop} {monotone : ScoreMonotone score nonneg}.
Implicit Types (acc x : score) (c : list score) (docs : list Doc).

Lemma ge_refl acc : nonneg acc -> ltb acc acc = false.
Proof.
  intros Ha. destruct (ltb acc acc) eqn:E; [|reflexivity].
  now rewrite (nonneg_asym _ _ Ha Ha E) in E.
Qed.

Lemma fold_add_nonneg c : forall acc,
    Forall nonneg c -> nonneg acc -> nonneg (fold_left add c acc).
Proof.
  induction c as [|x c IH]; intros acc Hc Ha; simpl; [exact Ha|].
  inversion Hc; subst. apply IH; [assumption|]. now apply nonneg_add.
Qed.

Lemma fold_add_mono c : Forall nonneg c -> forall acc' acc,
    nonneg acc' -> nonneg acc ->
    ltb acc' acc = false ->
    ltb (fold_left add c acc') (fold_left add c acc) = false.
Proof.
  induction 1 as [|x c Hx Hc IH]; intros acc' acc Ha' Ha Hacc; simpl;
    [exact Hacc|].
  apply IH; try now apply nonneg_add.
  apply add_mono; try assumption. now apply ge_refl.
Qed.

Lemma add_nonneg acc' acc x :
  nonneg acc' -> nonneg acc -> nonneg x ->
  ltb acc' acc = false -> ltb (add acc' x) acc = false.
Proof.
  intros Ha' Ha Hx Hacc.
  apply nonneg_trans with (b := acc'); try assumption;
    [now apply nonneg_add|].
  apply nonneg_trans with (b := add acc' zero); try assumption.
  - now apply nonneg_add.
  - apply nonneg_add; [assumption | apply nonneg_zero].
  - apply add_mono; try assumption; try apply nonneg_zero.
    + now apply ge_refl.
    + now apply zero_least.
  - now apply add_zero_r.
Qed.

Lemma list_contributions_app key (k : Z) docs1 docs2 : forall rank,
    list_contributions key k rank (docs1 ++ docs2)
    = list_contributions key k rank docs1
        ++ list_contributions key k (rank + List.length docs1) docs2.
Proof.
  induction docs1 as [|doc docs1 IH]; intros rank; simpl.
  - now rewrite Nat.add_0_r.
  - rewrite IH, <- app_assoc. do 3 f_equal. lia.
Qed.

Lemma list_contributions_nonneg key (k : Z) docs :
  (0 < k)%Z -> forall rank, Forall nonneg (list_contributions key k rank docs).
Proof.
  intros Hk. induction docs as [|doc docs IH]; intros rank; simpl;
    [constructor|].
  apply Forall_app. split; [|apply IH].
  destruct (String.eqb (dumps doc) key); repeat constructor.
  apply nonneg_recip. lia.
Qed.

Lemma contributions_nonneg key (k : Z) (results : list (list Doc)) :
  (0 < k)%Z -> Forall nonneg (contributions key k results).
Proof.
  intros Hk. unfold contributions.
  induction results as [|docs rest IH]; simpl; [constructor|].
  apply Forall_app. split; [now apply list_contributions_nonneg | exact IH].
Qed.

Lemma score_sum_nonneg key (k : Z) (results : list (list Doc)) :
  (0 < k)%Z -> nonneg (score_sum key k results).
Proof.
  intros Hk. apply fold_add_nonneg;
    [now apply contributions_nonneg | apply nonneg_zero].
Qed.

(** A further list never lowers a sum: its contributions are not below
    [0]. *)
Lemma fold_contributions_extra key (k : Z) docs c :
  (0 < k)%Z -> Forall nonneg c -> forall rank acc' acc,
    nonneg acc' -> nonneg acc ->
    ltb acc' acc = false ->
    ltb (fold_left add (list_contributions key k rank docs ++ c) acc')
        (fold_left add c acc) = false.
Proof.
  intros Hk Hc.
  induction docs as [|doc docs IH]; intros rank acc' acc Ha' Ha Hacc; simpl.
  - now apply fold_add_mono.
  - assert (Hr : nonneg (recip (Z.of_nat rank + k)))
      by (apply nonneg_recip; lia).
    destruct (String.eqb (dumps doc) key); simpl; [|now apply IH].
    apply IH; [now apply nonneg_add | exact Ha | now apply add_nonneg].
Qed.

(** An occurrence put in front of [docs], at a rank whose contribution is
    [x], against no such occurrence: the occurrences in [docs] move one
    rank down, and each is covered by the one before it. *)
Lemma fold_contributions_insert key (k : Z) docs c :
  (0 < k)%Z -> Forall nonneg c -> forall rank x acc' acc,
    nonneg acc' -> nonneg acc -> nonneg x ->
    ltb acc' acc = false ->
    ltb x (recip (Z.of_nat rank + k)) = false ->
    ltb (fold_left add (x :: list_contributions key k (S rank) docs ++ c) acc')
        (fold_left add (list_contributions key k rank docs ++ c) acc) = false.
Proof.
  intros Hk Hc.
  induction docs as [|doc docs IH]; intros rank x acc' acc Ha' Ha Hx Hacc Hxr.
  - simpl. apply fold_add_mono; try assumption; [now apply nonneg_add|].
    now apply add_nonneg.
  - assert (Hr : nonneg (recip (Z.of_nat rank + k)))
      by (apply nonneg_recip; lia).
    assert (Hr' : nonneg (recip (Z.of_nat (S rank) + k)))
      by (apply nonneg_recip; lia).
    simpl. destruct (String.eqb (dumps doc) key); simpl.
    + apply (IH (S rank) (recip (Z.of_nat (S rank) + k)));
        try assumption; try now apply nonneg_add.
      * now apply add_mono.
      * now apply ge_refl.
    + apply (IH (S rank) x acc' acc Ha' Ha Hx Hacc).
      apply nonneg_trans with (b := recip (Z.of_nat rank + k));
        try assumption.
      apply recip_antitone; lia.
Qed.

(** The same occurrence against one behind [docs]. *)
Lemma fold_contributions_move key (k : Z) docs c :
  (0 < k)%Z -> Forall nonneg c -> forall rank x acc' acc,
    nonneg acc' -> nonneg acc -> nonneg x ->
    ltb acc' acc = false ->
    ltb x (recip (Z.of_nat rank + k)) = false ->
    ltb (fold_left add (x :: list_contributions key k (S rank) docs ++ c) acc')
        (fold_left add
           (list_contributions key k rank docs
              ++ recip (Z.of_nat (rank + List.length docs) + k) :: c) acc) = false.
Proof.
  intros Hk Hc.
  induction docs as [|doc docs IH]; intros rank x acc' acc Ha' Ha Hx Hacc Hxr.
  - assert (Hr : nonneg (recip (Z.of_nat rank + k)))
      by (apply nonneg_recip; lia).
    simpl. rewrite Nat.add_0_r.
    apply fold_add_mono; try assumption; try now apply nonneg_add.
    now apply add_mono.
  - assert (Hr : nonneg (recip (Z.of_nat rank + k)))
      by (apply nonneg_recip; lia).
    assert (Hr' : nonneg (recip (Z.of_nat (S rank) + k)))
      by (apply nonneg_recip; lia).
    simpl. replace (rank + S (List.length docs))%nat with (S rank + List.length docs)%nat by lia.
    destruct (String.eqb (dumps doc) key); simpl.
    + apply (IH (S rank) (recip (Z.of_nat (S rank) + k)));
        try assumption; try now apply nonneg_add.
      * now apply add_mono.
      * now apply ge_refl.
    + apply (IH (S rank) x acc' acc Ha' Ha Hx Hacc).
      apply nonneg_trans with (b := recip (Z.of_nat rank + k));
        try assumption.
      apply recip_antitone; lia.
Qed.

Lemma fused_score_sum key (results : list (list Doc)) (k : Z) :
  (0 < k)%Z -> fused_score key results k = Ok (score_sum key k results).
Proof.
  intros Hk. unfold fused_score, fused_scores.
  destruct (fuse_lists_total k results [] Hk) as [fused Hrun]. rewrite Hrun.
  apply fuse_lists_inv in Hrun. destruct Hrun as [_ Hs]. now rewrite Hs.
Qed.

Lemma contributions_app key (k : Z) (rs1 rs2 : list (list Doc)) :
  contributions key k (rs1 ++ rs2)
  = contributions key k rs1 ++ contributions key k rs2.
Proof. unfold contributions. apply flat_map_app. Qed.

Lemma score_sum_new_list key (k : Z) rs1 docs rs2 :
  (0 < k)%Z ->
  ltb (score_sum key k (rs1 ++ docs :: rs2)) (score_sum key k (rs1 ++ rs2))
  = false.
Proof.
  intros Hk. unfold score_sum. rewrite !contributions_app.
  change (contributions key k (docs :: rs2))
    with (list_contributions key k 0 docs ++ contributions key k rs2).
  rewrite !fold_left_app with (l := contributions key k rs1).
  assert (Ha : nonneg (fold_left add (contributions key k rs1) zero))
    by now apply score_sum_nonneg.
  apply fold_contributions_extra;
    [exact Hk | now apply contributions_nonneg | exact Ha | exact Ha
     | now apply ge_refl].
Qed.

Lemma score_sum_insert (doc : Doc) (k : Z) rs1 docs1 docs2 rs2 :
  (0 < k)%Z ->
  ltb (score_sum (dumps doc) k (rs1 ++ (docs1 ++ doc :: docs2) :: rs2))
      (score_sum (dumps doc) k (rs1 ++ (docs1 ++ docs2) :: rs2)) = false.
Proof.
  intros Hk. unfold score_sum. rewrite !contributions_app.
  change (contributions ?key k (?l :: rs2))
    with (list_contributions key k 0 l ++ contributions key k rs2).
  rewrite !list_contributions_app. simpl. rewrite String.eqb_refl. simpl.
  rewrite <- !app_assoc. rewrite !fold_left_app with (l := contributions _ k rs1).
  rewrite !fold_left_app with (l := list_contributions _ k 0 docs1).
  assert (Ha : nonneg (fold_left add (list_contributions (dumps doc) k 0 docs1)
                         (fold_left add (contributions (dumps doc) k rs1) zero))).
  { apply fold_add_nonneg; [now apply list_contributions_nonneg|].
    now apply score_sum_nonneg. }
  assert (Hr : nonneg (recip (Z.of_nat (List.length docs1) + k)))
    by (apply nonneg_recip; lia).
  apply fold_contributions_insert;
    [exact Hk | now apply contributions_nonneg | exact Ha | exact Ha | exact Hr
     | now apply ge_refl | now apply ge_refl].
Qed.

Lemma score_sum_move (doc : Doc) (k : Z) rs1 docs1 mid docs3 rs2 :
  (0 < k)%Z ->
  ltb (score_sum (dumps doc) k (rs1 ++ (docs1 ++ doc :: mid ++ docs3) :: rs2))
      (score_sum (dumps doc) k (rs1 ++ (docs1 ++ mid ++ doc :: docs3) :: rs2))
  = false.
Proof.
  intros Hk. unfold score_sum. rewrite !contributions_app.
  change (contributions ?key k (?l :: rs2))
    with (list_contributions key k 0 l ++ contributions key k rs2).
  rewrite !list_contributions_app. simpl.
  rewrite !list_contributions_app. simpl. rewrite String.eqb_refl. simpl.
  rewrite <- !app_assoc. rewrite !fold_left_app with (l := contributions _ k rs1).
  rewrite !fold_left_app with (l := list_contributions _ k 0 docs1).
  simpl. rewrite <- ?app_assoc.
  replace (S (List.length docs1 + List.length mid)) with (S (List.length docs1) + List.length mid)%nat by lia.
  assert (Ha : nonneg (fold_left add (list_contributions (dumps doc) k 0 docs1)
                         (fold_left add (contributions (dumps doc) k rs1) zero))).
  { apply fold_add_nonneg; [now apply list_contributions_nonneg|].
    now apply score_sum_nonneg. }
  assert (Hr : nonneg (recip (Z.of_nat (List.length docs1) + k)))
    by (apply nonneg_recip; lia).
  assert (Hc : Forall nonneg
                 (list_contributions (dumps doc) k
                    (S (List.length docs1) + List.length mid) docs3
                  ++ contributions (dumps doc) k rs2)).
  { apply Forall_app. split;
      [now apply list_contributions_nonneg | now apply contributions_nonneg]. }
  apply (fold_contributions_move (dumps doc) k mid _ Hk Hc (List.length docs1)
           (recip (Z.of_nat (List.length docs1) + k)));
    try assumption; now apply ge_refl.
Qed.
End FusionMonotone.

(** C4.  With binary64 scores and [k > 0], the fused score of a document
    (its entry in the dictionary that the result is sorted from, [0] if
    it has none) never goes down when the input gains a further list,
    when an occurrence of the document is put into one of the lists, or
    when an occurrence of the document moves to a smaller rank within its
    list: the score before is at most the score after. *)
Theorem rrf_monotone :
  forall (Doc : Type) (D : Document Doc) (k : Z),
    (0 < k)%Z ->
    forall (doc : Doc) (rs1 rs2 : list (list Doc)),
      (forall docs, exists s s' : float,
            fused_score (H := Binary64.arith) (dumps doc) (rs1 ++ rs2) k = Ok s
            /\ fused_score (H := Binary64.arith) (dumps doc)
                           (rs1 ++ docs :: rs2) k = Ok s'
            /\ PrimFloat.leb s s' = true)
      /\ (forall docs1 docs2, exists s s' : float,
            fused_score (H := Binary64.arith) (dumps doc)
                        (rs1 ++ (docs1 ++ docs2) :: rs2) k = Ok s
            /\ fused_score (H := Binary64.arith) (dumps doc)
                           (rs1 ++ (docs1 ++ doc :: docs2) :: rs2) k = Ok s'
            /\ PrimFloat.leb s s' = true)
      /\ (forall docs1 mid docs3, exists s s' : float,
            fused_score (H := Binary64.arith) (dumps doc)
                        (rs1 ++ (docs1 ++ mid ++ doc :: docs3) :: rs2) k = Ok s
            /\ fused_score (H := Binary64.arith) (dumps doc)
                           (rs1 ++ (docs1 ++ doc :: mid ++ docs3) :: rs2) k
               = Ok s'
            /\ PrimFloat.leb s s' = true).
Proof.
  intros Doc D k Hk doc rs1 rs2.
  assert (Hle : forall rs rs' : list (list Doc),
             @ltb _ Binary64.arith
                  (score_sum (H0 := Binary64.arith) (dumps doc) k rs')
                  (score_sum (H0 := Binary64.arith) (dumps doc) k rs) = false ->
             PrimFloat.leb (score_sum (H0 := Binary64.arith) (dumps doc) k rs)
                           (score_sum (H0 := Binary64.arith) (dumps doc) k rs')
             = true).
  { intros rs rs' Hlt. apply ltb_false_leb; [| |exact Hlt];
      apply nonneg_sound;
      exact (score_sum_nonneg (monotone := binary64_monotone) _ _ _ Hk). }
  split; [|split].
  - intros docs. eexists; eexists. rewrite !fused_score_sum by exact Hk.
    split; [reflexivity|]. split; [reflexivity|].
    apply Hle.
    exact (score_sum_new_list (monotone := binary64_monotone) _ _ _ _ _ Hk).
  - intros docs1 docs2. eexists; eexists. rewrite !fused_score_sum by exact Hk.
    split; [reflexivity|]. split; [reflexivity|].
    apply Hle.
    exact (score_sum_insert (monotone := binary64_monotone) _ _ _ _ _ _ Hk).
  - intros docs1 mid docs3. eexists; eexists.
    rewrite !fused_score_sum by exact Hk.
    split; [reflexivity|]. split; [reflexivity|].
    apply Hle.
    exact (score_sum_move (monotone := binary64_monotone) _ _ _ _ _ _ _ Hk).
Qed.

(** Binary64 scores and the default [k]: document A at rank 0 of
    [[A, B]] scores no less than at rank 1 of [[B, A]]. *)
Lemma rrf_monotone_witness :
  exists s s' : float,
    @fused_score _ Binary64.arith _ TextDocument.document
                 "A" [["B"; "A"]] default_k = Ok s
    /\ @fused_score _ Binary64.arith _ TextDocument.document
                    "A" [["A"; "B"]] default_k = Ok s'
    /\ PrimFloat.leb s s' = true.
Proof.
  assert (Hk : (0 < default_k)%Z) by reflexivity.
  exact (proj2 (proj2 (@rrf_monotone string TextDocument.document
                         default_k Hk "A" [] []))
               [] ["B"] []).
Defined.

(** ** Strings *)

Section StringFacts.
Local Open Scope string_scope.
Implicit Types (s t : string) (c : ascii).

Lemma append_assoc s t u : ((s ++ t) ++ u = s ++ (t ++ u))%string.
Proof. induction s as [|c s IH]; simpl; [reflexivity | now rewrite IH]. Qed.

Lemma append_empty_r s : (s ++ "" = s)%string.
Proof. induction s as [|c s IH]; simpl; [reflexivity | now rewrite IH]. Qed.

Lemma join_empty_cons s (parts : list string) :
  join "" (s :: parts) = (s ++ join "" parts)%string.
Proof.
  destruct parts as [|p parts]; simpl; [now rewrite append_empty_r | reflexivity].
Qed.

(** Trimming on the right leaves a prefix alone when what follows it does
    not vanish. *)
Lemma rstrip_app_nonempty s t :
  rstrip t <> "" -> rstrip (s ++ t) = (s ++ rstrip t)%string.
Proof.
  intros Hne. induction s as [|c s IH]; simpl; [reflexivity|].
  rewrite IH. destruct (s ++ rstrip t) eqn:E; [|reflexivity].
  destruct s; simpl in E; [contradiction | discriminate].
Qed.

(** ... and when the prefix itself needs no trimming. *)
Lemma rstrip_app_keep s t :
  rstrip s = s -> rstrip (s ++ t) = (s ++ rstrip t)%string.
Proof.
  induction s as [|c s IH]; simpl; [reflexivity|].
  destruct (rstrip s) as [|c' r] eqn:E.
  - destruct (isspace c) eqn:Ec; [discriminate|].
    intros [= <-]. simpl. now destruct (rstrip t).
  - intros [= Hs]. rewrite IH by exact Hs.
    rewrite <- Hs. reflexivity.
Qed.

(** [str.isspace] accepts the characters of [whitespace] and no other. *)
Lemma isspace_whitespace c : isspace c = true <-> In c whitespace.
Proof.
  assert (E : isspace c = existsb (Ascii.eqb c) whitespace)
    by (destruct c as [[|] [|] [|] [|] [|] [|] [|] [|]]; reflexivity).
  rewrite E, existsb_exists. split.
  - intros (x & Hin & Hx). apply Ascii.eqb_eq in Hx. now subst.
  - intros Hin. exists c. split; [exact Hin | apply Ascii.eqb_refl].
Qed.

Lemma ends_in_text_cons c s : s <> "" -> ends_in_text s -> ends_in_text (String c s).
Proof.
  intros Hne [->|(s' & c' & -> & Hc')]; [contradiction|].
  right. exists (String c s'), c'. split; [reflexivity | exact Hc'].
Qed.

(** [rstrip] trims: it cuts off white space and leaves a text that does
    not end in white space. *)
Lemma rstrip_trimmed s : trimmed_of s (rstrip s).
Proof.
  induction s as [|c s IH].
  - exists "". split; [reflexivity|]. split; [intros c []| now left].
  - destruct IH as (tail & E & Htail & Hend). cbn [rstrip].
    destruct (rstrip s) as [|c' r] eqn:Er.
    + simpl in E. subst tail. destruct (isspace c) eqn:Ec.
      * exists (String c s). split; [reflexivity|]. split; [|now left].
        intros x [<-|Hx]; [now apply isspace_whitespace | now apply Htail].
      * exists s. split; [reflexivity|]. split; [exact Htail|].
        right. exists "", c. split; [reflexivity|].
        rewrite <- isspace_whitespace. congruence.
    + exists tail. split; [simpl; now rewrite E|]. split; [exact Htail|].
      apply ends_in_text_cons; [discriminate | exact Hend].
Qed.
End StringFacts.

(** ** The synthesis context of the decomposition pipeline *)

Section FormatQAPairs.
Local Open Scope string_scope.
Import DecompositionRetrieval.
Implicit Types (questions answers : list string).

Lemma format_loop_blocks (pairs : list (string * string)) : forall i acc,
    format_loop i pairs acc = (acc ++ blocks i pairs)%string.
Proof.
  induction pairs as [|[q a] pairs IH]; intros i acc; simpl.
  - now rewrite append_empty_r.
  - now rewrite IH, append_assoc.
Qed.

Lemma lstrip_blocks i (pairs : list (string * string)) :
  lstrip (blocks i pairs) = blocks i pairs.
Proof. destruct pairs as [|[q a] pairs]; reflexivity. Qed.

Lemma format_qa_pairs_blocks questions answers :
  format_qa_pairs questions answers
  = Ok (rstrip (blocks 1 (combine questions answers))).
Proof.
  unfold format_qa_pairs, strip. rewrite format_loop_blocks. simpl.
  now rewrite lstrip_blocks.
Qed.

Lemma blocks_numbered questions : forall answers b,
    List.length questions = List.length answers ->
    blocks b (combine questions answers)
    = join ""
           (map (fun j => qa_block (b + j) (nth j questions "") (nth j answers ""))
                (seq 0 (List.length questions))).
Proof.
  induction questions as [|q questions IH]; intros [|a answers] b Hlen;
    try discriminate; [reflexivity|].
  injection Hlen as Hlen.
  cbn [List.length seq map combine blocks]. rewrite join_empty_cons.
  rewrite Nat.add_0_r. cbn [nth]. f_equal.
  rewrite <- seq_shift, map_map, (IH answers (S b) Hlen). f_equal.
  apply map_ext. intros j. cbn [nth]. f_equal. lia.
Qed.

Lemma combine_surplus_l questions : forall answers extra,
    List.length questions = List.length answers ->
    combine (questions ++ extra) answers = combine questions answers.
Proof.
  induction questions as [|q questions IH]; intros [|a answers] extra Hlen;
    try discriminate; simpl.
  - now destruct extra.
  - injection Hlen as Hlen. now rewrite IH.
Qed.

Lemma combine_surplus_r questions : forall answers extra,
    List.length questions = List.length answers ->
    combine questions (answers ++ extra) = combine questions answers.
Proof.
  induction questions as [|q questions IH]; intros [|a answers] extra Hlen;
    try discriminate; simpl; [reflexivity|].
  injection Hlen as Hlen. now rewrite IH.
Qed.

Lemma three_blocks_split q1 q2 q3 a1 a2 (t : string) :
  "Question 1: " ++ q1 ++ nl ++ "Answer 1: " ++ a1 ++ nl ++ nl
  ++ "Question 2: " ++ q2 ++ nl ++ "Answer 2: " ++ a2 ++ nl ++ nl
  ++ "Question 3: " ++ q3 ++ nl ++ "Answer 3:" ++ t
  = three_blocks_head q1 q2 q3 a1 a2 ++ "Answer 3:" ++ t.
Proof.
  unfold three_blocks_head.
  repeat (rewrite append_assoc; cbn [append]). reflexivity.
Qed.

Lemma rstrip_after_keyword (p k t : string) :
  rstrip k = k -> k <> "" -> rstrip (p ++ k ++ t) = p ++ k ++ rstrip t.
Proof.
  intros Hk Hne. rewrite rstrip_app_nonempty; rewrite rstrip_app_keep by exact Hk.
  - reflexivity.
  - destruct k; [contradiction | discriminate].
Qed.

Lemma combine_firstn_min questions : forall answers,
    combine (firstn (Nat.min (List.length questions) (List.length answers))
                    questions)
            (firstn (Nat.min (List.length questions) (List.length answers))
                    answers)
    = combine questions answers.
Proof.
  induction questions as [|q questions IH]; intros [|a answers]; simpl;
    try reflexivity.
  now rewrite IH.
Qed.

Lemma format_qa_pairs_three q1 q2 q3 a1 a2 a3 :
  format_qa_pairs [q1; q2; q3] [a1; a2; a3]
  = Ok ("Question 1: " ++ q1 ++ nl ++ "Answer 1: " ++ a1 ++ nl ++ nl
        ++ "Question 2: " ++ q2 ++ nl ++ "Answer 2: " ++ a2 ++ nl ++ nl
        ++ "Question 3: " ++ q3 ++ nl
        ++ "Answer 3:" ++ rstrip (" " ++ a3 ++ nl ++ nl)).
Proof.
  rewrite format_qa_pairs_blocks. f_equal.
  rewrite three_blocks_split.
  rewrite <- (rstrip_after_keyword (three_blocks_head q1 q2 q3 a1 a2)
                                   "Answer 3:" (" " ++ a3 ++ nl ++ nl))
    by (reflexivity || discriminate).
  f_equal. rewrite <- three_blocks_split.
  cbn [combine blocks]. unfold qa_block.
  change (str_of_nat 1) with "1". change (str_of_nat 2) with "2".
  change (str_of_nat 3) with "3".
  rewrite append_empty_r.
  repeat (rewrite append_assoc; cbn [append]). reflexivity.
Qed.

(** C6.  For questions and answers of equal number, [format_qa_pairs]
  returns the concatenation of the blocks
  ["Question i: qi\nAnswer i: ai\n\n"], [i] counted from 1 in the order
  of the lists, trimmed of trailing white space: the text returned is
  the concatenation without a tail of white space, and does not end in
  white space.  For three pairs the text is the three blocks in order,
  each question line followed by its answer line; only what follows
  ["Answer 3:"] is trimmed. *)
Theorem format_qa_pairs_context :
forall questions answers : list string,
  List.length questions = List.length answers ->
  (exists text,
      format_qa_pairs questions answers = Ok text
      /\ trimmed_of (numbered_blocks questions answers) text)
  /\ forall q1 q2 q3 a1 a2 a3 : string,
    exists rest,
      format_qa_pairs [q1; q2; q3] [a1; a2; a3]
      = Ok ("Question 1: " ++ q1 ++ nl ++ "Answer 1: " ++ a1 ++ nl ++ nl
            ++ "Question 2: " ++ q2 ++ nl ++ "Answer 2: " ++ a2 ++ nl ++ nl
            ++ "Question 3: " ++ q3 ++ nl
            ++ "Answer 3:" ++ rest)
      /\ trimmed_of (" " ++ a3 ++ nl ++ nl) rest.
Proof.
intros questions answers Hlen. split.
- exists (rstrip (numbered_blocks questions answers)). split.
  + rewrite format_qa_pairs_blocks. unfold numbered_blocks.
    now rewrite (blocks_numbered questions answers 1 Hlen).
  + apply rstrip_trimmed.
- intros q1 q2 q3 a1 a2 a3. exists (rstrip (" " ++ a3 ++ nl ++ nl)).
  split; [apply format_qa_pairs_three | apply rstrip_trimmed].
Qed.

(** C10.  [format_qa_pairs] returns normally on lists of any two lengths,
  and its text is the trimmed concatenation of the blocks of the first
  [n] questions with the first [n] answers, [n] the length of the
  shorter list: questions or answers beyond it are not in the text. *)
Theorem format_qa_pairs_unequal :
forall questions answers : list string,
  exists text,
    format_qa_pairs questions answers = Ok text
    /\ trimmed_of
         (numbered_blocks
            (firstn (Nat.min (List.length questions) (List.length answers))
                    questions)
            (firstn (Nat.min (List.length questions) (List.length answers))
                    answers))
         text.
Proof.
intros questions answers.
set (n := Nat.min (List.length questions) (List.length answers)).
exists (rstrip (numbered_blocks (firstn n questions) (firstn n answers))).
split; [|apply rstrip_trimmed].
rewrite format_qa_pairs_blocks, <- (combine_firstn_min questions answers).
fold n. unfold numbered_blocks.
rewrite (blocks_numbered (firstn n questions) (firstn n answers) 1);
  [reflexivity|].
subst n. rewrite !length_firstn. lia.
Qed.

(** Two questions with their answers: the text is the two blocks without
  the two line feeds at the end. *)
Lemma format_qa_pairs_context_witness :
exists text,
  format_qa_pairs ["q1"; "q2"] ["a1"; "a2"] = Ok text
  /\ trimmed_of ("Question 1: q1" ++ nl ++ "Answer 1: a1" ++ nl ++ nl
                 ++ "Question 2: q2" ++ nl ++ "Answer 2: a2" ++ nl ++ nl)
                text.
Proof.
exact (proj1 (format_qa_pairs_context ["q1"; "q2"] ["a1"; "a2"] eq_refl)).
Defined.
End FormatQAPairs.

(** ** The dispatcher *)

Section Dispatch.
Import RAGMethodCaller.

Lemma ascii_code_inj (c n : ascii) : nat_of_ascii c = nat_of_ascii n -> c = n.
Proof.
  intros E. rewrite <- (ascii_nat_embedding c), <- (ascii_nat_embedding n).
  now rewrite E.
Qed.

Lemma ascii_code_bound (c : ascii) : nat_of_ascii c < 256.
Proof.
  rewrite <- (ascii_nat_embedding c). rewrite nat_ascii_embedding.
  - apply nat_ascii_bounded.
  - apply nat_ascii_bounded.
Qed.

(** [lower] sends exactly the two cases of a letter of a name to it. *)
Lemma lower_char_same_letter (c n : ascii) :
  name_char n = true -> lower_char c = n <-> same_letter c n.
Proof.
  unfold name_char, lower_char, same_letter.
  pose proof (ascii_code_bound c) as Hc.
  set (x := nat_of_ascii c) in *. set (y := nat_of_ascii n) in *.
  intros Hn.
  assert (Hy : 97 <= y <= 122 \/ y = 95).
  { apply orb_true_iff in Hn. destruct Hn as [Hn|Hn].
    - apply andb_true_iff in Hn. destruct Hn as [H1 H2].
      apply Nat.leb_le in H1, H2. lia.
    - apply Nat.eqb_eq in Hn. lia. }
  clear Hn.
  destruct (Nat.leb_spec 65 x), (Nat.leb_spec x 90), (Nat.leb_spec 192 x),
    (Nat.leb_spec x 222), (Nat.eqb_spec x 215); simpl; try lia.
  all: split;
    [ intros E; subst y;
      first [ rewrite <- E in Hy; rewrite nat_ascii_embedding in Hy by lia;
              right;
              rewrite <- E; rewrite nat_ascii_embedding by lia; lia
            | left; exact E ]
    | intros [E|[Hr E]];
      first [ subst x y; apply ascii_code_inj;
              rewrite nat_ascii_embedding by lia; lia
            | exact E
            | subst c; subst x y; lia
            | exfalso; subst x y; lia ] ].
Qed.

Lemma lower_capitalization (name : string) : forall s,
    plain_name name = true ->
    lower s = name <-> capitalization_of name s.
Proof.
  induction name as [|n name IH]; intros [|c s] Hplain; simpl.
  - tauto.
  - split; [discriminate | tauto].
  - split; [discriminate | tauto].
  - simpl in Hplain. apply andb_true_iff in Hplain. destruct Hplain as [Hn Hrest].
    rewrite <- (IH s Hrest), <- (lower_char_same_letter c n Hn). split.
    + intros [= E1 E2]. tauto.
    + intros [-> ->]. reflexivity.
Qed.

Lemma lower_eqb_capitalization (name s : string) :
  plain_name name = true ->
  String.eqb (lower s) name = true <-> capitalization_of name s.
Proof.
  intros Hplain. rewrite String.eqb_eq. now apply lower_capitalization.
Qed.

Lemma lower_eqb_not_capitalization (name s : string) :
  plain_name name = true ->
  ~ capitalization_of name s -> String.eqb (lower s) name = false.
Proof.
  intros Hplain Hnot. destruct (String.eqb (lower s) name) eqn:E; [|reflexivity].
  exfalso. apply Hnot. now apply lower_eqb_capitalization.
Qed.

Lemma capitalization_lower (name name' s : string) :
  plain_name name = true -> plain_name name' = true -> name <> name' ->
  capitalization_of name s -> String.eqb (lower s) name' = false.
Proof.
  intros Hp Hp' Hne Hcap. apply lower_capitalization in Hcap; [|exact Hp].
  rewrite Hcap. now apply String.eqb_neq.
Qed.
End Dispatch.

(** C8.  [call_method] constructs and runs the multi-query, the fusion or
    the decomposition pipeline exactly when the method name is
    [multi_query], [fusion] or [decomposition] up to the case of its
    letters; on every other name it prints one message and runs none of
    the pipelines: the world changes by that [Output] event alone. *)
Theorem call_method_dispatch :
  forall (Doc : Type) (D : Document Doc) (C : Collaborators Doc)
         (score : Type) (S : ScoreArith score)
         (multi_query_run : M unit) (method_name : string),
    (RAGMethodCaller.capitalization_of "multi_query" method_name ->
     RAGMethodCaller.call_method multi_query_run method_name
     = try_except only_ValueError multi_query_run
         (fun e => print ("Error in MultiQueryRetrieval: " ++ str_exn e)))
    /\ (RAGMethodCaller.capitalization_of "fusion" method_name ->
        RAGMethodCaller.call_method multi_query_run method_name
        = try_except only_ValueError
            (_ <- lift (FusionRetrieval.init (Some retriever)) ;;
             FusionRetrieval.run default_k)
            (fun e => print ("Error in FusionRetrieval: " ++ str_exn e)))
    /\ (RAGMethodCaller.capitalization_of "decomposition" method_name ->
        RAGMethodCaller.call_method multi_query_run method_name
        = try_except only_ValueError
            (_ <- lift (DecompositionRetrieval.init (Some retriever)) ;;
             DecompositionRetrieval.run)
            (fun e => print ("Error in DecompositionRetrieval: " ++ str_exn e)))
    /\ (~ RAGMethodCaller.capitalization_of "multi_query" method_name ->
        ~ RAGMethodCaller.capitalization_of "fusion" method_name ->
        ~ RAGMethodCaller.capitalization_of "decomposition" method_name ->
        forall w : world,
          RAGMethodCaller.call_method multi_query_run method_name w
          = (Ok tt,
             log (Output "Invalid method name provided. Please choose from 'multi_query', 'fusion', or 'decomposition'.") w)).
Proof.
  intros Doc D C score S multi_query_run method_name.
  unfold RAGMethodCaller.call_method. repeat split.
  - intros Hcap. apply lower_eqb_capitalization in Hcap; [|reflexivity].
    now rewrite Hcap.
  - intros Hcap.
    rewrite (capitalization_lower "fusion" "multi_query" method_name)
      by (reflexivity || discriminate || exact Hcap).
    apply lower_eqb_capitalization in Hcap; [|reflexivity]. now rewrite Hcap.
  - intros Hcap.
    rewrite (capitalization_lower "decomposition" "multi_query" method_name)
      by (reflexivity || discriminate || exact Hcap).
    rewrite (capitalization_lower "decomposition" "fusion" method_name)
      by (reflexivity || discriminate || exact Hcap).
    apply lower_eqb_capitalization in Hcap; [|reflexivity]. now rewrite Hcap.
  - intros H1 H2 H3 w.
    rewrite !lower_eqb_not_capitalization by (reflexivity || assumption).
    reflexivity.
Qed.

(** The name [FuSion] selects the fusion pipeline. *)
Lemma call_method_dispatch_witness :
  @RAGMethodCaller.call_method _ TextDocument.document Stubs.found
                               _ RationalScores.arith (ret tt) "FuSion"
  = try_except only_ValueError
      (_ <- lift (@FusionRetrieval.init _ Stubs.found
                    (Some (@retriever _ Stubs.found))) ;;
       @FusionRetrieval.run _ TextDocument.document Stubs.found
                            _ RationalScores.arith default_k)
      (fun e => print ("Error in FusionRetrieval: " ++ str_exn e)).
Proof.
  apply (proj1 (proj2 (@call_method_dispatch
                         string TextDocument.document Stubs.found
                         QArith_base.Q RationalScores.arith (ret tt) "FuSion"))).
  simpl. unfold RAGMethodCaller.same_letter.
  repeat split; first [now left | right; vm_compute; lia].
Defined.

(** ** The fusion pipeline *)

Section FusionPipeline.
Context {Doc : Type} `{Document Doc} `{Collaborators Doc}.
Context {score : Type} `{ScoreArith score}.
Variable k : Z.

Lemma split_lines_nonempty (s : string) : split_lines s <> [].
Proof.
  induction s as [|c s IH]; simpl; [discriminate|].
  destruct (Ascii.eqb c nl_char); [discriminate|].
  now destruct (split_lines s).
Qed.

Lemma retriever_map_nothing (queries : list string) :
  (forall query, In query queries -> retriever query = Ok []) ->
  retriever_map queries = Ok (map (fun _ => []) queries).
Proof.
  induction queries as [|query rest IH]; intros Hall; simpl; [reflexivity|].
  rewrite (Hall query) by now left.
  rewrite IH; [reflexivity|]. intros q Hq. apply Hall. now right.
Qed.

(** Retrieval that finds nothing raises after the one call of the chat
    model that expands the question. *)
Lemma retrieve_documents_nothing (question prompt reply : string) (w : world) :
  question <> "" ->
  format_prompt FusionRetrieval.prompt_rag_fusion [("question", Str question)]
  = Ok prompt ->
  chat (trace w) prompt = Ok reply ->
  (forall query, In query (split_lines reply) -> retriever query = Ok []) ->
  FusionRetrieval.retrieve_documents (score := score) k question w
  = (Err (ValueError "Failed to retrieve documents: No documents retrieved for the given question."),
     log (Generate prompt) w).
Proof.
  intros Hq Hprompt Hreply Hnothing.
  unfold FusionRetrieval.retrieve_documents.
  apply String.eqb_neq in Hq. rewrite Hq.
  unfold try_except, bind, FusionRetrieval.generate_queries, invoke_chain,
    bind, lift, generate, ret.
  rewrite Hprompt, Hreply, (retriever_map_nothing _ Hnothing).
  assert (Hfused : reciprocal_rank_fusion (score := score)
                     (map (fun _ => @nil Doc) (split_lines reply)) k = Ok []).
  { apply rrf_all_empty.
    - pose proof (split_lines_nonempty reply). now destruct (split_lines reply).
    - apply Forall_forall. intros docs Hin. apply in_map_iff in Hin.
      now destruct Hin as (_ & <- & _). }
  rewrite Hfused. reflexivity.
Qed.
End FusionPipeline.

(** C5.  When the retriever finds nothing for any of the expanded queries,
    [retrieve_documents] raises the [ValueError] of the empty retrieval and
    [run] ends by printing it.  The chat model has been called once, to
    expand the question, before the failure; [answer_question] is not
    reached and no call for the final answer is made. *)
Theorem fusion_empty_retrieval :
  forall (Doc : Type) (D : Document Doc) (C : Collaborators Doc)
         (score : Type) (S : ScoreArith score) (k : Z)
         (w : world) (question : string) (rest : list string)
         (prompt reply : string),
    stdin w = question :: rest ->
    question <> "" ->
    format_prompt FusionRetrieval.prompt_rag_fusion [("question", Str question)]
    = Ok prompt ->
    chat (trace w ++ [Input "Please enter your question: "]) prompt = Ok reply ->
    (forall query, In query (split_lines reply) -> retriever query = Ok []) ->
    let asked := {| stdin := rest;
                    trace := trace w ++ [Input "Please enter your question: "] |} in
    let message :=
      "Failed to retrieve documents: No documents retrieved for the given question." in
    FusionRetrieval.retrieve_documents (score := score) k question asked
    = (Err (ValueError message), log (Generate prompt) asked)
    /\ FusionRetrieval.run (score := score) k w
       = (Ok tt, log (Output ("Error: " ++ message)) (log (Generate prompt) asked))
    /\ prompts (trace (snd (FusionRetrieval.run (score := score) k w)))
       = prompts (trace w) ++ [prompt].
Proof.
  intros Doc D C score S k w question rest prompt reply
         Hstdin Hq Hprompt Hreply Hnothing asked message.
  assert (Hretrieve :
            FusionRetrieval.retrieve_documents (score := score) k question asked
            = (Err (ValueError message), log (Generate prompt) asked)).
  { now apply retrieve_documents_nothing with (reply := reply). }
  assert (Hrun : FusionRetrieval.run (score := score) k w
                 = (Ok tt, log (Output ("Error: " ++ message))
                               (log (Generate prompt) asked))).
  { unfold FusionRetrieval.run, bind at 1, input. rewrite Hstdin.
    fold asked. unfold try_except, bind at 1. rewrite Hretrieve. reflexivity. }
  split; [exact Hretrieve|]. split; [exact Hrun|].
  rewrite Hrun. simpl. rewrite <- !app_assoc. simpl.
  generalize (trace w). intros t. induction t as [|[p|p|p] t IH]; simpl;
    congruence.
Qed.

(** A retriever that finds nothing, with the question typed at the
    prompt. *)
Lemma fusion_empty_retrieval_witness :
  @FusionRetrieval.run _ TextDocument.document Stubs.nothing_found
                       _ RationalScores.arith default_k
                       (Stubs.typed ["What is RAG?"])
  = (Ok tt,
     {| stdin := [];
        trace := [Input "Please enter your question: ";
                  Generate "What is RAG?";
                  Output "Error: Failed to retrieve documents: No documents retrieved for the given question."] |}).
Proof.
  refine (proj1 (proj2 (@fusion_empty_retrieval
                          string TextDocument.document Stubs.nothing_found
                          QArith_base.Q RationalScores.arith default_k
                          (Stubs.typed ["What is RAG?"]) "What is RAG?" []
                          "What is RAG?" ("first" ++ nl ++ "second")%string
                          eq_refl _ eq_refl eq_refl _))).
  - discriminate.
  - reflexivity.
Defined.

(** ** Reading the question *)

Section Quiet.
Context {Doc : Type} `{Document Doc} `{Collaborators Doc}.
Context {score : Type} `{ScoreArith score}.





















End Quiet.




(** ** The loop over the sub-questions *)

Section AnswerLoop.
Context {Doc : Type} `{Collaborators Doc}.

Lemma prompts_app (t1 t2 : list event) :
  prompts (t1 ++ t2) = prompts t1 ++ prompts t2.
Proof.
  induction t1 as [|[p|p|p] t1 IH]; simpl; try exact IH; [reflexivity|].
  now rewrite IH.
Qed.

(** The prompts that the loop hands to the chat model are the first ones
    of [loop_prompts]: as many as there were calls. *)
Lemma answer_loop_prompts (sub_questions : list string) :
  forall (rag_results : list string) (w : world),
  exists n,
    prompts (trace (snd (DecompositionRetrieval.answer_loop
                           sub_questions rag_results w)))
    = prompts (trace w)
        ++ firstn n (DecompositionRetrieval.loop_prompts sub_questions).
Proof.
  induction sub_questions as [|q rest IH]; intros rag_results w.
  - exists 0. simpl. now rewrite app_nil_r.
  - cbn [DecompositionRetrieval.answer_loop DecompositionRetrieval.loop_prompts].
    unfold bind at 1, lift.
    destruct (retriever q) as [docs|e].
    2:{ exists 0. simpl. now rewrite app_nil_r. }
    unfold invoke_chain, bind at 1, bind at 1, lift.
    destruct (format_prompt DecompositionRetrieval.decomposition_prompt
                (DecompositionRetrieval.sub_question_variables docs q))
      as [prompt|e].
    2:{ exists 0. simpl. now rewrite app_nil_r. }
    unfold generate.
    destruct (chat (trace w) prompt) as [answer|e].
    + destruct (IH (rag_results ++ [answer]) (log (Generate prompt) w))
        as [n Hn].
      exists (S n). rewrite Hn. simpl. rewrite prompts_app. simpl.
      now rewrite <- app_assoc.
    + exists 1. simpl. now rewrite prompts_app.
Qed.
End AnswerLoop.

Lemma firstn_nth_error_agree {A : Type} (l : list A) :
  forall (n1 n2 i : nat) (p1 p2 : A),
    nth_error (firstn n1 l) i = Some p1 ->
    nth_error (firstn n2 l) i = Some p2 -> p1 = p2.
Proof.
  induction l as [|x l IH]; intros [|n1] [|n2] [|i] p1 p2; simpl;
    try discriminate.
  - congruence.
  - apply IH.
Qed.

(** C7.  The template of the sub-question step has a slot [q_a_pairs], but
    the step binds only [context] and [question].  Take two runs of the
    loop over the same sub-questions, with the same retriever and
    templates, but with chat models that answer differently and with
    different answers gathered so far: whenever both runs reach their
    [i]-th call of the chat model, they hand it the same prompt. *)
Theorem sub_question_prompts_independent :
  forall (Doc : Type)
         (format : string -> list (string * value Doc) -> result string)
         (retrieve : string -> result (list Doc))
         (chat1 chat2 : list event -> string -> result string)
         (new_chat : option string -> result unit)
         (sub_questions rag_results1 rag_results2 : list string)
         (w1 w2 : world),
    let run1 := {| format_prompt := format; chat := chat1; retriever := retrieve;
                   chat_open_ai := new_chat |} in
    let run2 := {| format_prompt := format; chat := chat2; retriever := retrieve;
                   chat_open_ai := new_chat |} in
    has_slot DecompositionRetrieval.decomposition_prompt "q_a_pairs" = true
    /\ (forall (docs : list Doc) (sub_question : string),
           map fst (DecompositionRetrieval.sub_question_variables docs sub_question)
           = ["context"; "question"])
    /\ exists prompts1 prompts2,
        prompts (trace (snd (@DecompositionRetrieval.answer_loop
                               Doc run1 sub_questions rag_results1 w1)))
        = prompts (trace w1) ++ prompts1
        /\ prompts (trace (snd (@DecompositionRetrieval.answer_loop
                                  Doc run2 sub_questions rag_results2 w2)))
           = prompts (trace w2) ++ prompts2
        /\ forall i p1 p2,
            nth_error prompts1 i = Some p1 ->
            nth_error prompts2 i = Some p2 -> p1 = p2.
Proof.
  intros Doc format retrieve chat1 chat2 new_chat sub_questions rag1 rag2
         w1 w2 run1 run2.
  split; [vm_compute; reflexivity|]. split; [reflexivity|].
  destruct (@answer_loop_prompts Doc run1 sub_questions rag1 w1) as [n1 H1].
  destruct (@answer_loop_prompts Doc run2 sub_questions rag2 w2) as [n2 H2].
  exists (firstn n1 (@DecompositionRetrieval.loop_prompts Doc run1 sub_questions)),
         (firstn n2 (@DecompositionRetrieval.loop_prompts Doc run2 sub_questions)).
  split; [exact H1|]. split; [exact H2|].
  change (@DecompositionRetrieval.loop_prompts Doc run2 sub_questions)
    with (@DecompositionRetrieval.loop_prompts Doc run1 sub_questions).
  intros i p1 p2. apply firstn_nth_error_agree.
Qed.

(** ** Two further facts *)

Section Further.
Context {Doc : Type} `{Document Doc} `{Collaborators Doc}.
Context {score : Type} `{ScoreArith score}.



(** X2.  With [k = 0] the first document of a non-empty first list
    divides by zero, and the failure is reported as a [ValueError]. *)
Theorem rrf_zero_k :
  forall (doc : Doc) (docs : list Doc) (results : list (list Doc)),
    reciprocal_rank_fusion (score := score) ((doc :: docs) :: results) 0
    = Err (ValueError
             "Failed to perform reciprocal rank fusion: division by zero").
Proof.
  intros doc docs results. unfold reciprocal_rank_fusion, fused_scores.
  simpl. rewrite String.eqb_refl. reflexivity.
Qed.
End Further.


(** * Further properties of the pipelines *)

(** ** What the pipelines raise *)

Section Raises.
Context {Doc : Type} `{Document Doc} `{Collaborators Doc}.
Context {score : Type} `{ScoreArith score}.

Lemma raises_only_raise {A} (allowed : exn -> bool) (e : exn) :
  allowed e = true -> raises_only allowed (@raise A e).
Proof. intros He w e' w'. unfold raise. intros [= <- _]. exact He. Qed.

(** A block whose handler catches everything raises what the handler
    raises. *)
Lemma raises_only_try_all {A} (allowed : exn -> bool) (body : M A)
      (handler : exn -> M A) :
  (forall e, raises_only allowed (handler e)) ->
  raises_only allowed (try_except any_Exception body handler).
Proof.
  intros Hh w e w'. unfold try_except.
  destruct (body w) as [[a|e0] w0]; [discriminate|].
  simpl. apply Hh.
Qed.

Lemma retrieve_documents_raises (k : Z) (question : string) :
  raises_only is_ValueError
              (FusionRetrieval.retrieve_documents (score := score) k question).
Proof.
  unfold FusionRetrieval.retrieve_documents.
  destruct (String.eqb question ""); [now apply raises_only_raise|].
  apply raises_only_try_all. intros e. now apply raises_only_raise.
Qed.

Lemma answer_question_raises (question : string) (docs : list (Doc * score)) :
  raises_only is_ValueError (FusionRetrieval.answer_question question docs).
Proof.
  unfold FusionRetrieval.answer_question.
  destruct docs; [now apply raises_only_raise|].
  apply raises_only_try_all. intros e. now apply raises_only_raise.
Qed.

Lemma retrieve_and_rag_raises (question : string)
      (chain : string -> M (list string)) :
  raises_only is_ValueError
              (DecompositionRetrieval.retrieve_and_rag question chain).
Proof.
  unfold DecompositionRetrieval.retrieve_and_rag.
  destruct (String.eqb question ""); [now apply raises_only_raise|].
  apply raises_only_try_all. intros e. now apply raises_only_raise.
Qed.

(** [run] after its [input] call has read [question]. *)
Lemma fusion_run_asked (k : Z) (w : world) (question : string)
      (rest : list string) :
  stdin w = question :: rest ->
  FusionRetrieval.run (score := score) k w
  = try_except only_ValueError
      (docs <- FusionRetrieval.retrieve_documents k question ;;
       answer <- FusionRetrieval.answer_question question docs ;;
       print ("Answer: " ++ answer))
      (fun e => print ("Error: " ++ str_exn e))
      {| stdin := rest;
         trace := trace w ++ [Input "Please enter your question: "] |}.
Proof.
  intros Hstdin. unfold FusionRetrieval.run, bind at 1, input.
  now rewrite Hstdin.
Qed.

Lemma decomposition_run_asked (w : world) (question : string)
      (rest : list string) :
  stdin w = question :: rest ->
  DecompositionRetrieval.run w
  = try_except only_ValueError
      (r <- DecompositionRetrieval.retrieve_and_rag
              question DecompositionRetrieval.generate_queries_decomposition ;;
       context <- lift (DecompositionRetrieval.format_qa_pairs (snd r) (fst r)) ;;
       final_answer <- invoke_chain DecompositionRetrieval.final_prompt
                         [("context", Str context); ("question", Str question)] ;;
       print ("Final Answer: " ++ final_answer))
      (fun e => print ("Error: " ++ str_exn e))
      {| stdin := rest;
         trace := trace w ++ [Input "Please enter your question: "] |}.
Proof.
  intros Hstdin. unfold DecompositionRetrieval.run, bind at 1, input.
  now rewrite Hstdin.
Qed.

Lemma prefix_append (s t : string) : String.prefix s (s ++ t) = true.
Proof.
  induction s as [|c s IH]; simpl; [now destruct t|].
  destruct (ascii_dec c c); [exact IH | contradiction].
Qed.

Lemma fusion_run_outcome (k : Z) (w : world) (question : string)
      (rest : list string) :
  stdin w = question :: rest ->
  exists (w' : world) (text : string),
    FusionRetrieval.run (score := score) k w = (Ok tt, log (Output text) w')
    /\ (String.prefix "Answer: " text = true
        \/ String.prefix "Error: " text = true).
Proof.
  intros Hstdin. rewrite (fusion_run_asked k w question rest Hstdin).
  set (asked := {| stdin := rest; trace := _ |}).
  unfold try_except, only_ValueError. unfold bind at 1.
  destruct (FusionRetrieval.retrieve_documents k question asked)
    as [[docs|e] w1] eqn:Hretrieve.
  - unfold bind at 1.
    destruct (FusionRetrieval.answer_question question docs w1)
      as [[answer|e] w2] eqn:Hanswer.
    + exists w2, ("Answer: " ++ answer)%string. split; [reflexivity | left; apply prefix_append].
    + rewrite (answer_question_raises _ _ _ _ _ Hanswer).
      exists w2, ("Error: " ++ str_exn e)%string. split; [reflexivity | right; apply prefix_append].
  - rewrite (retrieve_documents_raises _ _ _ _ _ Hretrieve).
    exists w1, ("Error: " ++ str_exn e)%string. split; [reflexivity | right; apply prefix_append].
Qed.

(** X3.  Once a line can be read, [FusionRetrieval.run] returns normally
    whatever the chat model, the templates and the retriever do: its last
    act is to print the answer or the error. *)
Theorem fusion_run_always_reports :
  forall (k : Z) (w : world) (question : string) (rest : list string),
    stdin w = question :: rest ->
    fst (FusionRetrieval.run (score := score) k w) = Ok tt
    /\ exists (events : list event) (text : string),
        trace (snd (FusionRetrieval.run (score := score) k w))
        = events ++ [Output text]
        /\ (String.prefix "Answer: " text = true
            \/ String.prefix "Error: " text = true).
Proof.
  intros k w question rest Hstdin.
  destruct (fusion_run_outcome k w question rest Hstdin)
    as (w' & text & -> & Htext).
  split; [reflexivity|]. now exists (trace w'), text.
Qed.

(** X4.  [retrieve_and_rag] is all or nothing: whatever fails inside it
    (the expansion of the question, the retriever, a template, the chat
    model), the caller sees one [ValueError] that names the cause; the
    empty question is refused before anything is called. *)
Theorem retrieve_and_rag_all_or_nothing :
  forall (question : string) (chain : string -> M (list string))
         (w w' : world) (e : exn),
    DecompositionRetrieval.retrieve_and_rag question chain w = (Err e, w') ->
    (question = "" /\ e = ValueError "Question cannot be empty" /\ w' = w)
    \/ (question <> ""
        /\ exists cause,
            e = ValueError ("Failed to retrieve and RAG sub-questions: "
                            ++ str_exn cause)).
Proof.
  intros question chain w w' e.
  unfold DecompositionRetrieval.retrieve_and_rag.
  destruct (String.eqb_spec question "") as [->|Hq].
  - unfold raise. intros [= <- <-]. now left.
  - unfold try_except.
    destruct ((sub_questions <- chain question ;;
               rag_results <- DecompositionRetrieval.answer_loop sub_questions [] ;;
               ret (rag_results, sub_questions)) w) as [[r|cause] w1];
      [discriminate|].
    simpl. unfold raise. intros [= <- _]. right. split; [exact Hq|].
    now exists cause.
Qed.






(** X5.  A failure of the final synthesis call of the decomposition
    pipeline is printed only if it is a [ValueError]: any other exception
    of the chat model leaves [run] uncaught, after the sub-questions were
    answered. *)
Theorem decomposition_final_failure :
  forall (w w1 : world) (question : string) (rest : list string)
         (r : list string * list string) (context prompt : string) (e : exn),
    stdin w = question :: rest ->
    DecompositionRetrieval.retrieve_and_rag
      question DecompositionRetrieval.generate_queries_decomposition
      {| stdin := rest;
         trace := trace w ++ [Input "Please enter your question: "] |}
    = (Ok r, w1) ->
    DecompositionRetrieval.format_qa_pairs (snd r) (fst r) = Ok context ->
    format_prompt DecompositionRetrieval.final_prompt
                  [("context", Str context); ("question", Str question)]
    = Ok prompt ->
    chat (trace w1) prompt = Err e ->
    DecompositionRetrieval.run w
    = if is_ValueError e
      then (Ok tt, log (Output ("Error: " ++ str_exn e))
                       (log (Generate prompt) w1))
      else (Err e, log (Generate prompt) w1).
Proof.
  intros w w1 question rest r context prompt e Hstdin Hrag Hcontext Hprompt Hchat.
  rewrite (decomposition_run_asked w question rest Hstdin).
  unfold try_except, only_ValueError. unfold bind at 1. rewrite Hrag.
  unfold bind at 1, lift. rewrite Hcontext.
  unfold bind at 1, invoke_chain, bind at 1, lift. rewrite Hprompt.
  unfold generate. rewrite Hchat. reflexivity.
Qed.
End Raises.

(** ** The pipelines under the dispatcher *)

Section Dispatched.
Context {Doc : Type} `{Document Doc} `{Collaborators Doc}.
Context {score : Type} `{ScoreArith score}.


(** X7.  An empty line at the prompt is refused by both pipelines before
    the chat model or the retriever is called: [run] prints the error and
    returns. *)
Theorem empty_question_refused :
  forall (k : Z) (w : world) (rest : list string),
    stdin w = "" :: rest ->
    FusionRetrieval.run (score := score) k w
    = (Ok tt,
       {| stdin := rest;
          trace := (trace w ++ [Input "Please enter your question: "])
                     ++ [Output "Error: Question cannot be empty"] |})
    /\ DecompositionRetrieval.run w
       = (Ok tt,
          {| stdin := rest;
             trace := (trace w ++ [Input "Please enter your question: "])
                        ++ [Output "Error: Question cannot be empty"] |}).
Proof.
  intros k w rest Hstdin. split.
  - now rewrite (fusion_run_asked k w "" rest Hstdin).
  - now rewrite (decomposition_run_asked w "" rest Hstdin).
Qed.

Lemma answer_question_fails (question : string) (docs : list (Doc * score))
      (w : world) :
  exists cause,
    FusionRetrieval.answer_question question docs w
    = (Err (ValueError cause), w).
Proof.
  destruct docs as [|entry docs]; eexists; reflexivity.
Qed.

Lemma world_eta (w : world) :
  w = {| stdin := stdin w; trace := trace w ++ [] |}.
Proof. destruct w. simpl. now rewrite app_nil_r. Qed.

(** [retrieve_documents] calls the chat model at most once and does
    nothing else that is seen. *)
Lemma retrieve_documents_events (k : Z) (question : string) (w : world) :
  exists events,
    snd (FusionRetrieval.retrieve_documents (score := score) k question w)
    = {| stdin := stdin w; trace := trace w ++ events |}
    /\ (events = [] \/ exists prompt, events = [Generate prompt]).
Proof.
  unfold FusionRetrieval.retrieve_documents.
  destruct (String.eqb question "").
  { exists []. split; [apply world_eta | now left]. }
  unfold try_except, any_Exception, FusionRetrieval.generate_queries,
    invoke_chain, bind, lift, generate, ret, raise.
  destruct (format_prompt FusionRetrieval.prompt_rag_fusion
                          [("question", Str question)]) as [prompt|e].
  - exists [Generate prompt]. split; [|right; now exists prompt].
    destruct (chat (trace w) prompt) as [reply|e]; [|reflexivity].
    destruct (retriever_map (split_lines reply)) as [results|e]; [|reflexivity].
    destruct (reciprocal_rank_fusion results k) as [[|entry docs]|e];
      reflexivity.
  - exists []. split; [apply world_eta | now left].
Qed.

(** X8.  The fusion pipeline never prints an answer.  Its last step
    builds a chain from a [dict] of two strings, which LangChain refuses
    with a [TypeError]; [answer_question] turns that into a
    [ValueError], and [run] prints it.  Once a line is read, [run] calls
    the chat model at most once (to expand the question) and ends by
    printing an error; when the expansion and the retrieval succeed and
    find a document, what is printed is that refusal. *)
Theorem fusion_run_never_answers :
  forall (k : Z) (w : world) (question : string) (rest : list string),
    stdin w = question :: rest ->
    (exists (events : list event) (cause : string),
        FusionRetrieval.run (score := score) k w
        = (Ok tt,
           {| stdin := rest;
              trace := trace w ++ Input "Please enter your question: "
                         :: events ++ [Output ("Error: " ++ cause)] |})
        /\ (events = [] \/ exists prompt, events = [Generate prompt]))
    /\ forall (prompt1 reply : string) (results : list (list Doc)),
        (0 < k)%Z ->
        question <> "" ->
        format_prompt FusionRetrieval.prompt_rag_fusion
                      [("question", Str question)]
        = Ok prompt1 ->
        chat (trace w ++ [Input "Please enter your question: "]) prompt1
        = Ok reply ->
        retriever_map (split_lines reply) = Ok results ->
        List.concat results <> [] ->
        FusionRetrieval.run (score := score) k w
        = (Ok tt,
           {| stdin := rest;
              trace := trace w
                         ++ [Input "Please enter your question: ";
                             Generate prompt1;
                             Output "Error: Failed to generate answer: Expected a Runnable, callable or dict.Instead got an unsupported type: <class 'str'>"] |}).
Proof.
  intros k w question rest Hstdin. split.
  - rewrite (fusion_run_asked k w question rest Hstdin).
    set (asked := {| stdin := rest; trace := _ |}).
    destruct (retrieve_documents_events k question asked)
      as (events & Hw1 & Hevents).
    exists events. unfold try_except, only_ValueError. unfold bind at 1.
    destruct (FusionRetrieval.retrieve_documents k question asked)
      as [[docs|e] w1] eqn:Hretrieve; simpl in Hw1; subst w1.
    + unfold bind at 1.
      match goal with
      | |- context [FusionRetrieval.answer_question ?q ?d ?x] =>
          destruct (answer_question_fails q d x) as [cause ->]
      end.
      exists cause. split; [|exact Hevents].
      simpl. unfold print, log. simpl. f_equal. f_equal.
      now rewrite <- !app_assoc.
    + pose proof (retrieve_documents_raises _ _ _ _ _ Hretrieve) as Hv.
      rewrite Hv. exists (str_exn e). split; [|exact Hevents].
      unfold print, log. simpl. f_equal. f_equal.
      now rewrite <- !app_assoc.
  - intros prompt1 reply results Hk Hq Hp1 Hreply Hmap Hdocs.
    assert (Hne : results <> []) by (intros ->; now apply Hdocs).
    destruct (rrf_items (score := score) results k Hne Hk)
      as (items & Hrrf & Hnd & Hkeys & _).
    assert (Hitems : items <> []).
    { destruct (List.concat results) as [|doc docs] eqn:E; [contradiction|].
      assert (Hin : In (dumps doc) (map fst items)).
      { apply Hkeys. exists doc. split; [now left | reflexivity]. }
      intros ->. exact Hin. }
    rewrite (fusion_run_asked k w question rest Hstdin).
    apply String.eqb_neq in Hq.
    unfold try_except, only_ValueError. unfold bind at 1.
    unfold FusionRetrieval.retrieve_documents. rewrite Hq.
    unfold try_except, any_Exception. unfold bind at 1.
    unfold FusionRetrieval.generate_queries, bind at 1, invoke_chain, bind at 1,
      lift.
    cbn [trace]. rewrite Hp1. unfold generate. cbn [trace]. rewrite Hreply.
    unfold ret, bind at 1, bind at 1. rewrite Hmap, Hrrf.
    destruct items as [|item items']; [contradiction|].
    cbn [map]. unfold bind at 1.
    unfold FusionRetrieval.answer_question, try_except, any_Exception, lift,
      FusionRetrieval.coerce_to_runnable, raise, is_ValueError, print, log.
    cbn [trace stdin str_exn]. rewrite <- !app_assoc. reflexivity.
Qed.
End Dispatched.

(** * Further properties of reciprocal rank fusion *)

Section SortedInput.
Context {A K : Type} (lt : K -> K -> bool) (key : A -> K).

Lemma insort_last (x : A) (l : list A) :
  Forall (fun y => lt (key x) (key y) = false) l ->
  insort lt key x l = l ++ [x].
Proof.
  induction 1 as [|y l Hy _ IH]; simpl; [reflexivity|].
  now rewrite Hy, IH.
Qed.

(** A list that is already descending comes back as it is. *)
Lemma sorted_reverse_sorted (l : list A) :
  StronglySorted (fun a b => lt (key a) (key b) = false) l ->
  sorted_reverse lt key l = l.
Proof.
  intros Hs. unfold sorted_reverse. rewrite sort_asc_rev.
  rewrite <- (rev_involutive l) at 2. f_equal.
  induction Hs as [|x l Hs IH Hall]; simpl; [reflexivity|].
  rewrite IH. apply insort_last.
  apply Forall_forall. intros y Hy. apply in_rev in Hy.
  rewrite Forall_forall in Hall. now apply Hall.
Qed.
End SortedInput.

Section DictAppend.
Context {V : Type}.

Lemma dict_set_absent (key : string) (v : V) (d : dict V) :
  dict_mem key d = false -> dict_set key v d = d ++ [(key, v)].
Proof.
  induction d as [|[k0 w] d IH]; simpl; [reflexivity|].
  destruct (String.eqb key k0); [discriminate|].
  intros Hd. now rewrite IH.
Qed.

Lemma dict_set_last (key : string) (v v' : V) (d : dict V) :
  dict_mem key d = false ->
  dict_set key v' (d ++ [(key, v)]) = d ++ [(key, v')].
Proof.
  induction d as [|[k0 w] d IH]; simpl.
  - now rewrite String.eqb_refl.
  - destruct (String.eqb key k0); [discriminate|].
    intros Hd. now rewrite IH.
Qed.

Lemma dict_mem_app (key : string) (d1 d2 : dict V) :
  dict_mem key (d1 ++ d2) = dict_mem key d1 || dict_mem key d2.
Proof.
  induction d1 as [|[k0 w] d1 IH]; simpl; [reflexivity|].
  now destruct (String.eqb key k0).
Qed.
End DictAppend.

Section SingleList.
Context {Doc : Type} `{Document Doc} {score : Type} `{ScoreArith score}.
Context {nonneg : score -> Prop} {monotone : ScoreMonotone score nonneg}.

(** One pass over documents that are new and pairwise distinct appends
    them with the contribution of their rank. *)
Lemma fuse_docs_fresh (k : Z) (docs : list Doc) :
  forall (rank : nat) (fused : dict score),
    (0 < k)%Z ->
    NoDup (map dumps docs) ->
    (forall doc, In doc docs -> dict_mem (dumps doc) fused = false) ->
    fuse_docs k rank docs fused = Ok (fused ++ ranked k rank docs).
Proof.
  induction docs as [|doc rest IH]; intros rank fused Hk Hnd Hfresh; simpl.
  - now rewrite app_nil_r.
  - inversion Hnd as [|? ? Hnotin Hnd']; subst.
    rewrite (Hfresh doc) by now left.
    rewrite dict_get_set_same.
    destruct (Z.eqb_spec (Z.of_nat rank + k) 0) as [E|_]; [lia|].
    rewrite (dict_set_absent _ _ _ (Hfresh doc (or_introl eq_refl))).
    rewrite dict_set_last by (apply Hfresh; now left).
    rewrite IH; try assumption.
    + now rewrite <- app_assoc.
    + intros d Hd. rewrite dict_mem_app. simpl.
      rewrite (Hfresh d) by now right.
      destruct (String.eqb_spec (dumps d) (dumps doc)) as [E|_]; [|reflexivity].
      exfalso. apply Hnotin. rewrite <- E. now apply in_map.
Qed.

Lemma ranked_In (k : Z) (docs : list Doc) : forall (rank : nat) item,
    In item (ranked k rank docs) ->
    exists i, rank <= i /\ snd item = add zero (recip (Z.of_nat i + k)).
Proof.
  induction docs as [|doc rest IH]; intros rank item; simpl; [tauto|].
  intros [<-|Hin].
  - exists rank. split; [lia | reflexivity].
  - destruct (IH (S rank) item Hin) as (i & Hi & E). exists i. split; [lia | exact E].
Qed.

Lemma ranked_descending (k : Z) (docs : list Doc) : forall rank : nat,
    (0 < k)%Z ->
    StronglySorted (fun a b => ltb (snd a) (snd b) = false) (ranked k rank docs).
Proof.
  induction docs as [|doc rest IH]; intros rank Hk; simpl; constructor.
  - now apply IH.
  - apply Forall_forall. intros item Hin.
    destruct (ranked_In k rest (S rank) item Hin) as (i & Hi & ->). simpl.
    apply add_mono; try apply nonneg_zero; try (apply nonneg_recip; lia).
    + apply (ge_refl (monotone := monotone)), nonneg_zero.
    + apply recip_antitone; lia.
Qed.

Lemma ranked_keys (k : Z) (docs : list Doc) : forall rank : nat,
    map fst (ranked k rank docs) = map dumps docs.
Proof.
  induction docs as [|doc rest IH]; intros rank; simpl; [reflexivity|].
  now rewrite IH.
Qed.

Lemma rrf_single_list_items (k : Z) (docs : list Doc) :
  (0 < k)%Z ->
  NoDup (map dumps docs) ->
  reciprocal_rank_fusion [docs] k = Ok (map load_entry (ranked k 0 docs))
  /\ map fst (map load_entry (ranked (score := score) k 0 docs))
     = map (fun doc => loads (dumps doc)) docs.
Proof.
  intros Hk Hnd. split.
  - unfold reciprocal_rank_fusion, fused_scores. simpl.
    rewrite fuse_docs_fresh by (assumption || reflexivity). simpl.
    rewrite sorted_reverse_sorted; [reflexivity|].
    now apply ranked_descending.
  - rewrite map_map, <- (map_map dumps loads docs).
    rewrite <- (ranked_keys k docs 0), map_map. reflexivity.
Qed.

Lemma rrf_scores_nonneg_items (results : list (list Doc)) (k : Z)
      (out : list (Doc * score)) :
  (0 < k)%Z ->
  reciprocal_rank_fusion results k = Ok out ->
  Forall (fun entry => nonneg (snd entry)) out.
Proof.
  intros Hk. unfold reciprocal_rank_fusion.
  destruct results as [|docs rest]; [discriminate|].
  destruct (fused_scores (docs :: rest) k) as [fused|e] eqn:Hrun; [|discriminate].
  intros [= <-]. apply Forall_forall. intros entry Hin.
  apply in_map_iff in Hin. destruct Hin as ([key s] & <- & Hin). simpl.
  apply (Permutation_in _ (sorted_reverse_Permutation ltb snd fused)) in Hin.
  assert (Hdom : Forall (fun item => nonneg (snd item)) fused).
  { apply (fused_scores_dom nonneg k nonneg_zero) with (results := docs :: rest);
      [|exact Hrun].
    intros s0 rank Hs0 _. apply nonneg_add; [exact Hs0|].
    apply nonneg_recip. lia. }
  rewrite Forall_forall in Hdom. exact (Hdom _ Hin).
Qed.
End SingleList.

(** X9.  With binary64 scores and [k > 0], one ranked list of pairwise
    distinct documents is returned in its own order, each document with
    the score of its rank, [0 + 1 / (rank + k)]: fusion does not reorder a
    single list. *)
Theorem rrf_single_list :
  forall (Doc : Type) (D : Document Doc) (k : Z) (docs : list Doc),
    (0 < k)%Z ->
    NoDup (map dumps docs) ->
    @reciprocal_rank_fusion Doc D float Binary64.arith [docs] k
    = Ok (map load_entry (@ranked Doc D float Binary64.arith k 0 docs))
    /\ map fst (map load_entry (@ranked Doc D float Binary64.arith k 0 docs))
       = map (fun doc => loads (dumps doc)) docs.
Proof.
  intros Doc D k docs.
  exact (rrf_single_list_items (monotone := binary64_monotone) k docs).
Qed.

(** X10.  With binary64 scores and [k > 0], no score of the result is
    below [0]. *)
Theorem rrf_scores_nonneg :
  forall (Doc : Type) (D : Document Doc) (results : list (list Doc)) (k : Z)
         (out : list (Doc * float)),
    (0 < k)%Z ->
    @reciprocal_rank_fusion Doc D float Binary64.arith results k = Ok out ->
    Forall (fun entry => PrimFloat.leb 0 (snd entry) = true) out.
Proof.
  intros Doc D results k out Hk Hrun.
  pose proof (rrf_scores_nonneg_items (monotone := binary64_monotone)
                results k out Hk Hrun) as Hall.
  apply Forall_forall. intros entry Hin. rewrite Forall_forall in Hall.
  rewrite leb_spec. change (Prim2SF 0) with (S754_zero false).
  apply SFleb_zero_nonneg. exact (Hall entry Hin).
Qed.

Section EmptyResult.
Context {Doc : Type} `{Document Doc} {score : Type} `{ScoreArith score}.

(** X11.  For [k > 0] the result on a non-empty collection is empty
    exactly when every list of the collection is empty: the check for an
    empty retrieval in [retrieve_documents] fires in no other case. *)
Theorem rrf_empty_iff :
  forall (results : list (list Doc)) (k : Z),
    results <> [] -> (0 < k)%Z ->
    reciprocal_rank_fusion (score := score) results k = Ok []
    <-> Forall (fun docs => docs = []) results.
Proof.
  intros results k Hne Hk. split.
  - intros Hrun.
    destruct (rrf_items (score := score) results k Hne Hk)
      as (items & Hrrf & _ & Hkeys & _).
    rewrite Hrun in Hrrf. injection Hrrf as Hitems.
    symmetry in Hitems. apply map_eq_nil in Hitems. subst items.
    apply Forall_forall. intros docs Hin.
    destruct docs as [|doc docs]; [reflexivity|]. exfalso.
    apply (proj2 (Hkeys (dumps doc))). exists doc. split; [|reflexivity].
    apply in_concat. exists (doc :: docs). split; [exact Hin | now left].
  - now apply rrf_all_empty.
Qed.
End EmptyResult.

(** X12.  With binary64 scores the outcome depends on the order in which
    the ranked lists are given, beyond the order of ties.  For [k = 60],
    documents A and B each stand at rank 0 of two lists and at rank 2 of a
    third.  When the third list of A comes after the two others and that
    of B between them, A scores one unit in the last place more than B
    and comes first; when the lists are given the other way round, B
    does. *)
Theorem rrf_list_order :
  let results :=
    [["A"]; ["A"]; ["x"; "y"; "A"]; ["B"]; ["x"; "y"; "B"]; ["B"]] in
  let results' :=
    [["A"]; ["x"; "y"; "A"]; ["A"]; ["B"]; ["B"]; ["x"; "y"; "B"]] in
  Permutation results results'
  /\ @reciprocal_rank_fusion _ TextDocument.document _ Binary64.arith results 60
     = Ok [("A", 0x1.9532195321953p-5%float);
           ("B", 0x1.9532195321952p-5%float);
           ("x", 0x1.1111111111111p-5%float);
           ("y", 0x1.0c9714fbcda3bp-5%float)]
  /\ @reciprocal_rank_fusion _ TextDocument.document _ Binary64.arith results' 60
     = Ok [("B", 0x1.9532195321953p-5%float);
           ("A", 0x1.9532195321952p-5%float);
           ("x", 0x1.1111111111111p-5%float);
           ("y", 0x1.0c9714fbcda3bp-5%float)].
Proof.
  intros results results'. split; [|split; vm_compute; reflexivity].
  subst results results'. apply perm_skip.
  eapply perm_trans; [apply perm_swap|].
  do 3 apply perm_skip. apply perm_swap.
Qed.

(** ** The lines of a reply *)

Section ReplyLines.
Local Open Scope string_scope.
Context {Doc : Type} `{Collaborators Doc}.

Lemma split_lines_cons (s : string) :
  exists piece pieces, split_lines s = piece :: pieces.
Proof.
  destruct (split_lines s) as [|piece pieces] eqn:E; [|now eauto].
  destruct s as [|c s]; simpl in E; [discriminate|].
  destruct (Ascii.eqb c nl_char); [discriminate|].
  destruct (split_lines s); discriminate.
Qed.

Lemma join_cons_cons (sep p q : string) (rest : list string) :
  join sep (p :: q :: rest) = p ++ sep ++ join sep (q :: rest).
Proof. reflexivity. Qed.

Lemma join_split_lines (s : string) : join nl (split_lines s) = s.
Proof.
  induction s as [|c s IH]; [reflexivity|].
  destruct (split_lines_cons s) as (piece & pieces & E).
  cbn [split_lines]. rewrite E in *.
  destruct (Ascii.eqb c nl_char) eqn:Ec.
  - apply Ascii.eqb_eq in Ec. subst c.
    rewrite join_cons_cons, IH. reflexivity.
  - rewrite <- IH. destruct pieces as [|q pieces]; reflexivity.
Qed.

Lemma split_lines_no_newline (s : string) :
  Forall (fun query => ~ In nl_char (list_ascii_of_string query))
         (split_lines s).
Proof.
  induction s as [|c s IH]; [constructor; [intros [] | constructor]|].
  destruct (split_lines_cons s) as (piece & pieces & E).
  cbn [split_lines]. rewrite E in *.
  destruct (Ascii.eqb c nl_char) eqn:Ec.
  - constructor; [intros [] | exact IH].
  - inversion IH as [|? ? Hpiece Hpieces]; subst.
    constructor; [|exact Hpieces].
    simpl. intros [Hc | Hin]; [|now apply Hpiece].
    subst c. now rewrite Ascii.eqb_refl in Ec.
Qed.

Lemma split_lines_length (s : string) :
  List.length (split_lines s)
  = S (count_occ ascii_dec (list_ascii_of_string s) nl_char).
Proof.
  induction s as [|c s IH]; [reflexivity|].
  destruct (split_lines_cons s) as (piece & pieces & E).
  cbn [split_lines list_ascii_of_string count_occ]. rewrite E in *.
  destruct (Ascii.eqb c nl_char) eqn:Ec.
  - apply Ascii.eqb_eq in Ec. subst c.
    destruct (ascii_dec nl_char nl_char) as [_|Hne]; [|now destruct Hne].
    simpl. now rewrite <- IH.
  - destruct (ascii_dec c nl_char) as [Heq|_].
    + subst c. now rewrite Ascii.eqb_refl in Ec.
    + exact IH.
Qed.

Lemma invoke_chain_reply (template : string)
      (variables : list (string * value Doc)) (w : world)
      (prompt reply : string) :
  format_prompt template variables = Ok prompt ->
  chat (trace w) prompt = Ok reply ->
  invoke_chain template variables w = (Ok reply, log (Generate prompt) w).
Proof.
  intros Hp Hc. unfold invoke_chain, bind, lift, generate.
  now rewrite Hp, Hc.
Qed.

(** X13.  The queries of the fusion pipeline and the sub-questions of the
    decomposition pipeline are the lines of the chat model's reply, taken
    as they are: joined by newlines they give the reply back, none of them
    holds a newline, and there is one more of them than the reply has
    newlines.  Blank lines and surrounding spaces are kept. *)
Theorem generated_queries_are_reply_lines :
  forall (question reply : string) (w : world),
    (forall prompt,
        format_prompt FusionRetrieval.prompt_rag_fusion
                      [("question", Str question)] = Ok prompt ->
        chat (trace w) prompt = Ok reply ->
        FusionRetrieval.generate_queries question w
        = (Ok (split_lines reply), log (Generate prompt) w))
    /\ (forall prompt,
           format_prompt DecompositionRetrieval.prompt_decomposition
                         [("question", Str question)] = Ok prompt ->
           chat (trace w) prompt = Ok reply ->
           DecompositionRetrieval.generate_queries_decomposition question w
           = (Ok (split_lines reply), log (Generate prompt) w))
    /\ join nl (split_lines reply) = reply
    /\ Forall (fun query => ~ In nl_char (list_ascii_of_string query))
              (split_lines reply)
    /\ List.length (split_lines reply)
       = S (count_occ ascii_dec (list_ascii_of_string reply) nl_char).
Proof.
  intros question reply w. repeat split.
  - intros prompt Hp Hc. unfold FusionRetrieval.generate_queries.
    unfold bind at 1. now rewrite (invoke_chain_reply _ _ _ _ _ Hp Hc).
  - intros prompt Hp Hc.
    unfold DecompositionRetrieval.generate_queries_decomposition.
    unfold bind at 1. now rewrite (invoke_chain_reply _ _ _ _ _ Hp Hc).
  - apply join_split_lines.
  - apply split_lines_no_newline.
  - apply split_lines_length.
Qed.
End ReplyLines.

(** ** Trimmed texts *)

Section Trimmed.
Local Open Scope string_scope.
Import DecompositionRetrieval.

Lemma rstrip_idempotent (s : string) : rstrip (rstrip s) = rstrip s.
Proof.
  induction s as [|c s IH]; [reflexivity|].
  cbn [rstrip]. destruct (rstrip s) as [|c' r] eqn:E.
  - destruct (isspace c) eqn:Ec; [reflexivity|].
    cbn [rstrip]. now rewrite Ec.
  - cbn [rstrip] in *. cbn [rstrip]. now rewrite IH.
Qed.

Lemma rstrip_app_blank (s t : string) :
  rstrip t = "" -> rstrip (s ++ t) = rstrip s.
Proof.
  intros Ht. induction s as [|c s IH]; [exact Ht|].
  cbn [append rstrip]. now rewrite IH.
Qed.

Lemma rstrip_first (c : ascii) (s : string) :
  isspace c = false -> exists r, rstrip (String c s) = String c r.
Proof.
  intros Hc. cbn [rstrip]. destruct (rstrip s); [rewrite Hc|]; eauto.
Qed.

(** X14.  [format_qa_pairs] always returns, and what it returns has no
    white space at either end: trimming it again changes nothing.  The
    text is empty exactly when there is no pair, that is, when one of the
    two lists is empty. *)
Theorem format_qa_pairs_trimmed :
  forall questions answers : list string,
  exists context : string,
    format_qa_pairs questions answers = Ok context
    /\ strip context = context
    /\ (context = "" <-> questions = [] \/ answers = []).
Proof.
  intros questions answers. rewrite format_qa_pairs_blocks.
  eexists. split; [reflexivity|].
  destruct questions as [|q questions]; [simpl; tauto|].
  destruct answers as [|a answers]; [simpl; tauto|].
  cbn [combine blocks]. unfold qa_block. cbn [append].
  match goal with
  | |- context [rstrip (String ?c ?s)] =>
      destruct (rstrip_first c s eq_refl) as (r & Hr);
        assert (Hidem := rstrip_idempotent (String c s));
        rewrite Hr in *
  end.
  split.
  - unfold strip. cbn [lstrip]. cbn. exact Hidem.
  - split; [discriminate | intros [?|?]; discriminate].
Qed.

(** X15.  The static method [format_qa_pair] returns the question line
    and the answer line with the answer trimmed on the right: the two
    newlines that the template ends in never survive.  An answer with no
    white space at its end is kept whole; for a blank answer the text
    ends in ["Answer:"], without the space of the template. *)
Theorem format_qa_pair_text :
  forall question answer : string,
    format_qa_pair question answer
    = "Question: " ++ question ++ nl ++ "Answer:" ++ rstrip (" " ++ answer)
    /\ (rstrip answer = "" ->
        format_qa_pair question answer
        = "Question: " ++ question ++ nl ++ "Answer:")
    /\ (answer <> "" -> rstrip answer = answer ->
        format_qa_pair question answer
        = "Question: " ++ question ++ nl ++ "Answer: " ++ answer).
Proof.
  intros question answer.
  assert (Hmain : format_qa_pair question answer
                  = "Question: " ++ question ++ nl ++ "Answer:"
                    ++ rstrip (" " ++ answer)).
  { unfold format_qa_pair, strip.
    replace (lstrip ("Question: " ++ question ++ nl ++ "Answer: " ++ answer
                     ++ nl ++ nl))
      with (("Question: " ++ question ++ nl) ++ "Answer:"
            ++ (" " ++ answer ++ nl ++ nl))
      by (rewrite 2 append_assoc; reflexivity).
    rewrite rstrip_after_keyword by (reflexivity || discriminate).
    rewrite append_assoc.
    replace (" " ++ answer ++ nl ++ nl) with ((" " ++ answer) ++ nl ++ nl)
      by (now rewrite append_assoc).
    rewrite (rstrip_app_blank (" " ++ answer) (nl ++ nl)) by reflexivity.
    now rewrite append_assoc. }
  split; [exact Hmain|]. split.
  - intros Hblank. rewrite Hmain.
    change (" " ++ answer) with (String " " answer).
    cbn [rstrip]. rewrite Hblank. reflexivity.
  - intros Hne Hkeep. rewrite Hmain.
    change (" " ++ answer) with (String " " answer).
    cbn [rstrip]. rewrite Hkeep.
    destruct answer; [contradiction | reflexivity].
Qed.
End Trimmed.

(** ** The document processor *)

Section ProcessorFacts.
Context {Doc VS R : Type} `{DocumentProcessor.Services Doc VS R}.
Import DocumentProcessor.
Implicit Types (self : @DocumentProcessor.t Doc VS R) (m : method).

Lemma load_documents_settings self :
  same_settings self (snd (load_documents self)).
Proof.
  unfold load_documents, same_settings.
  destruct (web_load _ _); simpl; tauto.
Qed.

Lemma split_documents_settings self :
  same_settings self (snd (split_documents self)).
Proof.
  unfold split_documents, same_settings.
  destruct (documents self) as [[|doc docs]|]; simpl; try tauto.
  destruct (split_text _ _ _); simpl; tauto.
Qed.

Lemma index_documents_settings self :
  same_settings self (snd (index_documents self)).
Proof.
  unfold index_documents, same_settings.
  destruct (splits self) as [[|chunk chunks]|]; simpl; try tauto.
  destruct (chroma_from_documents _); simpl; tauto.
Qed.

Lemma same_settings_trans self self' self'' :
  same_settings self self' -> same_settings self' self'' ->
  same_settings self self''.
Proof. unfold same_settings. intuition congruence. Qed.

(** The processor that [process] leaves is the one of its last step. *)
Lemma process_steps self :
  process self = load_documents self
  \/ process self = split_documents (snd (load_documents self))
  \/ process self
     = index_documents (snd (split_documents (snd (load_documents self)))).
Proof.
  unfold process.
  destruct (load_documents self) as [[[]|e] self1]; simpl; [|now left].
  destruct (split_documents self1) as [[[]|e] self2]; simpl; [|now right; left].
  now right; right.
Qed.

Lemma provenance_settings self self' :
  same_settings self self' ->
  (forall docs, loaded self docs <-> loaded self' docs)
  /\ (forall chunks, chunked self chunks <-> chunked self' chunks)
  /\ (forall store, indexed self store <-> indexed self' store).
Proof.
  intros (Hu & Hs & Ho & Hp).
  unfold indexed, chunked, loaded. rewrite Hu, Hs, Ho, Hp. tauto.
Qed.

Lemma load_documents_provenance self :
  provenance self -> provenance (snd (load_documents self)).
Proof.
  intros Hp. unfold load_documents.
  destruct (web_load (url self) (parse_classes self)) as [docs|e] eqn:E;
    [|exact Hp].
  unfold provenance, indexed, chunked, loaded in *.
  destruct Hp as (Hd & Hs & Hv & Hr).
  repeat split; simpl; try assumption.
  intros docs' [= <-]. exact E.
Qed.

Lemma split_documents_provenance self :
  provenance self -> provenance (snd (split_documents self)).
Proof.
  intros Hp. unfold split_documents.
  destruct (documents self) as [[|doc docs]|] eqn:Ed; try exact Hp.
  destruct (split_text _ _ _) as [chunks|e] eqn:E; [|exact Hp].
  unfold provenance, indexed, chunked, loaded in *.
  destruct Hp as (Hd & Hs & Hv & Hr).
  repeat split; simpl; try assumption.
  - intros docs' [= <-]. now apply Hd.
  - intros chunks' [= <-]. exists (doc :: docs).
    split; [now apply Hd|]. split; [discriminate | exact E].
Qed.

Lemma index_documents_provenance self :
  provenance self -> provenance (snd (index_documents self)).
Proof.
  intros Hp. unfold index_documents.
  destruct (splits self) as [[|chunk chunks]|] eqn:Es; try exact Hp.
  destruct (chroma_from_documents _) as [store|e] eqn:E; [|exact Hp].
  unfold provenance, indexed, chunked, loaded in *.
  destruct Hp as (Hd & Hs & Hv & Hr).
  repeat split; simpl; try assumption.
  - intros chunks' [= <-]. now apply Hs.
  - intros store' [= <-]. exists (chunk :: chunks).
    split; [now apply Hs|]. split; [discriminate | exact E].
Qed.

Lemma perform_provenance m self :
  provenance self -> provenance (snd (perform m self)).
Proof.
  intros Hp. destruct m; simpl.
  - now apply load_documents_provenance.
  - now apply split_documents_provenance.
  - now apply index_documents_provenance.
  - destruct (process_steps self) as [-> | [-> | ->]].
    + now apply load_documents_provenance.
    + now apply split_documents_provenance, load_documents_provenance.
    + now apply index_documents_provenance, split_documents_provenance,
        load_documents_provenance.
Qed.

Lemma perform_settings m self : same_settings self (snd (perform m self)).
Proof.
  destruct m; simpl.
  - apply load_documents_settings.
  - apply split_documents_settings.
  - apply index_documents_settings.
  - destruct (process_steps self) as [-> | [-> | ->]].
    + apply load_documents_settings.
    + eapply same_settings_trans;
        [apply load_documents_settings | apply split_documents_settings].
    + eapply same_settings_trans; [apply load_documents_settings|].
      eapply same_settings_trans;
        [apply split_documents_settings | apply index_documents_settings].
Qed.

Lemma after_snoc (calls : list method) m self :
  after (calls ++ [m]) self = snd (perform m (after calls self)).
Proof. unfold after. now rewrite fold_left_app. Qed.

Lemma after_provenance (calls : list method) self :
  provenance self ->
  provenance (after calls self) /\ same_settings self (after calls self).
Proof.
  intros Hp. induction calls as [|m calls [IHp IHs]] using rev_ind.
  - split; [exact Hp | now repeat split].
  - rewrite after_snoc. split.
    + now apply perform_provenance.
    + eapply same_settings_trans; [exact IHs | apply perform_settings].
Qed.

(** Loading and splitting leave the store and the retriever alone. *)
Lemma perform_keeps_retriever m self :
  m = LoadDocuments \/ m = SplitDocuments ->
  vectorstore (snd (perform m self)) = vectorstore self
  /\ retriever (snd (perform m self)) = retriever self.
Proof.
  intros [-> | ->]; simpl.
  - unfold load_documents. now destruct (web_load _ _).
  - unfold split_documents.
    destruct (documents self) as [[|doc docs]|]; try easy.
    now destruct (split_text _ _ _).
Qed.

Lemma after_keeps_retriever (calls : list method) self :
  ~ In IndexDocuments calls -> ~ In Process calls ->
  retriever (after calls self) = retriever self.
Proof.
  induction calls as [|m calls IH] using rev_ind; [reflexivity|].
  intros Hi Hp. rewrite after_snoc.
  rewrite in_app_iff in Hi, Hp. simpl in Hi, Hp.
  destruct (perform_keeps_retriever m (after calls self)) as [_ ->].
  - destruct m; tauto.
  - apply IH; tauto.
Qed.

Lemma init_provenance (url : string) (chunk_size chunk_overlap : Z)
      (parse_classes : list string) :
  provenance (init url chunk_size chunk_overlap parse_classes).
Proof. repeat split; simpl; discriminate. Qed.

Lemma method_eq_dec (m m' : method) : {m = m'} + {m <> m'}.
Proof. decide equality. Qed.

(** X16.  Whatever methods have been called on a new processor, in
    whatever order and whether they raised or not, [get_retriever] either
    raises [ValueError("Documents not indexed. Call process() first.")]
    or hands out the retriever of a store that was built from a non-empty
    list of chunks, which the splitter made, with the chunk size and the
    overlap of the processor, from a non-empty list of documents that the
    loader returned for the processor's url and classes.  It hands one
    out only after a call of [index_documents] or [process]. *)
Theorem get_retriever_provenance :
  forall (url : string) (chunk_size chunk_overlap : Z)
         (parse_classes : list string) (calls : list method),
    let self := after calls (init url chunk_size chunk_overlap parse_classes) in
    (forall e, get_retriever self = Err e ->
               e = ValueError "Documents not indexed. Call process() first.")
    /\ (forall r, get_retriever self = Ok r ->
          (In IndexDocuments calls \/ In Process calls)
          /\ exists docs chunks store,
              web_load url parse_classes = Ok docs /\ docs <> []
              /\ split_text chunk_size chunk_overlap docs = Ok chunks
              /\ chunks <> []
              /\ chroma_from_documents chunks = Ok store
              /\ r = as_retriever store).
Proof.
  intros url0 size overlap classes calls self.
  destruct (after_provenance calls _ (init_provenance url0 size overlap classes))
    as [(_ & _ & Hv & Hr) Hsame].
  fold self in Hv, Hr, Hsame.
  unfold get_retriever. split.
  - intros e. destruct (retriever self); [discriminate | now intros [= <-]].
  - intros r Hget. split.
    + destruct (in_dec method_eq_dec IndexDocuments calls) as [|Hi]; [now left|].
      destruct (in_dec method_eq_dec Process calls) as [|Hp]; [now right|].
      exfalso. unfold self in Hget.
      now rewrite (after_keeps_retriever calls _ Hi Hp) in Hget.
    + rewrite Hr in Hget.
      destruct (vectorstore self) as [store|] eqn:Es; [|discriminate].
      injection Hget as <-.
      destruct (Hv store eq_refl) as (chunks & (docs & Hl & Hd & Hs) & Hc & Hi).
      destruct Hsame as (Eu & Ez & Eo & Ep). unfold loaded in Hl.
      rewrite Eu, Ep in Hl. rewrite Ez, Eo in Hs. simpl in Hl, Hs.
      now exists docs, chunks, store.
Qed.

(** X17.  [process] stops at the first step that raises and keeps what
    the steps before it have stored.  A page on which the loader finds
    nothing makes it raise
    [ValueError("Documents not loaded. Call load_documents() first.")],
    though the documents were loaded; a splitter that returns no chunk
    makes it raise
    [ValueError("Documents not split. Call split_documents() first.")].
    In both cases, and when the loader raises, the store and the
    retriever of an earlier run stay in place.  When every step succeeds,
    [get_retriever] returns the retriever of the new store. *)
Theorem process_outcome :
  forall self,
    (forall e, web_load (url self) (parse_classes self) = Err e ->
               process self = (Err e, self))
    /\ (forall docs,
           web_load (url self) (parse_classes self) = Ok docs ->
           let self' := snd (process self) in
           documents self' = Some docs
           /\ (docs = [] ->
               fst (process self)
               = Err (ValueError
                        "Documents not loaded. Call load_documents() first.")
               /\ splits self' = splits self
               /\ vectorstore self' = vectorstore self
               /\ retriever self' = retriever self)
           /\ (docs <> [] ->
               forall chunks,
                 split_text (chunk_size self) (chunk_overlap self) docs
                 = Ok chunks ->
                 splits self' = Some chunks
                 /\ (chunks = [] ->
                     fst (process self)
                     = Err (ValueError
                              "Documents not split. Call split_documents() first.")
                     /\ vectorstore self' = vectorstore self
                     /\ retriever self' = retriever self)
                 /\ (chunks <> [] ->
                     forall store,
                       chroma_from_documents chunks = Ok store ->
                       fst (process self) = Ok tt
                       /\ vectorstore self' = Some store
                       /\ get_retriever self' = Ok (as_retriever store)))).
Proof.
  intros self. split.
  - intros e He. unfold process, load_documents. now rewrite He.
  - intros docs Hload. unfold process, load_documents. rewrite Hload.
    destruct docs as [|doc docs].
    + simpl. split; [reflexivity|]. split; [now intros _ | now intros []].
    + unfold split_documents. cbn [documents chunk_size chunk_overlap].
      destruct (split_text _ _ _) as [chunks|e] eqn:Es.
      * destruct chunks as [|chunk chunks].
        -- simpl. split; [reflexivity|]. split; [discriminate|].
           intros _ chunks' [= <-]. split; [reflexivity|].
           split; [now intros _ | now intros []].
        -- unfold index_documents. cbn [splits].
           destruct (chroma_from_documents _) as [store|e] eqn:Ec.
           ++ simpl. split; [reflexivity|]. split; [discriminate|].
              intros _ chunks' [= <-]. split; [reflexivity|].
              split; [discriminate|]. intros _ store' Hstore.
              rewrite Ec in Hstore. injection Hstore as <-.
              now unfold get_retriever.
           ++ simpl. split; [reflexivity|]. split; [discriminate|].
              intros _ chunks' [= <-]. split; [reflexivity|].
              split; [discriminate|]. intros _ store' Hstore.
              rewrite Ec in Hstore. discriminate.
      * simpl. split; [reflexivity|]. split; [discriminate|].
        intros _ chunks' [=].
Qed.
End ProcessorFacts.

(** ** The configuration and [main] *)

Section ConfigFacts.
Local Open Scope string_scope.

Lemma dict_set_same_value {V : Type} (key : string) (v : V) (d : dict V) :
  dict_get key d = Ok v -> dict_set key v d = d.
Proof.
  induction d as [|[k w] d IH]; simpl; [discriminate|].
  destruct (String.eqb_spec key k) as [->|Hne].
  - now intros [= ->].
  - intros Hget. now rewrite IH.
Qed.

Lemma setenv_ok (name value : string) (env : Config.environ) :
  Config.has_nul value = false ->
  Config.setenv name value env = Ok (dict_set name value env).
Proof. intros Hv. unfold Config.setenv. now rewrite Hv. Qed.

Lemma setup_environment_ok (self : Config.t) (env : Config.environ) :
  Config.has_nul (Config.langchain_api_key self) = false ->
  Config.has_nul (Config.openai_api_key self) = false ->
  Config.setup_environment self env
  = (Ok tt,
     dict_set "OPENAI_API_KEY" (Config.openai_api_key self)
       (dict_set "LANGCHAIN_API_KEY" (Config.langchain_api_key self)
          (dict_set "LANGCHAIN_ENDPOINT" "https://api.smith.langchain.com"
             (dict_set "LANGCHAIN_TRACING_V2" "true" env)))).
Proof.
  intros Hl Ho. unfold Config.setup_environment.
  now rewrite !setenv_ok by (assumption || reflexivity).
Qed.

(** X18.  With keys that hold no NUL character, [Config(...)] returns and
    leaves the four variables set: [LANGCHAIN_TRACING_V2] to ["true"],
    [LANGCHAIN_ENDPOINT] to the LangSmith address, and the two keys to
    the values given, whatever these variables held before.  Every other
    variable reads as before, and setting up the environment a second
    time changes nothing. *)
Theorem config_sets_environment :
  forall (langchain_api_key openai_api_key : string) (env : Config.environ),
    Config.has_nul langchain_api_key = false ->
    Config.has_nul openai_api_key = false ->
    exists (config : Config.t) (env' : Config.environ),
      Config.init langchain_api_key openai_api_key env = (Ok config, env')
      /\ Config.langchain_api_key config = langchain_api_key
      /\ Config.openai_api_key config = openai_api_key
      /\ dict_get "LANGCHAIN_TRACING_V2" env' = Ok "true"
      /\ dict_get "LANGCHAIN_ENDPOINT" env'
         = Ok "https://api.smith.langchain.com"
      /\ dict_get "LANGCHAIN_API_KEY" env' = Ok langchain_api_key
      /\ dict_get "OPENAI_API_KEY" env' = Ok openai_api_key
      /\ (forall name,
             ~ In name ["LANGCHAIN_TRACING_V2"; "LANGCHAIN_ENDPOINT";
                        "LANGCHAIN_API_KEY"; "OPENAI_API_KEY"] ->
             dict_get name env' = dict_get name env)
      /\ Config.setup_environment config env' = (Ok tt, env').
Proof.
  intros lk ok env Hl Ho.
  unfold Config.init. rewrite setup_environment_ok by assumption.
  eexists. eexists. split; [reflexivity|]. cbn [Config.langchain_api_key
                                                 Config.openai_api_key].
  assert (H1 : dict_get "OPENAI_API_KEY"
                 (dict_set "OPENAI_API_KEY" ok
                    (dict_set "LANGCHAIN_API_KEY" lk
                       (dict_set "LANGCHAIN_ENDPOINT"
                          "https://api.smith.langchain.com"
                          (dict_set "LANGCHAIN_TRACING_V2" "true" env))))
               = Ok ok)
    by apply dict_get_set_same.
  assert (H2 : dict_get "LANGCHAIN_API_KEY"
                 (dict_set "OPENAI_API_KEY" ok
                    (dict_set "LANGCHAIN_API_KEY" lk
                       (dict_set "LANGCHAIN_ENDPOINT"
                          "https://api.smith.langchain.com"
                          (dict_set "LANGCHAIN_TRACING_V2" "true" env))))
               = Ok lk).
  { rewrite dict_get_set_other by discriminate. apply dict_get_set_same. }
  assert (H3 : dict_get "LANGCHAIN_ENDPOINT"
                 (dict_set "OPENAI_API_KEY" ok
                    (dict_set "LANGCHAIN_API_KEY" lk
                       (dict_set "LANGCHAIN_ENDPOINT"
                          "https://api.smith.langchain.com"
                          (dict_set "LANGCHAIN_TRACING_V2" "true" env))))
               = Ok "https://api.smith.langchain.com").
  { rewrite !dict_get_set_other by discriminate. apply dict_get_set_same. }
  assert (H4 : dict_get "LANGCHAIN_TRACING_V2"
                 (dict_set "OPENAI_API_KEY" ok
                    (dict_set "LANGCHAIN_API_KEY" lk
                       (dict_set "LANGCHAIN_ENDPOINT"
                          "https://api.smith.langchain.com"
                          (dict_set "LANGCHAIN_TRACING_V2" "true" env))))
               = Ok "true").
  { rewrite !dict_get_set_other by discriminate. apply dict_get_set_same. }
  repeat (split; [first [reflexivity | assumption]|]). split.
  - intros name Hname. simpl in Hname.
    rewrite !dict_get_set_other; [reflexivity | | | |];
      intros ->; tauto.
  - rewrite setup_environment_ok by assumption.
    cbn [Config.langchain_api_key Config.openai_api_key]. f_equal.
    set (env' := dict_set "OPENAI_API_KEY" ok _) in *.
    rewrite (dict_set_same_value "LANGCHAIN_TRACING_V2" "true" env' H4).
    rewrite (dict_set_same_value "LANGCHAIN_ENDPOINT" _ env' H3).
    rewrite (dict_set_same_value "LANGCHAIN_API_KEY" _ env' H2).
    apply (dict_set_same_value "OPENAI_API_KEY" _ env' H1).
Qed.

(** X19.  A key with a NUL character makes [Config(...)] raise
    [ValueError("embedded null byte")], and the assignments made before
    the failing one stay: with a bad LangChain key the tracing flag and
    the endpoint are set already, while the two key variables read as
    before. *)
Theorem config_bad_key :
  forall (langchain_api_key openai_api_key : string) (env : Config.environ),
    Config.has_nul langchain_api_key = true ->
    exists env' : Config.environ,
      Config.init langchain_api_key openai_api_key env
      = (Err (ValueError "embedded null byte"), env')
      /\ dict_get "LANGCHAIN_TRACING_V2" env' = Ok "true"
      /\ dict_get "LANGCHAIN_ENDPOINT" env'
         = Ok "https://api.smith.langchain.com"
      /\ dict_get "LANGCHAIN_API_KEY" env' = dict_get "LANGCHAIN_API_KEY" env
      /\ dict_get "OPENAI_API_KEY" env' = dict_get "OPENAI_API_KEY" env.
Proof.
  intros lk ok env Hl.
  unfold Config.init, Config.setup_environment.
  rewrite !setenv_ok by reflexivity.
  unfold Config.setenv at 1. cbn [Config.langchain_api_key]. rewrite Hl.
  eexists. split; [reflexivity|]. split; [|split; [|split]].
  - rewrite dict_get_set_other by discriminate. apply dict_get_set_same.
  - apply dict_get_set_same.
  - now rewrite !dict_get_set_other by discriminate.
  - now rewrite !dict_get_set_other by discriminate.
Qed.
End ConfigFacts.

Section MainFacts.
Local Open Scope string_scope.
Context {Doc VS : Type} `{Document Doc} {score : Type} `{ScoreArith score}.
Context `{DocumentProcessor.Services Doc VS (string -> result (list Doc))}.

Lemma main_config (env : Config.environ) :
  exists config env',
    Config.init "your_langchain_api_key_here" "your_openai_api_key_here" env
    = (Ok config, env').
Proof.
  unfold Config.init. rewrite setup_environment_ok by reflexivity.
  now eexists; eexists.
Qed.

(** X20.  [main] never returns normally and never runs a pipeline: it
    calls [call_method] with the method name and the query, one argument
    more than [call_method] takes, so when everything before that call
    succeeds the call raises [TypeError]; anything that fails earlier
    raises as well.  Nothing of what [main] does depends on the prompt
    renderer, the chat model, its constructor or the multi-query
    pipeline, and the chat model is never called. *)
Theorem main_never_completes :
  forall (format format' : string -> list (string * value Doc) -> result string)
         (chat_model chat_model' : list event -> string -> result string)
         (new_chat_model new_chat_model' : option string -> result unit)
         (multi_query_run multi_query_run'
          : (string -> result (list Doc)) -> M unit)
         (env : Config.environ) (w : world),
    Main.main format chat_model new_chat_model multi_query_run env w
    = Main.main format' chat_model' new_chat_model' multi_query_run' env w
    /\ (exists e, fst (Main.main format chat_model new_chat_model
                                 multi_query_run env w)
                  = Err e)
    /\ prompts (trace (snd (snd (Main.main format chat_model new_chat_model
                                           multi_query_run env w))))
       = prompts (trace w).
Proof.
  intros format format' chat_model chat_model' new_chat new_chat' mq mq' env w.
  unfold Main.main.
  destruct (main_config env) as (config & env' & ->).
  cbn [Config.truth negb].
  destruct (DocumentProcessor.process _) as [[[]|e] dp];
    [|split; [reflexivity | split; [now exists e | reflexivity]]].
  destruct (DocumentProcessor.get_retriever dp) as [r|e];
    [|split; [reflexivity | split; [now exists e | reflexivity]]].
  cbn [RAGMethodCaller.init]. unfold input.
  destruct (stdin w) as [|query rest].
  - split; [reflexivity|]. split; [now eexists|].
    cbn. rewrite prompts_app. cbn. now rewrite app_nil_r.
  - split; [reflexivity|]. split; [now eexists|].
    cbn. rewrite prompts_app. cbn. now rewrite app_nil_r.
Qed.

(** X21.  When the page is processed and a query is typed, [main] ends
    in [TypeError("RAGMethodCaller.call_method() takes 2 positional
    arguments but 3 were given")]: by then the environment is set up and
    the query has been read, and nothing else has happened on the
    console. *)
Theorem main_type_error :
  forall (format : string -> list (string * value Doc) -> result string)
         (chat_model : list event -> string -> result string)
         (new_chat_model : option string -> result unit)
         (multi_query_run : (string -> result (list Doc)) -> M unit)
         (env : Config.environ) (w : world) (query : string)
         (rest : list string),
    fst (DocumentProcessor.process
           (DocumentProcessor.new
              "https://lilianweng.github.io/posts/2023-06-23-agent/"))
    = Ok tt ->
    stdin w = query :: rest ->
    Main.main format chat_model new_chat_model multi_query_run env w
    = (Err (TypeError
              "RAGMethodCaller.call_method() takes 2 positional arguments but 3 were given"),
       (snd (Config.init "your_langchain_api_key_here"
                         "your_openai_api_key_here" env),
        {| stdin := rest;
           trace := trace w ++ [Input "Please enter your query: "] |})).
Proof.
  intros format chat_model new_chat mq env w query rest Hprocess Hstdin.
  unfold Main.main.
  destruct (main_config env) as (config & env' & ->).
  cbn [Config.truth negb snd].
  destruct (DocumentProcessor.process _) as [[[]|e] dp] eqn:Ep;
    [|discriminate].
  assert (Hr : exists r, DocumentProcessor.get_retriever dp = Ok r).
  { revert Ep. unfold DocumentProcessor.process.
    destruct (DocumentProcessor.load_documents _) as [[[]|e1] self1];
      [|discriminate].
    destruct (DocumentProcessor.split_documents self1) as [[[]|e2] self2];
      [|discriminate].
    unfold DocumentProcessor.index_documents.
    destruct (DocumentProcessor.splits self2) as [[|chunk chunks]|];
      try discriminate.
    destruct (DocumentProcessor.chroma_from_documents _); [|discriminate].
    intros [= <-]. now eexists. }
  destruct Hr as (r & ->).
  cbn [RAGMethodCaller.init]. unfold input. rewrite Hstdin.
  reflexivity.
Qed.
End MainFacts.

(** * The further properties on the stand-ins *)

Lemma fusion_run_always_reports_witness :
  fst (@FusionRetrieval.run _ TextDocument.document Stubs.unreachable
                            _ RationalScores.arith default_k
                            (Stubs.typed ["What is RAG?"]))
  = Ok tt
  /\ exists (events : list event) (text : string),
      trace (snd (@FusionRetrieval.run _ TextDocument.document Stubs.unreachable
                                       _ RationalScores.arith default_k
                                       (Stubs.typed ["What is RAG?"])))
      = events ++ [Output text]
      /\ (String.prefix "Answer: " text = true
          \/ String.prefix "Error: " text = true).
Proof.
  apply (@fusion_run_always_reports
           string TextDocument.document Stubs.unreachable
           QArith_base.Q RationalScores.arith default_k
           (Stubs.typed ["What is RAG?"]) "What is RAG?" []).
  reflexivity.
Defined.

Lemma retrieve_and_rag_all_or_nothing_witness :
  ("What is RAG?" = ""
   /\ ValueError "Failed to retrieve and RAG sub-questions: connection refused"
      = ValueError "Question cannot be empty"
   /\ {| stdin := []; trace := [Generate "What is RAG?"] |} = Stubs.typed [])
  \/ ("What is RAG?" <> ""
      /\ exists cause,
          ValueError "Failed to retrieve and RAG sub-questions: connection refused"
          = ValueError ("Failed to retrieve and RAG sub-questions: "
                        ++ str_exn cause)).
Proof.
  apply (@retrieve_and_rag_all_or_nothing
           string Stubs.unreachable "What is RAG?"
           (@DecompositionRetrieval.generate_queries_decomposition
              string Stubs.unreachable)
           (Stubs.typed [])).
  vm_compute. reflexivity.
Defined.

Lemma decomposition_final_failure_witness :
  fst (@DecompositionRetrieval.run _ Stubs.exhausted
                                   (Stubs.typed ["What is RAG?"]))
  = Err (OtherError "rate limit reached").
Proof.
  refine (eq_trans
            (f_equal fst
               (@decomposition_final_failure
                  string Stubs.exhausted (Stubs.typed ["What is RAG?"]) _
                  "What is RAG?" [] _ _ _ _ eq_refl _ _ _ _)) _).
  - vm_compute. reflexivity.
  - vm_compute. reflexivity.
  - vm_compute. reflexivity.
  - vm_compute. reflexivity.
  - reflexivity.
Defined.

Lemma empty_question_refused_witness :
  @FusionRetrieval.run _ TextDocument.document Stubs.found
                       _ RationalScores.arith default_k
                       (Stubs.typed [""; "What is RAG?"])
  = (Ok tt,
     {| stdin := ["What is RAG?"];
        trace := ([] ++ [Input "Please enter your question: "])
                   ++ [Output "Error: Question cannot be empty"] |})
  /\ @DecompositionRetrieval.run _ Stubs.found
                                 (Stubs.typed [""; "What is RAG?"])
     = (Ok tt,
        {| stdin := ["What is RAG?"];
           trace := ([] ++ [Input "Please enter your question: "])
                      ++ [Output "Error: Question cannot be empty"] |}).
Proof.
  apply (@empty_question_refused
           string TextDocument.document Stubs.found
           QArith_base.Q RationalScores.arith default_k
           (Stubs.typed [""; "What is RAG?"]) ["What is RAG?"]).
  reflexivity.
Defined.

(** The chat model replies, the retriever finds the documents, and the
    pipeline ends on the refusal of the chain. *)
Lemma fusion_run_never_answers_witness :
  @FusionRetrieval.run _ TextDocument.document Stubs.found
                       _ RationalScores.arith default_k
                       (Stubs.typed ["What is RAG?"])
  = (Ok tt,
     {| stdin := [];
        trace := [] ++ [Input "Please enter your question: ";
                        Generate "What is RAG?";
                        Output "Error: Failed to generate answer: Expected a Runnable, callable or dict.Instead got an unsupported type: <class 'str'>"] |}).
Proof.
  apply (proj2 (@fusion_run_never_answers
                  string TextDocument.document Stubs.found
                  QArith_base.Q RationalScores.arith default_k
                  (Stubs.typed ["What is RAG?"]) "What is RAG?" [] eq_refl)
               "What is RAG?" ("first" ++ nl ++ "second")%string
               [["first"]; ["second"]]);
    try reflexivity; discriminate.
Defined.


Lemma rrf_single_list_witness :
  @reciprocal_rank_fusion _ TextDocument.document _ Binary64.arith
                          [["A"; "B"; "C"]] 60
  = Ok (map (@load_entry _ TextDocument.document float)
            (@ranked _ TextDocument.document _ Binary64.arith
                     60 0 ["A"; "B"; "C"]))
  /\ map fst (map (@load_entry _ TextDocument.document float)
                  (@ranked _ TextDocument.document _ Binary64.arith
                           60 0 ["A"; "B"; "C"]))
     = map (fun doc => @loads _ TextDocument.document
                              (@dumps _ TextDocument.document doc))
           ["A"; "B"; "C"].
Proof.
  apply (@rrf_single_list string TextDocument.document).
  - reflexivity.
  - repeat constructor; simpl; intuition discriminate.
Defined.

Lemma rrf_scores_nonneg_witness :
  exists out : list (string * float),
    @reciprocal_rank_fusion _ TextDocument.document _ Binary64.arith
                            [["A"; "B"]; ["B"]] 60
    = Ok out
    /\ Forall (fun entry => PrimFloat.leb 0 (snd entry) = true) out.
Proof.
  eexists. split; [vm_compute; reflexivity|].
  apply (@rrf_scores_nonneg string TextDocument.document
                            [["A"; "B"]; ["B"]] 60).
  - reflexivity.
  - vm_compute. reflexivity.
Defined.

Lemma rrf_empty_iff_witness :
  @reciprocal_rank_fusion string TextDocument.document
                          _ RationalScores.arith [[]; []] 60
  = Ok []
  <-> Forall (fun docs : list string => docs = []) [[]; []].
Proof.
  apply (@rrf_empty_iff string TextDocument.document
                        QArith_base.Q RationalScores.arith).
  - discriminate.
  - reflexivity.
Defined.

Lemma config_sets_environment_witness :
  exists (config : Config.t) (env' : Config.environ),
    Config.init "ls-key" "sk-key"
                [("HOME", "/root"); ("OPENAI_API_KEY", "old")]
    = (Ok config, env')
    /\ dict_get "OPENAI_API_KEY" env' = Ok "sk-key"
    /\ dict_get "LANGCHAIN_TRACING_V2" env' = Ok "true"
    /\ dict_get "HOME" env' = Ok "/root".
Proof.
  destruct (config_sets_environment
              "ls-key" "sk-key" [("HOME", "/root"); ("OPENAI_API_KEY", "old")]
              eq_refl eq_refl)
    as (config & env' & Hinit & _ & _ & Htracing & _ & _ & Hopenai & Hother & _).
  exists config, env'. repeat split; try assumption.
  rewrite Hother; [reflexivity|]. simpl. intuition discriminate.
Defined.

Lemma config_bad_key_witness :
  exists env' : Config.environ,
    Config.init (String (ascii_of_nat 0) "ls-key") "sk-key"
                [("OPENAI_API_KEY", "old")]
    = (Err (ValueError "embedded null byte"), env')
    /\ dict_get "LANGCHAIN_TRACING_V2" env' = Ok "true"
    /\ dict_get "OPENAI_API_KEY" env' = Ok "old".
Proof.
  destruct (config_bad_key (String (ascii_of_nat 0) "ls-key") "sk-key"
                           [("OPENAI_API_KEY", "old")] eq_refl)
    as (env' & Hinit & Htracing & _ & _ & Hopenai).
  exists env'. repeat split; assumption.
Defined.

Lemma main_type_error_witness :
  @Main.main _ _ TextDocument.document _ RationalScores.arith Stubs.services
             Stubs.render (fun _ _ => Ok "reply") (fun _ => Ok tt)
             (fun _ => ret tt)
             [] (Stubs.typed ["What is RAG?"])
  = (Err (TypeError
            "RAGMethodCaller.call_method() takes 2 positional arguments but 3 were given"),
     (snd (Config.init "your_langchain_api_key_here"
                       "your_openai_api_key_here" []),
      {| stdin := [];
         trace := [] ++ [Input "Please enter your query: "] |})).
Proof.
  apply (@main_type_error _ _ TextDocument.document _ RationalScores.arith
                          Stubs.services
                          Stubs.render (fun _ _ => Ok "reply") (fun _ => Ok tt)
                          (fun _ => ret tt)
                          [] (Stubs.typed ["What is RAG?"]) "What is RAG?" []).
  - reflexivity.
  - reflexivity.
Defined.
